(** * coro-asyncio: coroutine primitives and the poll-based [io_engine]

    A shallow embedding of [include/io_engine.hpp] and [src/io_engine.cpp].

    - [Cxx]       : exceptions, results of calls that may throw, what a
                    move leaves behind, and the awaiter protocol of the
                    language ([await_ready], [await_suspend], [await_resume])
                    with the expansion of a [co_await] expression.
    - [Generator] : [generator<T>], its promise and its iterator.
    - [Task]      : [detail::promise], [lazy_task<T>] and [eager_task<T>].
    - [AsyncGenerator] : [async_generator<T>], its promise and its awaiters.
    - [UniqueHandle]   : [detail::UniqueHandle], the owner of a coroutine
                    frame.
    - [Utils]     : [utils::handle], the owner of a file descriptor
                    ([include/utils.hpp]).
    - [Reactor]   : [io_engine]: the registry of pending operations, the
                    awaiters of [wait_until] / [poll_until] / [poll_once],
                    [do_pull], [pull], [pull_all], [add_operation] and the
                    destructor. *)

From Stdlib Require Import ZArith Lia Bool.
From stdpp Require Import base option list gmap strings.

Open Scope Z_scope.

(* ===================================================================== *)
(** * Language-level notions shared by all components *)
(* ===================================================================== *)

Module Cxx.

(** The exception objects this library creates or forwards.
    [runtime_error] is [std::runtime_error(what)], [system_error] is
    [std::system_error(errno, std::system_category(), what)], the three
    [poll*_error] are the subclasses of [io_engine::poll_error] (each keeps
    the descriptor in its [fd] member), and [user_exception] stands for
    whatever a coroutine body throws. *)
Inductive exn : Type :=
| runtime_error (what : string)
| system_error (code : Z) (what : string)
| pollerr_error (fd : Z)
| pollhup_error (fd : Z)
| pollnval_error (fd : Z)
| user_exception (tag : nat).

(** [std::exception_ptr]; [None] is the null pointer. *)
Definition exception_ptr : Type := option exn.

(** The descriptor carried by a [poll_error] (its [fd] member). *)
Definition poll_error_fd (e : exn) : option Z :=
  match e with
  | pollerr_error fd | pollhup_error fd | pollnval_error fd => Some fd
  | _ => None
  end.

(** How a call ends: it returns a value or an exception leaves it. *)
Inductive result (A : Type) : Type :=
| returns (a : A)
| throws (e : exn).
Arguments returns {A} a.
Arguments throws {A} e.

(** [std::rethrow_exception(p)] guarded by [if (p)], followed by a normal
    return of [a]: the body of every [await_resume] of the library. *)
Definition rethrow_or {A : Type} (p : exception_ptr) (a : A) : result A :=
  match p with
  | Some e => throws e
  | None => returns a
  end.

(** What [std::move(x)] leaves in [x] once a new object has been built from
    it: a valid object of the type, which one is a matter of the type.  A
    scalar is left as it was; a standard container is left empty. *)
Class Movable (T : Type) : Type := moved_from : T -> T.

#[export] Instance nat_movable : Movable nat := fun v => v.
#[export] Instance Z_movable : Movable Z := fun v => v.
#[export] Instance vector_movable {A : Type} : Movable (list A) := fun _ => [].

(** The awaiter protocol.  [W] is the state the awaiter works on and [H]
    the type of coroutine handles.  [await_suspend] answers [None] when its
    C++ return type is [void] (control goes back to the caller or resumer of
    the awaiting coroutine) and [Some h] when it returns a handle (symmetric
    transfer to [h]). *)
Class Awaiter (A W H R : Type) : Type := {
  await_ready : A -> W -> bool * W;
  await_suspend : A -> H -> W -> option H * W;
  await_resume : A -> W -> result R
}.

(** What a [co_await] expression does to the awaiting coroutine. *)
Inductive awaited (H R : Type) : Type :=
| not_suspended (r : result R)
| suspended (next : option H).
Arguments not_suspended {H R} r.
Arguments suspended {H R} next.

(** [co_await a] evaluated in the coroutine [self]: when [await_ready]
    answers true neither the coroutine is suspended nor [await_suspend]
    called, and the expression's value is that of [await_resume]. *)
Definition co_await {A W H R : Type} {protocol : Awaiter A W H R}
    (a : A) (self : H) (w : W) : awaited H R * W :=
  let '(ready, w1) := await_ready a w in
  if ready then (not_suspended (await_resume a w1), w1)
  else let '(next, w2) := await_suspend a self w1 in (suspended next, w2).

(** [std::suspend_always] and [std::suspend_never]. *)
Inductive std_suspend : Type := suspend_always | suspend_never.

#[export] Instance std_suspend_awaiter {W H : Type} : Awaiter std_suspend W H unit := {
  await_ready a w := (match a with suspend_always => false | suspend_never => true end, w);
  await_suspend _ _ w := (None, w);
  await_resume _ _ := returns tt
}.

End Cxx.

Import Cxx.

(* ===================================================================== *)
(** * [generator<T>] *)
(* ===================================================================== *)

Module Generator.
Section generator.
Context {T : Type}.

(** What is left to run of a generator body: a [co_yield], the end of the
    body, or a [throw] that nothing in the body catches. *)
Inductive body : Type :=
| co_yield (v : T) (rest : body)
| co_return
| throw (e : exn).

(** [generator<T>::promise_type]. *)
Record promise_type : Type := {
  value : option T;
  exception : exception_ptr
}.

Definition initial_suspend (p : promise_type) : std_suspend := suspend_always.
Definition final_suspend (p : promise_type) : std_suspend := suspend_always.

Definition yield_value (v : T) (p : promise_type) : promise_type * std_suspend :=
  ({| value := Some v; exception := exception p |}, suspend_always).

Definition return_void (p : promise_type) : promise_type := p.

(** [exception = std::current_exception();] and a normal return. *)
Definition unhandled_exception (e : exn) (p : promise_type) : result promise_type :=
  returns {| value := value p; exception := Some e |}.

(** The coroutine frame: the promise, the code left to run, and whether the
    coroutine is suspended at its final suspend point. *)
Record frame : Type := {
  promise : promise_type;
  pc : body;
  at_final : bool
}.

(** [std::coroutine_handle<promise_type>]; [None] is the null handle.  The
    generator owns one frame, so the handle is modelled together with the
    frame it points to. *)
Definition handle_type : Type := option frame.

(** Whether a [co_await] on a standard awaiter suspends the coroutine. *)
Definition suspends (a : std_suspend) : bool :=
  match co_await (H := unit) a tt tt with
  | (suspended _, _) => true
  | (not_suspended _, _) => false
  end.

(** Runs the body from [b] until it suspends.  The answer is the frame at
    the suspension and how the [resume()] call that made it run ends:
    an exception leaves [resume()] only when [unhandled_exception] itself
    throws. *)
Fixpoint run (b : body) (p : promise_type) : frame * result unit :=
  match b with
  | co_yield v rest =>
      let '(p1, a) := yield_value v p in
      if suspends a then ({| promise := p1; pc := rest; at_final := false |}, returns tt)
      else run rest p1
  | co_return =>
      let p1 := return_void p in
      ({| promise := p1; pc := co_return; at_final := suspends (final_suspend p1) |}, returns tt)
  | throw e =>
      match unhandled_exception e p with
      | returns p1 =>
          ({| promise := p1; pc := co_return; at_final := suspends (final_suspend p1) |}, returns tt)
      | throws e1 =>
          ({| promise := p; pc := co_return; at_final := true |}, throws e1)
      end
  end.

(** Calling the generator function: the frame is created and the body is
    entered only when [initial_suspend()] does not suspend. *)
Definition create (b : body) : handle_type :=
  let p := {| value := None; exception := None |} in
  if suspends (initial_suspend p)
  then Some {| promise := p; pc := b; at_final := false |}
  else Some (fst (run b p)).

(** [handle.done()]. *)
Definition done (f : frame) : bool := at_final f.

(** [handle.resume()].  Resuming a coroutine that is suspended at its final
    suspend point is undefined: [None]. *)
Definition resume (f : frame) : option (frame * result unit) :=
  if done f then None else Some (run (pc f) (promise f)).

(** [generator::iterator]: it holds a copy of the handle. *)
Definition iterator : Type := handle_type.

(** [iterator::operator++]: [handle.resume();]. *)
Definition operator_inc (it : iterator) : option (iterator * result unit) :=
  f ← it;
  '(f1, r) ← resume f;
  Some (Some f1, r).

(** [iterator::operator*]. *)
Definition operator_deref (it : iterator) : option T :=
  f ← it; value (promise f).

(** [iterator::operator==(std::default_sentinel_t)]. *)
Definition operator_eq_end (it : iterator) : bool :=
  match it with
  | None => true
  | Some f => done f
  end.

(** [generator::begin]: the coroutine is resumed when the handle is not
    null, and an iterator holding the handle is returned. *)
Definition begin (g : handle_type) : option (iterator * result unit) :=
  match g with
  | None => Some (None, returns tt)
  | Some f => '(f1, r) ← resume f; Some (Some f1, r)
  end.

(** [for (auto &&x : g) seen.push_back(x);] unrolled at most [n] times: the
    values seen, and how the loop ends ([None]: it did not end within [n]
    advances, or it ran into undefined behaviour). *)
Fixpoint loop (n : nat) (it : iterator) (seen : list (option T))
    : option (list (option T) * result unit) :=
  if operator_eq_end it then Some (seen, returns tt)
  else match n with
       | O => None
       | S n1 =>
           '(it1, r) ← operator_inc it;
           match r with
           | returns _ => loop n1 it1 (seen ++ [operator_deref it])
           | throws e => Some (seen ++ [operator_deref it], throws e)
           end
       end.

Definition range_for (n : nat) (g : handle_type) : option (list (option T) * result unit) :=
  '(it, r) ← begin g;
  match r with
  | returns _ => loop n it []
  | throws e => Some ([], throws e)
  end.

(** The values a body yields, in order. *)
Fixpoint yielded (b : body) : list T :=
  match b with
  | co_yield v rest => v :: yielded rest
  | co_return | throw _ => []
  end.

End generator.
Arguments body : clear implicits.
Arguments promise_type : clear implicits.
Arguments frame : clear implicits.
Arguments handle_type : clear implicits.
Arguments iterator : clear implicits.
End Generator.

(* ===================================================================== *)
(** * [detail::promise], [lazy_task<T>] and [eager_task<T>] *)
(* ===================================================================== *)

Module Task.
Section task.
Context {T : Type} `{!Movable T}.

(** [std::coroutine_handle<>] as seen from one task: the no-op coroutine,
    the task's own coroutine, or another coroutine (one that awaits the
    task), named by a number. *)
Inductive coroutine_handle : Type :=
| noop_coroutine
| task_coroutine
| coroutine (id : nat).

(** What is left to run of a task body.  [suspend] is a suspension inside
    the body on something that is not ready (a wait on the reactor, another
    task): control leaves the task, and a later [resume()] of its handle
    continues with [rest]. *)
Inductive body : Type :=
| co_return (v : T)
| throw (e : exn)
| suspend (rest : body).

(** [detail::promise<Task, T, Initial>]; [value] is [None] until
    [return_value] assigns it. *)
Record promise : Type := {
  continuation : coroutine_handle;
  value : option T;
  exception : exception_ptr
}.

(** The coroutine frame of the task. *)
Record frame : Type := {
  the_promise : promise;
  pc : body;
  at_final : bool
}.

Definition initial_suspend (Initial : std_suspend) (p : promise) : std_suspend := Initial.

Definition return_value (v : T) (p : promise) : promise :=
  {| continuation := continuation p; value := Some v; exception := exception p |}.

Definition unhandled_exception (e : exn) (p : promise) : result promise :=
  returns {| continuation := continuation p; value := value p; exception := Some e |}.

(** The awaiter returned by [final_suspend()]: never ready, and its
    [await_suspend] hands control to the stored continuation. *)
Inductive final_awaiter : Type := final_awaiter_v.

#[export] Instance final_awaiter_awaiter : Awaiter final_awaiter frame coroutine_handle unit := {
  await_ready _ f := (false, f);
  await_suspend _ _ f := (Some (continuation (the_promise f)), f);
  await_resume _ _ := returns tt
}.

Definition final_suspend (p : promise) : final_awaiter := final_awaiter_v.

(** [handle.done()]. *)
Definition done (f : frame) : bool := at_final f.

Definition set_continuation (c : coroutine_handle) (f : frame) : frame :=
  {| the_promise := {| continuation := c;
                       value := value (the_promise f);
                       exception := exception (the_promise f) |};
     pc := pc f; at_final := at_final f |}.

(** The frame once [std::move(handle.promise().value)] has built the value
    that [await_resume] returns: the member [value] is left moved-from. *)
Definition moved_out (f : frame) : frame :=
  {| the_promise := {| continuation := continuation (the_promise f);
                       value := moved_from <$> value (the_promise f);
                       exception := exception (the_promise f) |};
     pc := pc f; at_final := at_final f |}.

(** The body of [await_resume] of both task awaiters: the stored exception
    is rethrown, or the value is moved out of the promise.  The answer is how
    the call ends and the frame it leaves. *)
Definition task_await_resume (f : frame) : result (option T) * frame :=
  match exception (the_promise f) with
  | Some e => (throws e, f)
  | None => (returns (value (the_promise f)), moved_out f)
  end.

(** The awaiter of [lazy_task<T>::operator co_await].  The protocol gives
    [await_resume] no state to return: the instance answers how the call
    ends, and [transfer] and [co_await_task] below put the frame that
    [task_await_resume] leaves in place. *)
Inductive lazy_awaiter : Type := lazy_awaiter_v.

#[export] Instance lazy_awaiter_awaiter : Awaiter lazy_awaiter frame coroutine_handle (option T) := {
  await_ready _ f := (done f, f);
  await_suspend _ c f := (Some task_coroutine, set_continuation c f);
  await_resume _ f := fst (task_await_resume f)
}.

(** The awaiter of [eager_task<T>::operator co_await]: its [await_suspend]
    returns [void]. *)
Inductive eager_awaiter : Type := eager_awaiter_v.

#[export] Instance eager_awaiter_awaiter : Awaiter eager_awaiter frame coroutine_handle (option T) := {
  await_ready _ f := (done f, f);
  await_suspend _ c f := (None, set_continuation c f);
  await_resume _ f := fst (task_await_resume f)
}.

(** What can be observed of a run: the task body was entered or continued
    ([body_ran]), and a coroutine that awaits the task evaluated the
    [await_resume()] of its awaiter and got [r] ([await_resumed]). *)
Inductive event : Type :=
| body_ran
| await_resumed (c : nat) (r : result (option T)).

Record world : Type := {
  task_frame : frame;
  log : list event
}.

Definition is_await_resumed (ev : event) : bool :=
  match ev with await_resumed _ _ => true | body_ran => false end.

Definition is_body_ran (ev : event) : bool :=
  match ev with body_ran => true | await_resumed _ _ => false end.

(** The task coroutine runs from its current point until it suspends.  At
    the end of the body ([co_return], or an exception caught by the
    coroutine machinery and given to [unhandled_exception]) the coroutine
    evaluates [co_await final_suspend()].  The answer names the coroutine
    control is transferred to, if any. *)
Definition run (f : frame) : frame * option coroutine_handle :=
  let finish (p : promise) :=
    let f1 := {| the_promise := p; pc := pc f; at_final := true |} in
    match co_await (final_suspend p) task_coroutine f1 with
    | (suspended next, f2) => (f2, next)
    | (not_suspended _, f2) => (f2, None)
    end in
  match pc f with
  | suspend rest => ({| the_promise := the_promise f; pc := rest; at_final := false |}, None)
  | co_return v => finish (return_value v (the_promise f))
  | throw e =>
      match unhandled_exception e (the_promise f) with
      | returns p => finish p
      | throws _ => ({| the_promise := the_promise f; pc := pc f; at_final := true |}, None)
      end
  end.

(** Control arrives at [next]: the no-op coroutine returns at once; a
    coroutine that awaits the task continues by evaluating
    [await_resume()], which may move the value out of the promise. *)
Definition transfer (next : option coroutine_handle) (w : world) : world :=
  match next with
  | Some (coroutine c) =>
      let '(r, f) := task_await_resume (task_frame w) in
      {| task_frame := f; log := log w ++ [await_resumed c r] |}
  | _ => w
  end.

(** The task's coroutine is entered or continued, and control follows the
    transfer it ends with. *)
Definition enter (w : world) : world :=
  let '(f, next) := run (task_frame w) in
  transfer next {| task_frame := f; log := log w ++ [body_ran] |}.

(** [handle.resume()] on the task's handle, as the reactor or another
    coroutine does for a task suspended inside its body.  Resuming a
    finished coroutine is undefined. *)
Definition resume (w : world) : option world :=
  if done (task_frame w) then None else Some (enter w).

Fixpoint resume_n (n : nat) (w : world) : option world :=
  match n with
  | O => Some w
  | S n1 => w1 ← resume w; resume_n n1 w1
  end.

(** Calling a coroutine function whose promise is
    [detail::promise<Task, T, Initial>]: the frame is created with the
    default members of the promise, and the body is entered before the call
    returns exactly when [co_await initial_suspend()] does not suspend. *)
Definition create (Initial : std_suspend) (b : body) : world :=
  let p := {| continuation := noop_coroutine; value := None; exception := None |} in
  let f := {| the_promise := p; pc := b; at_final := false |} in
  let w := {| task_frame := f; log := [] |} in
  match co_await (initial_suspend Initial p) task_coroutine f with
  | (suspended _, _) => w
  | (not_suspended _, _) => enter w
  end.

Definition lazy_task (b : body) : world := create suspend_always b.
Definition eager_task (b : body) : world := create suspend_never b.

(** [~UniqueHandle]: the frame is destroyed; nothing runs.  What remains is
    the log. *)
Definition destroy (w : world) : list event := log w.

(** [co_await t] evaluated in the coroutine [c], for a task awaiter [a].
    When the awaiter is ready [r] is the answer of its [await_resume], and
    the frame is the one that call leaves. *)
Definition co_await_task {A : Type} `{!Awaiter A frame coroutine_handle (option T)}
    (a : A) (c : nat) (w : world) : world :=
  match co_await a (coroutine c) (task_frame w) with
  | (not_suspended r, f) =>
      {| task_frame := snd (task_await_resume f); log := log w ++ [await_resumed c r] |}
  | (suspended (Some task_coroutine), f) =>
      enter {| task_frame := f; log := log w |}
  | (suspended next, f) =>
      transfer next {| task_frame := f; log := log w |}
  end.

Definition co_await_lazy (c : nat) (w : world) : world := co_await_task lazy_awaiter_v c w.
Definition co_await_eager (c : nat) (w : world) : world := co_await_task eager_awaiter_v c w.

(** The number of suspensions inside a body, and how the body ends. *)
Fixpoint suspensions (b : body) : nat :=
  match b with
  | suspend rest => S (suspensions rest)
  | _ => O
  end.

Fixpoint ending (b : body) : result T :=
  match b with
  | co_return v => returns v
  | throw e => throws e
  | suspend rest => ending rest
  end.

(** What a coroutine that awaits the task gets once the body has ended. *)
Definition final_result (p : promise) (b : body) : result (option T) :=
  match ending b with
  | returns v => rethrow_or (exception p) (Some v)
  | throws e => throws e
  end.

(** The frame of a task right after its creation with [Initial =
    std::suspend_never]: the body has run up to its first suspension or to
    its end. *)
Definition after_first_run (b : body) : frame :=
  match b with
  | suspend rest =>
      {| the_promise := {| continuation := noop_coroutine; value := None; exception := None |};
         pc := rest; at_final := false |}
  | co_return v =>
      {| the_promise := {| continuation := noop_coroutine; value := Some v; exception := None |};
         pc := b; at_final := true |}
  | throw e =>
      {| the_promise := {| continuation := noop_coroutine; value := None; exception := Some e |};
         pc := b; at_final := true |}
  end.

End task.
Arguments body : clear implicits.
Arguments promise : clear implicits.
Arguments frame : clear implicits.
Arguments world : clear implicits.
Arguments event : clear implicits.
End Task.

(* ===================================================================== *)
(** * [async_generator<T>] *)
(* ===================================================================== *)

Module AsyncGenerator.
Section async_generator.
Context {T : Type}.

(** [std::coroutine_handle<>] as seen from one generator: the no-op
    coroutine, the generator's own coroutine, or a coroutine that traverses
    the generator, named by a number. *)
Inductive coroutine_handle : Type :=
| noop_coroutine
| generator_coroutine
| coroutine (id : nat).

(** What is left to run of the body of an asynchronous generator; [suspend]
    is a [co_await] inside the body on something that is not ready. *)
Inductive body : Type :=
| co_yield (v : T) (rest : body)
| co_return
| throw (e : exn)
| suspend (rest : body).

(** [async_generator<T>::promise_type]. *)
Record promise_type : Type := {
  continuation : coroutine_handle;
  value : option T;
  exception : exception_ptr
}.

Record frame : Type := {
  promise : promise_type;
  pc : body;
  at_final : bool
}.

Definition initial_suspend (p : promise_type) : std_suspend := suspend_always.

Definition return_void (p : promise_type) : promise_type := p.

Definition unhandled_exception (e : exn) (p : promise_type) : result promise_type :=
  returns {| continuation := continuation p; value := value p; exception := Some e |}.

(** The awaiter of [final_suspend()] and the awaiter of [yield_value]: both
    are never ready and hand control to the stored continuation. *)
Inductive final_awaiter : Type := final_awaiter_v.
Inductive yield_awaiter : Type := yield_awaiter_v.

#[export] Instance final_awaiter_awaiter : Awaiter final_awaiter frame coroutine_handle unit := {
  await_ready _ f := (false, f);
  await_suspend _ _ f := (Some (continuation (promise f)), f);
  await_resume _ _ := returns tt
}.

#[export] Instance yield_awaiter_awaiter : Awaiter yield_awaiter frame coroutine_handle unit := {
  await_ready _ f := (false, f);
  await_suspend _ _ f := (Some (continuation (promise f)), f);
  await_resume _ _ := returns tt
}.

Definition final_suspend (p : promise_type) : final_awaiter := final_awaiter_v.

Definition yield_value (v : T) (p : promise_type) : promise_type * yield_awaiter :=
  ({| continuation := continuation p; value := Some v; exception := exception p |},
   yield_awaiter_v).

(** [handle.done()]. *)
Definition done (f : frame) : bool := at_final f.

Definition set_continuation (c : coroutine_handle) (f : frame) : frame :=
  {| promise := {| continuation := c; value := value (promise f);
                   exception := exception (promise f) |};
     pc := pc f; at_final := at_final f |}.

(** The awaiter of [iterator::operator++]: never ready; [await_suspend]
    records the continuation and transfers to the generator; [await_resume]
    rethrows the stored exception. *)
Inductive increment_awaiter : Type := increment_awaiter_v.

#[export] Instance increment_awaiter_awaiter
    : Awaiter increment_awaiter frame coroutine_handle unit := {
  await_ready _ f := (false, f);
  await_suspend _ c f := (Some generator_coroutine, set_continuation c f);
  await_resume _ f := rethrow_or (exception (promise f)) tt
}.

(** The awaiter of [begin()]: ready when the coroutine is done; its
    [await_resume] rethrows the stored exception or returns the iterator,
    which holds the handle of the generator. *)
Inductive begin_awaiter : Type := begin_awaiter_v.

#[export] Instance begin_awaiter_awaiter : Awaiter begin_awaiter frame coroutine_handle unit := {
  await_ready _ f := (done f, f);
  await_suspend _ c f := (Some generator_coroutine, set_continuation c f);
  await_resume _ f := rethrow_or (exception (promise f)) tt
}.

(** [iterator::operator*] and [iterator::operator==(std::default_sentinel_t)]
    for an iterator that holds the handle of the frame [f]. *)
Definition operator_deref (f : frame) : option T := value (promise f).
Definition operator_eq_end (f : frame) : bool := done f.

(** The generator coroutine runs from its current point until it suspends:
    inside its body (control goes back to whoever resumed it), at a
    [co_yield] or at its final suspend point (control goes where the awaiter
    says). *)
Definition run (f : frame) : frame * option coroutine_handle :=
  let finish (p : promise_type) :=
    let f1 := {| promise := p; pc := co_return; at_final := true |} in
    match co_await (final_suspend p) generator_coroutine f1 with
    | (suspended next, f2) => (f2, next)
    | (not_suspended _, f2) => (f2, None)
    end in
  match pc f with
  | suspend rest => ({| promise := promise f; pc := rest; at_final := false |}, None)
  | co_yield v rest =>
      let '(p1, a) := yield_value v (promise f) in
      match co_await a generator_coroutine {| promise := p1; pc := rest; at_final := false |} with
      | (suspended next, f2) => (f2, next)
      | (not_suspended _, f2) => (f2, None)
      end
  | co_return => finish (return_void (promise f))
  | throw e =>
      match unhandled_exception e (promise f) with
      | returns p => finish p
      | throws _ => ({| promise := promise f; pc := co_return; at_final := true |}, None)
      end
  end.

(** Calling the generator function. *)
Definition create (b : body) : frame :=
  {| promise := {| continuation := noop_coroutine; value := None; exception := None |};
     pc := b; at_final := false |}.

(** The coroutine [c], suspended on an awaiter whose [await_resume] is
    [resume_value], while the generator coroutine runs on from [f] (entered
    by the symmetric transfer of [await_suspend], or resumed from outside
    after a suspension inside its body), in at most [n] pieces.  Once control
    is handed to [c] it evaluates [await_resume]; an exception ends the
    traversal; otherwise [c] goes on with the loop
    [while (it != end()) { seen.push_back( *it ); co_await ++it; }]. *)
Fixpoint traverse (n : nat) (c : nat) (resume_value : frame -> result unit) (f : frame)
    (seen : list (option T)) : option (list (option T) * result unit * frame) :=
  match n with
  | O => None
  | S n1 =>
      match run f with
      | (f1, None) => traverse n1 c resume_value f1 seen
      | (f1, Some (coroutine c1)) =>
          if negb (c1 =? c)%nat then None
          else match resume_value f1 with
               | throws e => Some (seen, throws e, f1)
               | returns _ =>
                   if operator_eq_end f1 then Some (seen, returns tt, f1)
                   else match co_await increment_awaiter_v (coroutine c) f1 with
                        | (suspended (Some generator_coroutine), f2) =>
                            traverse n1 c (await_resume increment_awaiter_v) f2
                              (seen ++ [operator_deref f1])
                        | _ => None
                        end
               end
      | (f1, Some _) => None
      end
  end.

(** [auto it = co_await g.begin();] followed by that loop, in the coroutine
    [c]. *)
Definition for_co_await (n : nat) (c : nat) (f : frame)
    : option (list (option T) * result unit * frame) :=
  match co_await begin_awaiter_v (coroutine c) f with
  | (not_suspended (throws e), f1) => Some ([], throws e, f1)
  | (not_suspended (returns _), f1) =>
      if operator_eq_end f1 then Some ([], returns tt, f1) else None
  | (suspended (Some generator_coroutine), f1) =>
      traverse n c (await_resume begin_awaiter_v) f1 []
  | (suspended _, _) => None
  end.

(** The values a body yields, how it ends, and in how many pieces it
    runs. *)
Fixpoint yielded (b : body) : list T :=
  match b with
  | co_yield v rest => v :: yielded rest
  | suspend rest => yielded rest
  | co_return | throw _ => []
  end.

Fixpoint ending (b : body) : result unit :=
  match b with
  | co_yield _ rest | suspend rest => ending rest
  | co_return => returns tt
  | throw e => throws e
  end.

Fixpoint pieces (b : body) : nat :=
  match b with
  | co_yield _ rest | suspend rest => S (pieces rest)
  | co_return | throw _ => 1
  end.

End async_generator.
Arguments body : clear implicits.
Arguments promise_type : clear implicits.
Arguments frame : clear implicits.
End AsyncGenerator.

(* ===================================================================== *)
(** * [detail::UniqueHandle] *)
(* ===================================================================== *)

Module UniqueHandle.

(** [std::coroutine_handle<Promise>]: the address of a coroutine frame;
    [None] is the null handle. *)
Abbreviation handle_type := (option nat).

(** The [UniqueHandle] objects that are alive, by address, each with its
    member [handle]; and the frames on which [destroy()] was called, in
    order. *)
Record memory : Type := {
  objects : gmap nat (option nat);
  destroyed : list nat
}.

(** [if (handle) handle.destroy();] *)
Definition destroy_if_set (h : handle_type) (m : memory) : memory :=
  match h with
  | Some fr => {| objects := objects m; destroyed := destroyed m ++ [fr] |}
  | None => m
  end.

Definition set_handle (this : nat) (h : handle_type) (m : memory) : memory :=
  {| objects := <[this := h]> (objects m); destroyed := destroyed m |}.

(** [UniqueHandle(handle_type handle)], constructing the object at [this];
    [None] when an object is alive there. *)
Definition construct (this : nat) (h : handle_type) (m : memory) : option memory :=
  match objects m !! this with
  | Some _ => None
  | None => Some (set_handle this h m)
  end.

(** [UniqueHandle(UniqueHandle &&other)]. *)
Definition move_construct (this other : nat) (m : memory) : option memory :=
  match objects m !! this with
  | Some _ => None
  | None => h ← objects m !! other; Some (set_handle other None (set_handle this h m))
  end.

(** [UniqueHandle &operator=(UniqueHandle &&other)]. *)
Definition move_assign (this other : nat) (m : memory) : option memory :=
  mine ← objects m !! this;
  theirs ← objects m !! other;
  if decide (this = other) then Some m
  else Some (set_handle other None (set_handle this theirs (destroy_if_set mine m))).

(** [~UniqueHandle()]. *)
Definition destructor (this : nat) (m : memory) : option memory :=
  mine ← objects m !! this;
  let m1 := destroy_if_set mine m in
  Some {| objects := delete this (objects m1); destroyed := destroyed m1 |}.

(** The calls a program makes on its [UniqueHandle] objects. *)
Inductive call : Type :=
| move_constructed (this other : nat)
| move_assigned (this other : nat)
| destructed (this : nat).

Definition step (c : call) (m : memory) : option memory :=
  match c with
  | move_constructed this other => move_construct this other m
  | move_assigned this other => move_assign this other m
  | destructed this => destructor this m
  end.

Fixpoint run (cs : list call) (m : memory) : option memory :=
  match cs with
  | [] => Some m
  | c :: cs1 => m1 ← step c m; run cs1 m1
  end.

(** The frame [fr] is held by a live object. *)
Definition owned (m : memory) (fr : nat) : Prop :=
  exists a, objects m !! a = Some (Some fr).

(** No frame is held by two objects, none was destroyed twice, and no
    destroyed frame is still held. *)
Record unique (m : memory) : Prop := {
  unique_owner : forall a b fr,
    objects m !! a = Some (Some fr) -> objects m !! b = Some (Some fr) -> a = b;
  unique_destroyed : NoDup (destroyed m);
  unique_alive : forall fr, fr ∈ destroyed m -> ~ owned m fr
}.

(** Between [m] and [m'] no frame appeared or was lost: the frames that are
    held or destroyed are the same ones. *)
Definition conserved (m m' : memory) : Prop :=
  forall fr, (owned m fr \/ fr ∈ destroyed m) <-> (owned m' fr \/ fr ∈ destroyed m').

End UniqueHandle.

(* ===================================================================== *)
(** * [utils::handle] *)
(* ===================================================================== *)

Module Utils.

(** The [utils::handle] objects that are alive, by address, each with its
    member [h]; and the descriptors given to [::close], in order. *)
Record descriptors : Type := {
  handles : gmap nat Z;
  closed : list Z
}.

Definition set_h (this : nat) (h : Z) (m : descriptors) : descriptors :=
  {| handles := <[this := h]> (handles m); closed := closed m |}.

(** [explicit handle(int h)], constructing the object at [this]; the default
    constructor is [construct this (-1)]. *)
Definition construct (this : nat) (h : Z) (m : descriptors) : option descriptors :=
  match handles m !! this with
  | Some _ => None
  | None => Some (set_h this h m)
  end.

(** [handle(handle &&o) : h(std::exchange(o.h, -1))]. *)
Definition move_construct (this o : nat) (m : descriptors) : option descriptors :=
  match handles m !! this with
  | Some _ => None
  | None => oh ← handles m !! o; Some (set_h this oh (set_h o (-1) m))
  end.

(** [std::swap(h, o.h)]. *)
Definition swap (this o : nat) (m : descriptors) : option descriptors :=
  mine ← handles m !! this;
  theirs ← handles m !! o;
  Some (set_h o mine (set_h this theirs m)).

(** [~handle()]: [if (h != -1) ::close(h);]. *)
Definition destructor (this : nat) (m : descriptors) : option descriptors :=
  mine ← handles m !! this;
  Some {| handles := delete this (handles m);
          closed := if mine =? -1 then closed m else closed m ++ [mine] |}.

(** [a = std::move(b)] through [handle &operator=(handle o)]: the parameter
    [o] is move-constructed from [b] at an address of its own, the members
    are swapped, and [o] is destroyed when the call ends. *)
Definition move_assign (this other : nat) (m : descriptors) : option descriptors :=
  let o := fresh (dom (handles m)) in
  m1 ← move_construct o other m;
  m2 ← swap this o m1;
  destructor o m2.

(** [explicit operator bool()] and [explicit operator int()]. *)
Definition operator_bool (this : nat) (m : descriptors) : option bool :=
  mine ← handles m !! this; Some (negb (mine =? -1)).

Definition operator_int (this : nat) (m : descriptors) : option Z := handles m !! this.

(** The calls a program makes on its [utils::handle] objects. *)
Inductive call : Type :=
| move_constructed (this o : nat)
| swapped (this o : nat)
| move_assigned (this other : nat)
| destructed (this : nat).

Definition step (c : call) (m : descriptors) : option descriptors :=
  match c with
  | move_constructed this o => move_construct this o m
  | swapped this o => swap this o m
  | move_assigned this other => move_assign this other m
  | destructed this => destructor this m
  end.

Fixpoint run (cs : list call) (m : descriptors) : option descriptors :=
  match cs with
  | [] => Some m
  | c :: cs1 => m1 ← step c m; run cs1 m1
  end.

(** The descriptor [h] is held by a live object. *)
Definition held (m : descriptors) (h : Z) : Prop :=
  exists a, handles m !! a = Some h.

(** No descriptor other than -1 is held by two objects, none was closed
    twice, -1 was never closed, and no closed descriptor is still held. *)
Record unique (m : descriptors) : Prop := {
  unique_owner : forall a b h,
    h <> -1 -> handles m !! a = Some h -> handles m !! b = Some h -> a = b;
  unique_closed : NoDup (closed m);
  unique_valid : -1 ∉ closed m;
  unique_open : forall h, h ∈ closed m -> ~ held m h
}.

(** Between [m] and [m'] no descriptor appeared or was lost. *)
Definition conserved (m m' : descriptors) : Prop :=
  forall h, h <> -1 -> (held m h \/ h ∈ closed m) <-> (held m' h \/ h ∈ closed m').

End Utils.

(* ===================================================================== *)
(** * [io_engine] *)
(* ===================================================================== *)

Module Reactor.

(** Constants of [<poll.h>] and [<cerrno>] (their Linux values), and the
    largest [steady_clock::time_point] (64-bit nanosecond count). *)
Definition POLLIN : Z := 1.
Definition POLLOUT : Z := 4.
Definition POLLERR : Z := 8.
Definition POLLHUP : Z := 16.
Definition POLLNVAL : Z := 32.
Definition EINTR : Z := 4.
Definition time_point_max : Z := 9223372036854775807.

(** The count of a [steady_clock::time_point] or of a duration is a signed
    64-bit number of nanoseconds; [to_rep x] is the count that an
    arithmetic result [x] is stored as (it wraps around when [x] is out of
    range, as the two's-complement addition of the targets does). *)
Definition to_rep (x : Z) : Z := (x + 2 ^ 63) mod 2 ^ 64 - 2 ^ 63.

(** [struct pollfd]. *)
Record pollfd : Type := {
  pfd_fd : Z;
  pfd_events : Z;
  pfd_revents : Z
}.

(** The three awaiter types of the engine, indexed by the type of their
    [await_resume]. *)
Inductive awaiter_kind : Type -> Type :=
| wait_until_awaiter : awaiter_kind unit
| poll_until_awaiter : awaiter_kind Z
| poll_once_awaiter : awaiter_kind Z.

(** The member functions of [io_engine] that build an awaiter. *)
Inductive awaitable : Type -> Type :=
| wait_until (timeout : Z) : awaitable unit
| wait_for (timeout_duration : Z) : awaitable unit
| poll_until (fd events timeout : Z) : awaitable Z
| poll_for (fd events timeout_duration : Z) : awaitable Z
| poll (fd events : Z) : awaitable Z
| poll_once (fd : Z) : awaitable Z.

(** What user code does with the engine between two suspensions: it awaits
    one of the engine's awaitables and goes on with the value, or the
    exception, of the [co_await] expression; it starts a fire-and-forget
    [task], which runs up to its first suspension before the creator goes on;
    it calls [pull()] or [pull_all()]; or it is done with the engine
    ([finish]: the coroutine ends, or suspends on something the engine does
    not know of).  A value of this type describes a coroutine up to the point
    where it stops using the engine: once resumed it reaches its next
    suspension or its end.  A coroutine that waits on the engine again each
    time it is resumed, without end, is not a value of this type; the
    properties of the destructor are therefore stated for the runs in which
    it returns, and its return is proved only when the resumed coroutines make
    no further use of the engine.  An exception that leaves a fire-and-forget
    [task] ends the process ([std::terminate()] in
    [task::promise_type::unhandled_exception]): the continuation [k] of an
    await handles the exception, and the runs described are those in which
    the process goes on. *)
Inductive code : Type :=
| finish
| co_await_engine {R : Type} (a : awaitable R) (k : result R -> code)
| spawn (t : code) (k : code)
| call_pull (k : code)
| call_pull_all (k : code).

(** [std::coroutine_handle<>] of a coroutine suspended on an operation of
    the engine, represented by what the coroutine does once resumed: it
    evaluates [await_resume()], which reads the members [exception] and
    [revents] of the operation, and runs on. *)
Definition coroutine_handle : Type := exception_ptr -> Z -> code.

(** [io_engine::operation]; [handle = None] is the null handle. *)
Record operation : Type := {
  handle : option coroutine_handle;
  fd : Z;
  events : Z;
  timeout : Z;
  revents : Z;
  exception : exception_ptr
}.

(** [operation{handle, fd, events, timeout}]: the last two members take
    their default member initialisers. *)
Definition make_operation (h : option coroutine_handle) (fd events timeout : Z) : operation :=
  {| handle := h; fd := fd; events := events; timeout := timeout;
     revents := 0; exception := None |}.

Definition set_handle (h : coroutine_handle) (op : operation) : operation :=
  {| handle := Some h; fd := fd op; events := events op; timeout := timeout op;
     revents := revents op; exception := exception op |}.

Definition set_revents (r : Z) (op : operation) : operation :=
  {| handle := handle op; fd := fd op; events := events op; timeout := timeout op;
     revents := r; exception := exception op |}.

Definition set_exception (e : exception_ptr) (op : operation) : operation :=
  {| handle := handle op; fd := fd op; events := events op; timeout := timeout op;
     revents := revents op; exception := e |}.

(** An awaiter object: [struct awaiter { io_engine &engine; operation op; }]. *)
Record awaiter (R : Type) : Type := {
  kind : awaiter_kind R;
  op : operation
}.
Arguments kind {R} a.
Arguments op {R} a.

(** What can be observed of the engine: [add_operation] was called for the
    operation at address [id]; [do_pull] was entered with the registry
    [registry]; the handle of the operation at [id] was resumed, the resumed
    coroutine finding [ex] and [rev] in the operation and [registry] in the
    engine. *)
Inductive event : Type :=
| ev_add (id : nat)
| ev_pull (registry : list nat)
| ev_resume (id : nat) (ex : exception_ptr) (rev : Z) (registry : list nat).

(** The engine and what surrounds it: the operation objects by address
    ([store]); the member [operations], a vector of addresses in registration
    order; [errno]; the number of calls made so far to the clock and to
    [::poll] ([tick]); and the events so far. *)
Record world : Type := {
  store : gmap nat operation;
  operations : list nat;
  errno : Z;
  tick : nat;
  trace : list event
}.

Definition set_store (s : gmap nat operation) (w : world) : world :=
  {| store := s; operations := operations w; errno := errno w; tick := tick w; trace := trace w |}.

Definition set_operations (l : list nat) (w : world) : world :=
  {| store := store w; operations := l; errno := errno w; tick := tick w; trace := trace w |}.

Definition set_os (t : nat) (e : Z) (w : world) : world :=
  {| store := store w; operations := operations w; errno := e; tick := t; trace := trace w |}.

Definition log (ev : event) (w : world) : world :=
  {| store := store w; operations := operations w; errno := errno w; tick := tick w;
     trace := trace w ++ [ev] |}.

(** What one call of [::poll] answers: its return value, [errno] after a
    failure, and the [revents] it wrote, by index in the array. *)
Record sys_result : Type := {
  sys_ret : Z;
  sys_errno : Z;
  sys_revents : nat -> Z
}.

(** The operating system: the [n]-th reading of [steady_clock::now()], and
    the answer of [::poll(fds, nfds, timeout)] when it is the [n]-th call. *)
Record environment : Type := {
  steady_clock : nat -> Z;
  sys_poll : nat -> list pollfd -> Z -> sys_result
}.

(** What a [poll_fn] given to [do_pull] leaves behind: its return value, the
    [revents] in the span, and the new [tick] and [errno]. *)
Record poll_outcome : Type := {
  po_ret : Z;
  po_revents : nat -> Z;
  po_tick : nat;
  po_errno : Z
}.

Definition poll_function : Type := list pollfd -> world -> option poll_outcome.

(** [utils::make_sys_error(msg)]. *)
Definition make_sys_error (msg : string) (w : world) : exn :=
  system_error (errno w) msg.

(** The exception of the destructor. *)
Definition destroyed : exn := runtime_error "io_engine destroyed".

Definition has_flag (mask flag : Z) : bool := negb (Z.land mask flag =? 0).

(** The lambda [to_remove_pred] of the branch [ret == -1]. *)
Definition to_remove_failed (now : Z) (o : operation) : bool :=
  negb (fd o =? -1) || (timeout o <=? now).

(** The lambda [to_remove_pred] of the other branch. *)
Definition to_remove_ready (now : Z) (o : operation) : bool :=
  (negb (fd o =? -1)
   && has_flag (revents o) (Z.lor (Z.lor (Z.lor POLLERR POLLHUP) POLLNVAL) (events o)))
  || (timeout o <=? now).

(** A predicate on operations applied through an address. *)
Definition holds_at (s : gmap nat operation) (p : operation -> bool) (id : nat) : bool :=
  match s !! id with
  | Some o => p o
  | None => false
  end.

(** The loop of the branch [ret == -1] over [to_resume]. *)
Definition fail_with (eptr : exn) (o : operation) : operation :=
  if negb (fd o =? -1) then set_exception (Some eptr) o else o.

(** The loop of the other branch over [to_resume]. *)
Definition classify (o : operation) : operation :=
  if negb (fd o =? -1) then
    if has_flag (revents o) POLLERR then set_exception (Some (pollerr_error (fd o))) o
    else if has_flag (revents o) POLLHUP then set_exception (Some (pollhup_error (fd o))) o
    else if has_flag (revents o) POLLNVAL then set_exception (Some (pollnval_error (fd o))) o
    else o
  else o.

(** Every operation whose address is in [ids] is replaced by its image
    under [f], in the order of [ids]. *)
Definition update_all (f : operation -> operation) (ids : list nat)
    (s : gmap nat operation) : gmap nat operation :=
  foldl (fun s id => alter f id s) s ids.

(** [operations[i]->revents = fds[i].revents] for [i] from [i0] on. *)
Fixpoint write_revents (rev : nat -> Z) (i0 : nat) (ids : list nat)
    (s : gmap nat operation) : gmap nat operation :=
  match ids with
  | [] => s
  | id :: ids1 => write_revents rev (S i0) ids1 (alter (set_revents (rev i0)) id s)
  end.

(** The [pollfd] array built at the start of [do_pull]; [None] when the
    registry holds a dangling address. *)
Definition build_fds (w : world) : option (list pollfd) :=
  mapM (fun id => o ← store w !! id;
                  Some {| pfd_fd := fd o; pfd_events := events o; pfd_revents := 0 |})
       (operations w).

(** [std::ranges::copy_if(operations, back_inserter(to_resume), pred);
    std::erase_if(operations, pred);] followed by the loop that stores the
    exceptions: the answer is [to_resume] and the engine as the resume loop
    finds it. *)
Definition select (p : operation -> bool) (f : operation -> operation) (w : world)
    : list nat * world :=
  let to_resume := filter (fun id => Is_true (holds_at (store w) p id)) (operations w) in
  let remaining := filter (fun id => ¬ Is_true (holds_at (store w) p id)) (operations w) in
  (to_resume, set_store (update_all f to_resume (store w)) (set_operations remaining w)).

Section engine.
Variable env : environment.

(** [std::chrono::steady_clock::now()]. *)
Definition steady_clock_now (w : world) : Z * world :=
  (steady_clock env (tick w), set_os (S (tick w)) (errno w) w).

(** [io_engine::add_operation]; the [assert(op->handle)] holds at its call
    sites, the [await_suspend] members, which store the handle first. *)
Definition add_operation (id : nat) (w : world) : world :=
  log (ev_add id) (set_operations (operations w ++ [id]) w).

(** The member functions that build the awaiters; [wait_for] and [poll_for]
    add the duration to the reading of the clock. *)
Definition make_awaiter {R : Type} (a : awaitable R) (w : world) : awaiter R * world :=
  match a in awaitable R0 return awaiter R0 * world with
  | wait_until t =>
      ({| kind := wait_until_awaiter; op := make_operation None (-1) 0 t |}, w)
  | wait_for d =>
      let '(now, w1) := steady_clock_now w in
      ({| kind := wait_until_awaiter;
          op := make_operation None (-1) 0 (to_rep (now + d)) |}, w1)
  | poll_until fd ev t =>
      ({| kind := poll_until_awaiter; op := make_operation None fd ev t |}, w)
  | poll_for fd ev d =>
      let '(now, w1) := steady_clock_now w in
      ({| kind := poll_until_awaiter;
          op := make_operation None fd ev (to_rep (now + d)) |}, w1)
  | poll fd ev =>
      ({| kind := poll_until_awaiter; op := make_operation None fd ev time_point_max |}, w)
  | poll_once fd =>
      ({| kind := poll_once_awaiter; op := make_operation None fd 0 0 |}, w)
  end.

(** [await_resume] of the three awaiters, on the members it reads. *)
Definition awaiter_resume {R : Type} (k : awaiter_kind R) (ex : exception_ptr) (rev : Z)
    : result R :=
  match k in awaiter_kind R0 return result R0 with
  | wait_until_awaiter => rethrow_or ex tt
  | poll_until_awaiter => rethrow_or ex rev
  | poll_once_awaiter => rethrow_or ex rev
  end.

(** [await_ready] of the three awaiters. *)
Definition awaiter_ready {R : Type} (a : awaiter R) (w : world) : bool * world :=
  match kind a with
  | poll_once_awaiter => (false, w)
  | _ => let '(now, w1) := steady_clock_now w in (timeout (op a) <=? now, w1)
  end.

(** [await_suspend] of the three awaiters: [op.handle = handle;
    engine.add_operation(&op);].  From here on the operation is reached
    through its address, which no other operation object has. *)
Definition awaiter_suspend {R : Type} (a : awaiter R) (h : coroutine_handle) (w : world)
    : option coroutine_handle * world :=
  let id := fresh (dom (store w)) in
  (None, add_operation id (set_store (<[id := set_handle h (op a)]> (store w)) w)).

#[export] Instance engine_awaiter {R : Type} : Awaiter (awaiter R) world coroutine_handle R := {
  await_ready := awaiter_ready;
  await_suspend := awaiter_suspend;
  await_resume a _ := awaiter_resume (kind a) (exception (op a)) (revents (op a))
}.

Section reentrant.
(** What a call of [pull()] and a call of [pull_all()] made by user code
    do; the knot is tied by [pull] and [pull_all] below. *)
Variable pump : world -> option world.
Variable pump_all : world -> option world.

(** User code runs until it suspends or ends. *)
Fixpoint exec (c : code) (w : world) : option world :=
  match c with
  | finish => Some w
  | co_await_engine a k =>
      let '(aw, w1) := make_awaiter a w in
      match co_await aw (fun ex rev => k (awaiter_resume (kind aw) ex rev)) w1 with
      | (not_suspended r, w2) => exec (k r) w2
      | (suspended _, w2) => Some w2
      end
  | spawn t k => w1 ← exec t w; exec k w1
  | call_pull k => w1 ← pump w; exec k w1
  | call_pull_all k => w1 ← pump_all w; exec k w1
  end.

(** [op->handle.resume()] for the operation at [id]. *)
Definition resume (id : nat) (w : world) : option world :=
  o ← store w !! id;
  h ← handle o;
  exec (h (exception o) (revents o))
       (log (ev_resume id (exception o) (revents o) (operations w)) w).

(** [for (auto *op : to_resume) op->handle.resume();] *)
Fixpoint resume_all (ids : list nat) (w : world) : option world :=
  match ids with
  | [] => Some w
  | id :: ids1 => w1 ← resume id w; resume_all ids1 w1
  end.

(** [do_pull] between the return of [poll_fn] and the resume loop:
    [revents] is copied back, the clock read, and the operations to resume
    moved from the registry to [to_resume] with their exceptions stored. *)
Definition after_poll (out : poll_outcome) (w : world) : list nat * world :=
  let w1 := set_os (po_tick out) (po_errno out) w in
  let w2 := set_store (write_revents (po_revents out) 0 (operations w1) (store w1)) w1 in
  let '(now, w3) := steady_clock_now w2 in
  if po_ret out =? -1
  then select (to_remove_failed now) (fail_with (make_sys_error "poll" w3)) w3
  else select (to_remove_ready now) classify w3.

(** [io_engine::do_pull]. *)
Definition do_pull (poll_fn : poll_function) (w : world) : option world :=
  fds ← build_fds w;
  out ← poll_fn fds w;
  let '(to_resume, w1) := after_poll out (log (ev_pull (operations w)) w) in
  resume_all to_resume w1.

(** The loop of [io_engine::~io_engine], at most [n] turns. *)
Fixpoint destroy_loop (n : nat) (w : world) : option world :=
  match last (operations w) with
  | None => Some w
  | Some id =>
      match n with
      | O => None
      | S n1 =>
          let w1 := set_operations (removelast (operations w)) w in
          let w2 := set_store (alter (set_exception (Some destroyed)) id (store w1)) w1 in
          w3 ← resume id w2;
          destroy_loop n1 w3
      end
  end.

End reentrant.

(** The conversion of a 64-bit count to the [int] parameter of [::poll]. *)
Definition to_int (x : Z) : Z := (x + 2 ^ 31) mod 2 ^ 32 - 2 ^ 31.

(** The [revents] that are in the array. *)
Definition current_revents (fds : list pollfd) : nat -> Z :=
  fun i => default 0 (pfd_revents <$> fds !! i).

Definition with_revents (rev : nat -> Z) (fds : list pollfd) : list pollfd :=
  imap (fun i p => {| pfd_fd := pfd_fd p; pfd_events := pfd_events p;
                      pfd_revents := rev i |}) fds.

(** The lambda given to [do_pull] by [pull]: [::poll] with a zero timeout,
    called again while it fails with [EINTR] (at most [n] calls). *)
Fixpoint nonblocking_poll (n : nat) (fds : list pollfd) (t : nat) (e : Z)
    : option poll_outcome :=
  match n with
  | O => None
  | S n1 =>
      let r := sys_poll env t fds 0 in
      if (sys_ret r =? -1) && (sys_errno r =? EINTR)
      then nonblocking_poll n1 (with_revents (sys_revents r) fds) (S t) (sys_errno r)
      else Some {| po_ret := sys_ret r; po_revents := sys_revents r; po_tick := S t;
                   po_errno := if sys_ret r =? -1 then sys_errno r else e |}
  end.

Definition pull_poll_fn (n : nat) : poll_function :=
  fun fds w => nonblocking_poll n fds (tick w) (errno w).

(** The deadline nearest in time among the registered operations, as the
    lambda of [pull_all] computes it. *)
Definition min_timeout (w : world) : Z :=
  foldl (fun m id => match store w !! id with
                     | Some o => if timeout o <? m then timeout o else m
                     | None => m
                     end)
        time_point_max (operations w).

(** The loop of the lambda given to [do_pull] by [pull_all], at most [n]
    turns: the time left until the nearest deadline is cast to milliseconds
    (a [time_point] counts nanoseconds; the subtraction is taken without
    overflow); a negative count ends the pass with 0, otherwise [::poll]
    blocks that long and the loop goes on after an [EINTR] or a return of
    0. *)
Fixpoint blocking_poll (n : nat) (nearest : Z) (fds : list pollfd) (t : nat) (e : Z)
    : option poll_outcome :=
  match n with
  | O => None
  | S n1 =>
      let now := steady_clock env t in
      let timeout := Z.quot (nearest - now) 1000000 in
      if timeout <? 0
      then Some {| po_ret := 0; po_revents := current_revents fds; po_tick := S t;
                   po_errno := e |}
      else
        let r := sys_poll env (S t) fds (to_int timeout) in
        if sys_ret r =? -1
        then if sys_errno r =? EINTR
             then blocking_poll n1 nearest (with_revents (sys_revents r) fds) (S (S t))
                    (sys_errno r)
             else Some {| po_ret := sys_ret r; po_revents := sys_revents r;
                          po_tick := S (S t); po_errno := sys_errno r |}
        else if 0 <? sys_ret r
             then Some {| po_ret := sys_ret r; po_revents := sys_revents r;
                          po_tick := S (S t); po_errno := e |}
             else blocking_poll n1 nearest (with_revents (sys_revents r) fds) (S (S t)) e
  end.

Definition pull_all_poll_fn (n : nat) : poll_function :=
  fun fds w => blocking_poll n (min_timeout w) fds (tick w) (errno w).

(** [io_engine::pull] and [io_engine::pull_all]; [n] bounds the depth of
    the calls of [pull()] and [pull_all()] made from resumed coroutines, the
    number of turns of the loops of the two [poll_fn], and the number of
    passes of [pull_all]. *)
Fixpoint pull (n : nat) (w : world) {struct n} : option world :=
  match n with
  | O => None
  | S n1 => do_pull (pull n1) (pull_all n1) (pull_poll_fn (S n1)) w
  end
with pull_all (n : nat) (w : world) {struct n} : option world :=
  match operations w with
  | [] => Some w
  | _ :: _ =>
      match n with
      | O => None
      | S n1 =>
          w1 ← do_pull (pull n1) (pull_all n1) (pull_all_poll_fn (S n1)) w;
          pull_all n1 w1
      end
  end.

(** [io_engine::~io_engine]. *)
Definition destroy (n : nat) (w : world) : option world :=
  destroy_loop (pull n) (pull_all n) n w.

End engine.

(** An engine that was just constructed. *)
Definition new_engine : world :=
  {| store := ∅; operations := []; errno := 0; tick := 0%nat; trace := [] |}.

(** ** Notions used to state the properties of the engine *)

(** An operation as [await_suspend] registers it: the handle is set and no
    exception is stored. *)
Definition registrable (o : operation) : bool :=
  match handle o, exception o with
  | Some _, None => true
  | _, _ => false
  end.

(** The invariant of the registry: no address is registered twice, and
    every registered address holds an operation as registered. *)
Record wf (w : world) : Prop := {
  wf_nodup : NoDup (operations w);
  wf_registered : forall id, id ∈ operations w ->
    exists o, store w !! id = Some o /\ registrable o = true
}.

Definition wf_check (w : world) : bool :=
  bool_decide (NoDup (operations w)) && forallb (holds_at (store w) registrable) (operations w).

(** An operation object that exists and is not in the registry: it was
    never registered (its awaiter was ready at once) or it has been removed. *)
Definition retired (w : world) (id : nat) : Prop :=
  is_Some (store w !! id) /\ id ∉ operations w.

(** The events logged between [w] and a later [w']. *)
Definition new_events (w w' : world) : list event :=
  drop (length (trace w)) (trace w').

(** The resumptions of the operations [ids] among [evs], in order, each with
    what the resumed coroutine found in the operation. *)
Definition resumption (ids : list nat) (ev : event) : option (nat * exception_ptr * Z) :=
  match ev with
  | ev_resume id ex rev _ => if bool_decide (id ∈ ids) then Some (id, ex, rev) else None
  | _ => None
  end.

Definition resumptions (ids : list nat) (evs : list event) : list (nat * exception_ptr * Z) :=
  omap (resumption ids) evs.

Definition resumed_id (ev : event) : option nat :=
  match ev with
  | ev_resume id _ _ _ => Some id
  | _ => None
  end.

Definition resumed_ids (evs : list event) : list nat := omap resumed_id evs.

(** The registry a logged event saw. *)
Definition registry_of (ev : event) : list nat :=
  match ev with
  | ev_add _ => []
  | ev_pull reg => reg
  | ev_resume _ _ _ reg => reg
  end.

(** Every address an event mentions. *)
Definition ids_of (ev : event) : list nat :=
  match ev with
  | ev_add id => [id]
  | ev_pull reg => reg
  | ev_resume id _ _ reg => id :: reg
  end.

Definition is_add (ev : event) : bool :=
  match ev with
  | ev_add _ => true
  | _ => false
  end.

(** User code that never pumps the engine: it calls neither [pull()] nor
    [pull_all()]. *)
Fixpoint pull_free (c : code) : Prop :=
  match c with
  | finish => True
  | co_await_engine a k => forall r, pull_free (k r)
  | spawn t k => pull_free t /\ pull_free k
  | call_pull _ => False
  | call_pull_all _ => False
  end.

(** No coroutine suspended on the engine pumps the engine once resumed. *)
Definition pull_free_world (w : world) : Prop :=
  forall id o h ex rev, id ∈ operations w -> store w !! id = Some o ->
    handle o = Some h -> pull_free (h ex rev).

(** What [poll(2)] promises about the [revents] it reports for the [i]-th
    registered operation: none for a negative descriptor, and otherwise only
    bits that were asked for or one of [POLLERR], [POLLHUP], [POLLNVAL]. *)
Definition poll_contract (w : world) (out : poll_outcome) : Prop :=
  forall i id o, operations w !! i = Some id -> store w !! id = Some o ->
    (fd o < 0 -> po_revents out i = 0)
    /\ Z.land (po_revents out i)
             (Z.lor (Z.lor (Z.lor POLLERR POLLHUP) POLLNVAL) (events o)) = po_revents out i.

(** The deadline an awaitable asks for ([poll_once] has none that its
    awaiter looks at), when the awaiter is built in [w]: for [wait_for] and
    [poll_for] the sum that [make_awaiter] stores. *)
Definition deadline (env : environment) {R : Type} (a : awaitable R) (w : world) : option Z :=
  match a with
  | wait_until t => Some t
  | wait_for d => Some (to_rep (steady_clock env (tick w) + d))
  | poll_until _ _ t => Some t
  | poll_for _ _ d => Some (to_rep (steady_clock env (tick w) + d))
  | poll _ _ => Some time_point_max
  | poll_once _ => None
  end.

(** The clock as [await_ready] reads it when [a] is awaited in [w]. *)
Definition awaiting_time (env : environment) {R : Type} (a : awaitable R) (w : world) : Z :=
  steady_clock env (tick (snd (make_awaiter env a w))).

(** The [i]-th registered operation as the predicates of [do_pull] see it:
    with the [revents] that [poll_fn] left at index [i]. *)
Definition seen (out : poll_outcome) (i : nat) (o : operation) : operation :=
  set_revents (po_revents out i) o.

(** The value of [now] in a pass of [do_pull] whose [poll_fn] answered
    [out]. *)
Definition pass_now (env : environment) (out : poll_outcome) : Z :=
  steady_clock env (po_tick out).

(** The [to_remove_pred] of that pass, and what its loop over [to_resume]
    does to an operation. *)
Definition pass_pred (env : environment) (out : poll_outcome) : operation -> bool :=
  if po_ret out =? -1
  then to_remove_failed (pass_now env out)
  else to_remove_ready (pass_now env out).

Definition pass_fix (out : poll_outcome) : operation -> operation :=
  if po_ret out =? -1 then fail_with (system_error (po_errno out) "poll") else classify.

(** What a coroutine resumed for the operation at [id] finds in it. *)
Definition found (s : gmap nat operation) (id : nat) : option (nat * exception_ptr * Z) :=
  o ← s !! id; Some (id, exception o, revents o).

(** [w'] is reached from [w] by running the engine and user code, logging
    [evs]: operation objects that were out of the registry stay out of it and
    are not written to; the events mention none of them; no operation is
    resumed twice; and every operation resumed is out of the registry at the
    end. *)
Record advance (evs : list event) (w w' : world) : Prop := {
  adv_trace : trace w' = trace w ++ evs;
  adv_retired : forall id, retired w id -> retired w' id /\ store w' !! id = store w !! id;
  adv_ids : forall ev x, ev ∈ evs -> x ∈ ids_of ev -> ~ retired w x;
  adv_nodup : NoDup (resumed_ids evs);
  adv_resumed : forall id, id ∈ resumed_ids evs -> retired w' id
}.

(** The condition under which a pass of [do_pull] whose [poll_fn] did not
    fail resolves the [i]-th registered operation: its deadline has passed,
    or it has a descriptor and its [revents] meet its [events] or carry one of
    [POLLERR], [POLLHUP], [POLLNVAL]. *)
Definition ready_or_expired (env : environment) (out : poll_outcome) (i : nat) (o : operation)
    : Prop :=
  (fd o <> -1
   /\ (Z.land (po_revents out i) POLLERR <> 0
       \/ Z.land (po_revents out i) POLLHUP <> 0
       \/ Z.land (po_revents out i) POLLNVAL <> 0
       \/ Z.land (po_revents out i) (events o) <> 0))
  \/ timeout o <= pass_now env out.

(** The engine when one turn of the destructor's loop, taking the operation
    at [id] from the back of the registry [l ++ [id]], resumes it. *)
Definition turn_world (l : list nat) (id : nat) (w : world) : world :=
  set_store (alter (set_exception (Some destroyed)) id (store w)) (set_operations l w).

(** Worlds with the same operation objects and the same registry. *)
Definition same_engine (w w' : world) : Prop :=
  store w' = store w /\ operations w' = operations w.

(** Between [w] and a later [w'] no operation left the registry without
    being resumed. *)
Definition accounted (w w' : world) : Prop :=
  forall id, id ∈ operations w -> id ∈ operations w' \/ id ∈ resumed_ids (new_events w w').

(** The exception pointers a pass of [do_pull] leaves in the operations it
    resolves: null (the operation is ready, or its deadline has passed), the
    [std::system_error] of a failed [::poll], or one of the three
    [poll_error]. *)
Definition pass_outcome (ex : exception_ptr) : bool :=
  match ex with
  | None => true
  | Some (system_error _ what) => String.eqb what "poll"
  | Some (pollerr_error _) | Some (pollhup_error _) | Some (pollnval_error _) => true
  | Some _ => false
  end.

(** A resumption logged in [evs] that is the work of a pass of [do_pull]:
    the resumed coroutine found an outcome of a pass, and [evs] holds the
    start of a pass that found the operation registered. *)
Definition by_pass (evs : list event) (id : nat) (ex : exception_ptr) : Prop :=
  pass_outcome ex = true /\ exists reg, ev_pull reg ∈ evs /\ id ∈ reg.

(** Every resumption logged between [w] and a later [w'] is the work of a
    pass. *)
Definition passes (w w' : world) : Prop :=
  forall id ex rev reg, ev_resume id ex rev reg ∈ new_events w w' ->
    by_pass (new_events w w') id ex.

(** User code that makes no further use of the engine. *)
Fixpoint engine_free (c : code) : Prop :=
  match c with
  | finish => True
  | spawn t k => engine_free t /\ engine_free k
  | _ => False
  end.

(** Every coroutine suspended on the engine, when it is resumed with the
    exception of the destructor, handles it and makes no further use of the
    engine. *)
Definition engine_free_world (w : world) : Prop :=
  forall id o h rev, id ∈ operations w -> store w !! id = Some o ->
    handle o = Some h -> engine_free (h (Some destroyed) rev).

(** Arrays of [pollfd] that differ in [revents] only. *)
Definition same_request (fds fds' : list pollfd) : Prop :=
  pfd_fd <$> fds' = pfd_fd <$> fds /\ pfd_events <$> fds' = pfd_events <$> fds.

(** The descriptor and the interest mask of the operation an awaitable
    registers. *)
Definition registers {R : Type} (a : awaitable R) : Z * Z :=
  match a with
  | wait_until _ | wait_for _ => (-1, 0)
  | poll_until fd ev _ | poll_for fd ev _ | poll fd ev => (fd, ev)
  | poll_once fd => (fd, 0)
  end.

End Reactor.

(* ===================================================================== *)
(** * Two engines with pending operations, used as examples *)
(* ===================================================================== *)

Module Scenario.
Import Reactor.

(** The clock reads 10 while the operations are registered and 100 from
    then on; [::poll] always answers [r]. *)
Definition scenario_clock (n : nat) : Z := if (n <? 4)%nat then 10 else 100.

Definition scenario_env (r : sys_result) : environment :=
  {| steady_clock := scenario_clock; sys_poll := fun _ _ _ => r |}.

Definition scenario_code : code :=
  spawn (co_await_engine (poll_until 3 POLLIN 1000) (fun _ => finish))
    (spawn (co_await_engine (poll_until 4 POLLOUT 1000) (fun _ => finish))
       (spawn (co_await_engine (wait_until 50)
                 (fun _ => call_pull (co_await_engine (wait_until 500) (fun _ => finish))))
          (co_await_engine (wait_until 150) (fun _ => finish)))).

Definition scenario (r : sys_result) : world :=
  default new_engine
    (exec (scenario_env r) (fun _ => None) (fun _ => None) scenario_code new_engine).

Definition poll_failed : sys_result :=
  {| sys_ret := -1; sys_errno := 12; sys_revents := fun _ => 0 |}.

Definition poll_flags : sys_result :=
  {| sys_ret := 2; sys_errno := 0;
     sys_revents := fun i => match i with
                             | O => Z.lor POLLIN (Z.lor POLLERR POLLHUP)
                             | S O => Z.lor POLLHUP POLLNVAL
                             | _ => 0
                             end |}.

Definition poll_writable : sys_result :=
  {| sys_ret := 1; sys_errno := 0;
     sys_revents := fun i => match i with S O => POLLOUT | _ => 0 end |}.

Definition poll_nothing : sys_result :=
  {| sys_ret := 0; sys_errno := 0; sys_revents := fun _ => 0 |}.

Definition scenario_out (r : sys_result) : poll_outcome :=
  {| po_ret := sys_ret r; po_revents := sys_revents r; po_tick := 5;
     po_errno := if sys_ret r =? -1 then sys_errno r else 0 |}.

Definition scenario_fds : list pollfd :=
  [ {| pfd_fd := 3; pfd_events := POLLIN; pfd_revents := 0 |};
    {| pfd_fd := 4; pfd_events := POLLOUT; pfd_revents := 0 |};
    {| pfd_fd := -1; pfd_events := 0; pfd_revents := 0 |};
    {| pfd_fd := -1; pfd_events := 0; pfd_revents := 0 |} ].

(** Two descriptor waits and a timer; the coroutine of the second wait
    catches what the wait throws and sleeps. *)
Definition teardown_code : code :=
  spawn (co_await_engine (poll_until 3 POLLIN 1000) (fun _ => finish))
    (spawn (co_await_engine (poll_until 4 POLLOUT 1000)
              (fun _ => co_await_engine (wait_for 200) (fun _ => finish)))
       (co_await_engine (wait_until 150) (fun _ => finish))).

Definition teardown_world : world :=
  default new_engine
    (exec (scenario_env poll_nothing) (fun _ => None) (fun _ => None) teardown_code
       new_engine).

(** An engine with a timer and a descriptor wait whose coroutine, once
    resumed, calls [pull()]; the clock reads 10 while they are registered
    and 100 from then on, past the deadline of the timer. *)
Definition pumping_env : environment :=
  {| steady_clock := fun n => if (n <? 2)%nat then 10 else 100;
     sys_poll := fun _ _ _ => poll_nothing |}.

Definition pumping_code : code :=
  spawn (co_await_engine (wait_until 50) (fun _ => finish))
    (co_await_engine (poll_until 3 POLLIN 1000) (fun _ => call_pull finish)).

Definition pumping_world : world :=
  default new_engine
    (exec pumping_env (fun _ => None) (fun _ => None) pumping_code new_engine).

(** The same engine with [pull_all()] in the place of [pull()] and a clock
    that reads 0 while the operations are registered and 5 ms from then on. *)
Definition pumping_all_code : code :=
  spawn (co_await_engine (wait_until 2000000) (fun _ => finish))
    (co_await_engine (poll_until 3 POLLIN 9000000) (fun _ => call_pull_all finish)).

Definition pumping_all_env : environment :=
  {| steady_clock := fun n => if (n <? 2)%nat then 0 else 5000000;
     sys_poll := fun _ _ _ => poll_nothing |}.

Definition pumping_all_world : world :=
  default new_engine
    (exec pumping_all_env (fun _ => None) (fun _ => None) pumping_all_code new_engine).

(** A coroutine that waits on a timer [k] times in a row, whatever each wait
    ends with, and the engine on which it has started its first wait. *)
Fixpoint rewaiting (k : nat) : code :=
  match k with
  | O => finish
  | S k1 => co_await_engine (wait_until 1000) (fun _ => rewaiting k1)
  end.

Definition rewaiting_world (k : nat) : world :=
  default new_engine
    (exec (scenario_env poll_nothing) (fun _ => None) (fun _ => None) (rewaiting (S k))
       new_engine).

(** The array [do_pull] builds for [teardown_world]. *)
Definition teardown_fds : list pollfd :=
  [ {| pfd_fd := 3; pfd_events := POLLIN; pfd_revents := 0 |};
    {| pfd_fd := 4; pfd_events := POLLOUT; pfd_revents := 0 |};
    {| pfd_fd := -1; pfd_events := 0; pfd_revents := 0 |} ].

(** A timer due after 2 ms and a wait on descriptor 3 with a deadline at
    9 ms; the clock reads 0 while they are registered and 5 ms from then on,
    and [::poll] reports the descriptor readable. *)
Definition draining_env : environment :=
  {| steady_clock := fun n => if (n <? 2)%nat then 0 else 5000000;
     sys_poll := fun _ _ _ => {| sys_ret := 1; sys_errno := 0; sys_revents := fun _ => POLLIN |} |}.

Definition draining_code : code :=
  spawn (co_await_engine (wait_until 2000000) (fun _ => finish))
    (co_await_engine (poll_until 3 POLLIN 9000000) (fun _ => finish)).

Definition draining_world : world :=
  default new_engine
    (exec draining_env (fun _ => None) (fun _ => None) draining_code new_engine).

(** The same clock one reading later: it reads 0 up to its third reading
    and 5 ms from then on, and [::poll] finds nothing. *)
Definition waiting_env : environment :=
  {| steady_clock := fun n => if (n <? 3)%nat then 0 else 5000000;
     sys_poll := fun _ _ _ => poll_nothing |}.

Definition draining_fds : list pollfd :=
  [ {| pfd_fd := -1; pfd_events := 0; pfd_revents := 0 |};
    {| pfd_fd := 3; pfd_events := POLLIN; pfd_revents := 0 |} ].

Definition draining_out : poll_outcome :=
  {| po_ret := 0; po_revents := current_revents draining_fds; po_tick := 3; po_errno := 0 |}.

(** [::poll] is interrupted by a signal on its first call and fails with
    [ENOMEM] on the next. *)
Definition poll_interrupted : sys_result :=
  {| sys_ret := -1; sys_errno := EINTR; sys_revents := fun _ => 0 |}.

Definition interrupted_env : environment :=
  {| steady_clock := scenario_clock;
     sys_poll := fun t _ _ => if (t <? 5)%nat then poll_interrupted else poll_failed |}.

(** One coroutine that awaits [poll_once(5)], and a [::poll] that reports a
    hangup. *)
Definition poll_hangup : sys_result :=
  {| sys_ret := 1; sys_errno := 0; sys_revents := fun _ => POLLHUP |}.

Definition once_code : code := co_await_engine (poll_once 5) (fun _ => finish).

Definition once_world : world :=
  default new_engine
    (exec (scenario_env poll_hangup) (fun _ => None) (fun _ => None) once_code new_engine).

Definition once_fds : list pollfd := [ {| pfd_fd := 5; pfd_events := 0; pfd_revents := 0 |} ].

Definition once_out : poll_outcome :=
  {| po_ret := 1; po_revents := fun _ => POLLHUP; po_tick := 1; po_errno := 0 |}.

(** Two [UniqueHandle] objects that hold the frames 10 and 11, and two
    [utils::handle] objects that hold the descriptors 7 and 9. *)
Definition two_frames : UniqueHandle.memory :=
  {| UniqueHandle.objects := {[ 0%nat := Some 10%nat; 1%nat := Some 11%nat ]};
     UniqueHandle.destroyed := [] |}.

Definition two_descriptors : Utils.descriptors :=
  {| Utils.handles := {[ 0%nat := 7; 1%nat := 9 ]}; Utils.closed := [] |}.

End Scenario.

(* ===================================================================== *)
(** * Properties of [generator<T>] *)
(* ===================================================================== *)

Section generator_facts.
Import Generator.
Context {T : Type}.

Lemma generator_suspends_always : suspends suspend_always = true.
Proof. reflexivity. Qed.

(** No exception ever leaves [run]: whatever the body does, the [resume()]
    call that runs it returns normally. *)
Lemma generator_run_returns (b : body T) (p : promise_type T) :
  snd (run b p) = returns tt.
Proof.
  revert p. induction b as [v rest IH| |e]; intros p; simpl; try reflexivity.
Qed.

(** No member of the promise or of the iterator reads [exception] back:
    the handle reports a finished coroutine, and the exception stays in the
    promise. *)
Lemma generator_run_throw (e : exn) (p : promise_type T) :
  run (throw e) p =
  ({| promise := {| value := value p; exception := Some e |};
      pc := co_return; at_final := true |}, returns tt).
Proof. reflexivity. Qed.

(** C1 (the code at the advance that reaches the [throw]): for a coroutine
    suspended right before a statement that throws [e], both [begin()] and
    [operator++] return normally; the exception is stored in the promise, the
    coroutine is done and the iterator compares equal to the end sentinel.
    The exception is not raised to the code that traverses the generator. *)
Theorem generator_advance_swallows_exception (p : promise_type T) (e : exn) :
  let f := {| promise := p; pc := throw e; at_final := false |} in
  let f1 := {| promise := {| value := value p; exception := Some e |};
               pc := co_return; at_final := true |} in
  operator_inc (Some f) = Some (Some f1, returns tt)
  /\ begin (Some f) = Some (Some f1, returns tt)
  /\ operator_eq_end (Some f1) = true.
Proof. repeat split. Qed.

End generator_facts.

(** A generator that yields 1 and then throws: the range-for loop sees 1 and
    ends normally. *)
Example generator_range_for_loses_exception :
  Generator.range_for 3
    (Generator.create (Generator.co_yield 1 (Generator.throw (user_exception 0))))
  = Some ([Some 1], returns tt).
Proof. reflexivity. Qed.

(* ===================================================================== *)
(** * Properties of [lazy_task<T>] and [eager_task<T>] *)
(* ===================================================================== *)

Section task_facts.
Import Task.
Context {T : Type} `{!Movable T}.

(** A task whose continuation is the coroutine [c] and which is resumed
    after each of its inner suspensions runs its body in
    [S (suspensions b)] pieces and then hands the result to [c], once. *)
Lemma task_runs_to_completion (b : body T) (p : promise T) (c : nat) (l : list (event T)) :
  continuation p = coroutine c ->
  exists w,
    resume_n (suspensions b)
      (enter {| task_frame := {| the_promise := p; pc := b; at_final := false |};
                log := l |}) = Some w
    /\ log w = l ++ repeat body_ran (S (suspensions b)) ++ [await_resumed c (final_result p b)]
    /\ done (task_frame w) = true.
Proof.
  revert p l. induction b as [v|e|rest IH]; intros p l Hc.
  - eexists. split; [reflexivity|]. unfold enter, final_result. simpl. rewrite Hc.
    unfold transfer, task_await_resume. simpl.
    destruct (exception p); simpl; rewrite <- app_assoc; split; reflexivity.
  - eexists. split; [reflexivity|]. unfold enter, final_result. simpl. rewrite Hc.
    simpl. rewrite <- app_assoc. split; reflexivity.
  - destruct (IH p (l ++ [body_ran]) Hc) as (w & Hw & Hlog & Hdone).
    exists w. split; [|split]; [| |exact Hdone].
    + simpl suspensions. cbn [resume_n]. unfold enter at 1. simpl.
      unfold resume. simpl. exact Hw.
    + rewrite Hlog. rewrite <- app_assoc. simpl. reflexivity.
Qed.

(** C7: a lazy task whose body ends by throwing [e].  Creating it, and
    destroying it without awaiting it, runs no part of the body and gives the
    exception to no one: the log stays empty and the promise holds no
    exception.  When the coroutine [c] awaits it (the task being resumed
    after each inner suspension of its body), [c] evaluates [await_resume()]
    exactly once, and that evaluation throws [e]. *)
Theorem lazy_task_failure_raised_once_when_awaited (b : body T) (e : exn) (c : nat) :
  ending b = throws e ->
  log (lazy_task b) = []
  /\ destroy (lazy_task b) = []
  /\ exception (the_promise (task_frame (lazy_task b))) = None
  /\ pc (task_frame (lazy_task b)) = b
  /\ exists w,
       resume_n (suspensions b) (co_await_lazy c (lazy_task b)) = Some w
       /\ filter (fun ev => Is_true (is_await_resumed ev)) (log w) = [await_resumed c (throws e)]
       /\ done (task_frame w) = true.
Proof.
  intros He. repeat split.
  pose (p := {| continuation := coroutine c; value := @None T; exception := None |}).
  destruct (task_runs_to_completion b p c [] eq_refl) as (w & Hw & Hlog & Hdone).
  exists w. split; [exact Hw|]. split; [|exact Hdone].
  assert (Hrep : forall n, filter (fun ev : event T => Is_true (is_await_resumed ev))
                             (repeat body_ran n) = []).
  { induction n as [|n IHn]; [reflexivity|].
    cbn [repeat]. rewrite filter_cons_False; [exact IHn|]. simpl. tauto. }
  rewrite Hlog. unfold final_result. rewrite He.
  rewrite app_nil_l, filter_app, Hrep, app_nil_l.
  rewrite filter_cons_True by exact I. reflexivity.
Qed.

(** Awaiting a finished lazy task again evaluates [await_resume()] again
    (without running the body): each await raises the stored exception
    once. *)
Lemma lazy_task_second_await (e : exn) (c d : nat) :
  log (co_await_lazy d (co_await_lazy c (lazy_task (@throw T e))))
  = [body_ran; await_resumed c (throws e); await_resumed d (throws e)].
Proof. reflexivity. Qed.

(** C8: creating an eager task runs its body once, up to the first inner
    suspension or to the end, before the creator goes on.  Awaiting an eager
    task, in whatever state [w] it is, runs no part of the body and leaves its
    position unchanged: when the task is already finished the awaiting
    coroutine is not suspended and [await_resume] answers at once, by
    rethrowing the stored exception or by returning the stored value, which
    it moves out of the promise; otherwise the only effect is that the
    continuation is recorded.  A task that finished during its creation
    gives the value it computed to the first await. *)
Theorem eager_task_starts_at_creation_only (b : body T) (c : nat) (w : world T) :
  eager_task b = {| task_frame := after_first_run b; log := [body_ran] |}
  /\ pc (task_frame (co_await_eager c w)) = pc (task_frame w)
  /\ at_final (task_frame (co_await_eager c w)) = at_final (task_frame w)
  /\ filter (fun ev => Is_true (is_body_ran ev)) (log (co_await_eager c w))
     = filter (fun ev => Is_true (is_body_ran ev)) (log w)
  /\ co_await_eager c w =
     (if done (task_frame w)
      then match exception (the_promise (task_frame w)) with
           | Some e =>
               {| task_frame := task_frame w;
                  log := log w ++ [await_resumed c (throws e)] |}
           | None =>
               {| task_frame := moved_out (task_frame w);
                  log := log w
                         ++ [await_resumed c (returns (value (the_promise (task_frame w))))] |}
           end
      else {| task_frame := set_continuation (coroutine c) (task_frame w); log := log w |})
  /\ (forall v, co_await_eager c (eager_task (co_return v))
                = {| task_frame := moved_out (after_first_run (co_return v));
                     log := [body_ran; await_resumed c (returns (Some v))] |}).
Proof.
  split; [destruct b; reflexivity|].
  assert (Hrun : forall l (ev : event T), is_body_ran ev = false ->
            filter (fun ev => Is_true (is_body_ran ev)) (l ++ [ev])
            = filter (fun ev => Is_true (is_body_ran ev)) l).
  { intros l ev Hev. rewrite filter_app, filter_cons_False, filter_nil, app_nil_r; [reflexivity|].
    rewrite Hev. simpl. tauto. }
  unfold co_await_eager, co_await_task, co_await. simpl.
  destruct (done (task_frame w)) eqn:Hd; [|repeat split].
  unfold task_await_resume.
  destruct (exception (the_promise (task_frame w))) as [e|];
    cbn [fst snd task_frame log pc at_final moved_out];
    repeat split; apply Hrun; reflexivity.
Qed.

(** An eager task that finished during its creation: the await returns the
    value already computed. *)
Lemma eager_task_finished_before_await (v : T) (c : nat) :
  log (co_await_eager c (eager_task (co_return v)))
  = [body_ran; await_resumed c (returns (Some v))].
Proof. reflexivity. Qed.

(** An eager task awaited while suspended inside its body: its later
    completion resumes the recorded continuation with the value. *)
Lemma eager_task_finished_after_await (v : T) (c : nat) :
  (w ← resume (co_await_eager c (eager_task (suspend (co_return v)))); Some (log w))
  = Some [body_ran; body_ran; await_resumed c (returns (Some v))].
Proof. reflexivity. Qed.

End task_facts.

(** [T = std::vector<int>]: the first await of a finished task gets the
    value, and a second await gets what the move has left in the promise. *)
Example eager_task_value_is_moved_out :
  Task.log (Task.co_await_eager 2
              (Task.co_await_eager 1 (Task.eager_task (Task.co_return [1; 2; 3]))))
  = [Task.body_ran; Task.await_resumed 1 (returns (Some [1; 2; 3]));
     Task.await_resumed 2 (returns (Some []))].
Proof. reflexivity. Qed.

Lemma lazy_task_failure_raised_once_when_awaited_witness :
  let b := Task.suspend (@Task.throw nat (user_exception 7)) in
  Task.ending b = throws (user_exception 7)
  /\ Task.log (Task.lazy_task b) = []
  /\ exists w,
       Task.resume_n 1 (Task.co_await_lazy 3 (Task.lazy_task b)) = Some w
       /\ filter (fun ev => Is_true (Task.is_await_resumed ev)) (Task.log w)
          = [Task.await_resumed 3 (throws (user_exception 7))]
       /\ Task.done (Task.task_frame w) = true.
Proof.
  intros b. split; [reflexivity|].
  destruct (lazy_task_failure_raised_once_when_awaited b (user_exception 7) 3 eq_refl)
    as (H1 & _ & _ & _ & H2).
  split; [exact H1|exact H2].
Defined.

(* ===================================================================== *)
(** * Properties of [io_engine] *)
(* ===================================================================== *)

Import Reactor.

Section reactor_store.

Lemma update_all_notin (f : operation -> operation) (ids : list nat) (s : gmap nat operation) (id : nat) :
  id ∉ ids -> update_all f ids s !! id = s !! id.
Proof.
  unfold update_all. revert s. induction ids as [|x ids IH]; intros s Hn; [reflexivity|].
  apply not_elem_of_cons in Hn as [Hne Hn]. simpl. rewrite IH by exact Hn.
  apply lookup_alter_ne. congruence.
Qed.

Lemma update_all_in (f : operation -> operation) (ids : list nat) (s : gmap nat operation) (id : nat) :
  NoDup ids -> id ∈ ids -> update_all f ids s !! id = f <$> s !! id.
Proof.
  unfold update_all. revert s. induction ids as [|x ids IH]; intros s Hnd Hin.
  - inversion Hin.
  - apply NoDup_cons in Hnd as [Hx Hnd]. simpl.
    destruct (decide (id = x)) as [->|Hne].
    + fold (update_all f ids (alter f x s)). rewrite update_all_notin by exact Hx.
      apply lookup_alter_eq.
    + apply elem_of_cons in Hin as [?|Hin]; [congruence|].
      rewrite IH by assumption. rewrite lookup_alter_ne by congruence. reflexivity.
Qed.

Lemma write_revents_notin (rev : nat -> Z) (i0 : nat) (ids : list nat) (s : gmap nat operation) (id : nat) :
  id ∉ ids -> write_revents rev i0 ids s !! id = s !! id.
Proof.
  revert i0 s. induction ids as [|x ids IH]; intros i0 s Hn; [reflexivity|].
  apply not_elem_of_cons in Hn as [Hne Hn]. simpl. rewrite IH by exact Hn.
  apply lookup_alter_ne. congruence.
Qed.

Lemma write_revents_at (rev : nat -> Z) (i0 : nat) (ids : list nat) (s : gmap nat operation)
    (i id : nat) :
  NoDup ids -> ids !! i = Some id ->
  write_revents rev i0 ids s !! id = set_revents (rev (i0 + i)%nat) <$> s !! id.
Proof.
  revert i0 s i. induction ids as [|x ids IH]; intros i0 s i Hnd Hi; [inversion Hi|].
  apply NoDup_cons in Hnd as [Hx Hnd]. destruct i as [|i]; simpl in *.
  - injection Hi as ->. rewrite write_revents_notin by exact Hx.
    rewrite lookup_alter_eq. rewrite Nat.add_0_r. reflexivity.
  - rewrite (IH (S i0) _ i Hnd Hi).
    rewrite lookup_alter_ne.
    + replace (S i0 + i)%nat with (i0 + S i)%nat by lia. reflexivity.
    + intros ->. apply Hx. eapply list_elem_of_lookup_2. exact Hi.
Qed.

Lemma wf_check_sound (w : world) : wf_check w = true -> wf w.
Proof.
  unfold wf_check. intros H. apply andb_true_iff in H as [H1 H2].
  split.
  - apply bool_decide_eq_true in H1. exact H1.
  - intros id Hin. rewrite forallb_forall in H2.
    specialize (H2 id). rewrite <- list_elem_of_In in H2. specialize (H2 Hin).
    unfold holds_at in H2. destruct (store w !! id) as [o|]; [|discriminate].
    exists o. split; [reflexivity|exact H2].
Qed.

Lemma wf_lookup (w : world) (id : nat) :
  wf w -> id ∈ operations w -> exists o, store w !! id = Some o /\ registrable o = true.
Proof. intros [_ H]. apply H. Qed.

Lemma registrable_exception (o : operation) : registrable o = true -> exception o = None.
Proof. unfold registrable. destruct (handle o), (exception o); congruence. Qed.

Lemma registrable_handle (o : operation) : registrable o = true -> is_Some (handle o).
Proof. unfold registrable. destruct (handle o), (exception o); try congruence. eauto. Qed.

End reactor_store.

Section reactor_select.
Variable env : environment.

Lemma select_spec (p : operation -> bool) (f : operation -> operation) (w : world) (id : nat) (o : operation) :
  NoDup (operations w) -> id ∈ operations w -> store w !! id = Some o ->
  if p o
  then (id ∈ fst (select p f w) /\ (id ∉ operations (snd (select p f w)))
        /\ store (snd (select p f w)) !! id = Some (f o))
  else ((id ∉ fst (select p f w)) /\ (id ∈ operations (snd (select p f w)))
        /\ store (snd (select p f w)) !! id = Some o).
Proof.
  intros Hnd Hin Ho. unfold select. simpl.
  assert (Hh : holds_at (store w) p id = p o) by (unfold holds_at; rewrite Ho; reflexivity).
  destruct (p o) eqn:Hp.
  - assert (Hin' : id ∈ filter (fun id => Is_true (holds_at (store w) p id)) (operations w)).
    { apply list_elem_of_filter. rewrite Hh. split; [exact I|exact Hin]. }
    split; [exact Hin'|]. split.
    + rewrite list_elem_of_filter. rewrite Hh. intros [Hc _]. apply Hc. exact I.
    + rewrite update_all_in; [rewrite Ho; reflexivity| |exact Hin'].
      apply NoDup_filter. exact Hnd.
  - assert (Hnin : id ∉ filter (fun id => Is_true (holds_at (store w) p id)) (operations w)).
    { rewrite list_elem_of_filter. rewrite Hh. intros [Hc _]. exact Hc. }
    split; [exact Hnin|]. split.
    + apply list_elem_of_filter. rewrite Hh. split; [tauto|exact Hin].
    + rewrite update_all_notin by exact Hnin. exact Ho.
Qed.

Lemma after_poll_unfold (out : poll_outcome) (w : world) :
  after_poll env out w =
  select (pass_pred env out) (pass_fix out)
    (set_os (S (po_tick out)) (po_errno out)
       (set_store (write_revents (po_revents out) 0 (operations w) (store w)) w)).
Proof.
  unfold after_poll, pass_pred, pass_fix, pass_now, steady_clock_now, make_sys_error. simpl.
  destruct (po_ret out =? -1); reflexivity.
Qed.

Lemma after_poll_spec (out : poll_outcome) (w : world) (i id : nat) (o : operation) :
  NoDup (operations w) -> operations w !! i = Some id -> store w !! id = Some o ->
  let r := after_poll env out w in
  if pass_pred env out (seen out i o)
  then (id ∈ fst r /\ (id ∉ operations (snd r))
        /\ store (snd r) !! id = Some (pass_fix out (seen out i o)))
  else ((id ∉ fst r) /\ (id ∈ operations (snd r))
        /\ store (snd r) !! id = Some (seen out i o)).
Proof.
  intros Hnd Hi Ho r. subst r. rewrite after_poll_unfold.
  apply select_spec; simpl.
  - exact Hnd.
  - eapply list_elem_of_lookup_2. exact Hi.
  - rewrite (write_revents_at _ 0 _ _ i id Hnd Hi). rewrite Ho. reflexivity.
Qed.

End reactor_select.

Section reactor_frame.
Variable env : environment.

Lemma same_engine_retired (w w' : world) (id : nat) :
  same_engine w w' -> retired w id <-> retired w' id.
Proof. intros [Hs Ho]. unfold retired. rewrite Hs, Ho. tauto. Qed.

Lemma same_engine_wf (w w' : world) : same_engine w w' -> wf w -> wf w'.
Proof.
  intros [Hs Ho] [H1 H2]. split; [rewrite Ho; exact H1|].
  intros id. rewrite Ho, Hs. apply H2.
Qed.

Lemma advance_refl (w : world) : advance [] w w.
Proof.
  split.
  - rewrite app_nil_r. reflexivity.
  - intros id H. split; [exact H|reflexivity].
  - intros ev x H. inversion H.
  - constructor.
  - intros id H. inversion H.
Qed.

Lemma resumed_id_ids_of (ev : event) (id : nat) : resumed_id ev = Some id -> id ∈ ids_of ev.
Proof. destruct ev; simpl; intros H; try discriminate. injection H as ->. left. Qed.

Lemma resumed_ids_app (e1 e2 : list event) :
  resumed_ids (e1 ++ e2) = resumed_ids e1 ++ resumed_ids e2.
Proof. apply omap_app. Qed.

Lemma elem_of_resumed_ids (evs : list event) (id : nat) :
  id ∈ resumed_ids evs <-> exists ev, ev ∈ evs /\ resumed_id ev = Some id.
Proof. apply list_elem_of_omap. Qed.

Lemma advance_trans (e1 e2 : list event) (w w1 w2 : world) :
  advance e1 w w1 -> advance e2 w1 w2 -> advance (e1 ++ e2) w w2.
Proof.
  intros [T1 R1 I1 N1 S1] [T2 R2 I2 N2 S2]. split.
  - rewrite T2, T1, app_assoc. reflexivity.
  - intros id H. destruct (R1 id H) as [H1 E1]. destruct (R2 id H1) as [H2 E2].
    split; [exact H2|congruence].
  - intros ev x Hev Hx. apply elem_of_app in Hev as [Hev|Hev].
    + eapply I1; eassumption.
    + intros Hr. apply (I2 ev x Hev Hx). apply R1. exact Hr.
  - rewrite resumed_ids_app. apply NoDup_app. split; [exact N1|]. split; [|exact N2].
    intros id Hid1 Hid2. apply elem_of_resumed_ids in Hid2 as (ev & Hev & Hid2).
    apply (I2 ev id Hev (resumed_id_ids_of _ _ Hid2)). apply S1. exact Hid1.
  - intros id. rewrite resumed_ids_app. intros Hid. apply elem_of_app in Hid as [Hid|Hid].
    + apply R2. apply S1. exact Hid.
    + apply S2. exact Hid.
Qed.

Lemma advance_same_l (evs : list event) (w0 w w' : world) :
  same_engine w0 w -> trace w = trace w0 -> advance evs w w' -> advance evs w0 w'.
Proof.
  intros Hse Ht [T R I N S]. destruct Hse as [Hs Ho]. split.
  - rewrite T, Ht. reflexivity.
  - intros id H. rewrite <- Hs. apply R. apply (same_engine_retired w0 w); [split; assumption|exact H].
  - intros ev x Hev Hx Hr. apply (I ev x Hev Hx).
    apply (same_engine_retired w0 w); [split; assumption|exact Hr].
  - exact N.
  - exact S.
Qed.

Lemma make_awaiter_same {R : Type} (a : awaitable R) (w : world) :
  same_engine w (snd (make_awaiter env a w))
  /\ trace (snd (make_awaiter env a w)) = trace w
  /\ exception (op (fst (make_awaiter env a w))) = None
  /\ revents (op (fst (make_awaiter env a w))) = 0.
Proof. destruct a; simpl; repeat split. Qed.

Lemma awaiter_ready_same {R : Type} (a : awaiter R) (w : world) :
  same_engine w (snd (awaiter_ready env a w)) /\ trace (snd (awaiter_ready env a w)) = trace w.
Proof. unfold awaiter_ready. destruct (kind a); simpl; repeat split. Qed.

Lemma fresh_not_allocated (s : gmap nat operation) : s !! fresh (dom s) = None.
Proof. apply not_elem_of_dom. apply is_fresh. Qed.

Lemma awaiter_suspend_ok {R : Type} (a : awaiter R) (h : coroutine_handle) (w : world) :
  wf w -> exception (op a) = None ->
  wf (snd (awaiter_suspend a h w))
  /\ advance [ev_add (fresh (dom (store w)))] w (snd (awaiter_suspend a h w)).
Proof.
  intros Hwf Hex. unfold awaiter_suspend, add_operation. simpl.
  set (id := fresh (dom (store w))).
  assert (Hid : store w !! id = None) by apply fresh_not_allocated.
  assert (Hnin : id ∉ operations w).
  { intros Hin. destruct (wf_lookup w id Hwf Hin) as (o & Ho & _). congruence. }
  split.
  - split; simpl.
    + apply NoDup_app. split; [apply Hwf|]. split; [|apply NoDup_singleton].
      intros x Hx Hx'. apply list_elem_of_singleton in Hx'. subst x. exact (Hnin Hx).
    + intros x Hx. apply elem_of_app in Hx as [Hx|Hx].
      * destruct (wf_lookup w x Hwf Hx) as (o & Ho & Hr). exists o. split; [|exact Hr].
        rewrite lookup_insert_ne; [exact Ho|]. intros ->. congruence.
      * apply list_elem_of_singleton in Hx. subst x. eexists. split; [apply lookup_insert_eq|].
        unfold registrable. simpl. rewrite Hex. reflexivity.
  - split; simpl.
    + reflexivity.
    + intros x [Ha Hn]. assert (Hne : id <> x) by (intros ->; rewrite Hid in Ha; destruct Ha; discriminate).
      split; [split|]; simpl.
      * rewrite lookup_insert_ne by exact Hne. exact Ha.
      * intros Hx. apply elem_of_app in Hx as [Hx|Hx]; [exact (Hn Hx)|].
        apply list_elem_of_singleton in Hx. congruence.
      * apply lookup_insert_ne. exact Hne.
    + intros ev x Hev Hx [Ha _]. apply list_elem_of_singleton in Hev. subst ev.
      simpl in Hx. apply list_elem_of_singleton in Hx. subst x. rewrite Hid in Ha.
      destruct Ha; discriminate.
    + constructor.
    + intros x Hx. inversion Hx.
Qed.

Section with_pump.
Variable pump : world -> option world.
Variable pump_all : world -> option world.
Hypothesis pump_ok : forall w w', wf w -> pump w = Some w' -> wf w' /\ exists evs, advance evs w w'.
Hypothesis pump_all_ok : forall w w', wf w -> pump_all w = Some w' ->
  wf w' /\ exists evs, advance evs w w'.

Lemma exec_ok (c : code) : forall w w', wf w -> exec env pump pump_all c w = Some w' ->
  wf w' /\ exists evs, advance evs w w'.
Proof.
  induction c as [|R a k IH|t IHt k IHk|k IHk|k IHk]; intros w w' Hwf He; simpl in He.
  - injection He as <-. split; [exact Hwf|]. exists []. apply advance_refl.
  - destruct (make_awaiter_same a w) as (Hs1 & Ht1 & Hex & _).
    destruct (make_awaiter env a w) as [aw w1]. simpl in *.
    unfold co_await in He. simpl in He.
    destruct (awaiter_ready_same aw w1) as (Hs2 & Ht2).
    destruct (awaiter_ready env aw w1) as [b w2]. simpl in *.
    assert (Hwf2 : wf w2) by (eapply same_engine_wf; [exact Hs2|]; eapply same_engine_wf; eassumption).
    assert (Hs : same_engine w w2).
    { destruct Hs1, Hs2. split; congruence. }
    assert (Ht : trace w2 = trace w) by congruence.
    destruct b.
    + destruct (IH _ _ _ Hwf2 He) as (Hwf' & evs & Ha). split; [exact Hwf'|].
      exists evs. eapply advance_same_l; eassumption.
    + injection He as <-.
      destruct (awaiter_suspend_ok aw (fun ex rev => k (awaiter_resume (kind aw) ex rev)) w2 Hwf2 Hex)
        as (Hwf' & Ha).
      split; [exact Hwf'|]. eexists. eapply advance_same_l; eassumption.
  - destruct (exec env pump pump_all t w) as [w1|] eqn:E1; simpl in He; [|discriminate].
    destruct (IHt _ _ Hwf E1) as (Hwf1 & e1 & A1).
    destruct (IHk _ _ Hwf1 He) as (Hwf2 & e2 & A2).
    split; [exact Hwf2|]. exists (e1 ++ e2). eapply advance_trans; eassumption.
  - destruct (pump w) as [w1|] eqn:E1; simpl in He; [|discriminate].
    destruct (pump_ok _ _ Hwf E1) as (Hwf1 & e1 & A1).
    destruct (IHk _ _ Hwf1 He) as (Hwf2 & e2 & A2).
    split; [exact Hwf2|]. exists (e1 ++ e2). eapply advance_trans; eassumption.
  - destruct (pump_all w) as [w1|] eqn:E1; simpl in He; [|discriminate].
    destruct (pump_all_ok _ _ Hwf E1) as (Hwf1 & e1 & A1).
    destruct (IHk _ _ Hwf1 He) as (Hwf2 & e2 & A2).
    split; [exact Hwf2|]. exists (e1 ++ e2). eapply advance_trans; eassumption.
Qed.


Lemma same_engine_log (ev : event) (w : world) : same_engine w (log ev w).
Proof. split; reflexivity. Qed.

Lemma registry_of_ids_of (ev : event) (x : nat) : x ∈ registry_of ev -> x ∈ ids_of ev.
Proof. destruct ev; simpl; intros H; [inversion H|exact H|right; exact H]. Qed.

(** [resume] of an operation: the event it logs, then the run of the
    resumed coroutine. *)
Lemma resume_ok (id : nat) (w w' : world) :
  wf w -> resume env pump pump_all id w = Some w' ->
  exists o evs,
    store w !! id = Some o
    /\ wf w'
    /\ advance evs (log (ev_resume id (exception o) (revents o) (operations w)) w) w'.
Proof.
  intros Hwf Hr. unfold resume in Hr.
  destruct (store w !! id) as [o|] eqn:Ho; simpl in Hr; [|discriminate].
  destruct (handle o) as [h|] eqn:Hh; simpl in Hr; [|discriminate].
  apply exec_ok in Hr as (Hwf' & evs & Ha).
  - exists o, evs. split; [reflexivity|]. split; assumption.
  - eapply same_engine_wf; [apply same_engine_log|exact Hwf].
Qed.

Lemma resumptions_app (l : list nat) (e1 e2 : list event) :
  resumptions l (e1 ++ e2) = resumptions l e1 ++ resumptions l e2.
Proof. apply omap_app. Qed.

Lemma resumptions_cons (l : list nat) (ev : event) (evs : list event) :
  resumptions l (ev :: evs) =
  match resumption l ev with
  | Some t => t :: resumptions l evs
  | None => resumptions l evs
  end.
Proof. reflexivity. Qed.

Lemma resumptions_none (l : list nat) (evs : list event) :
  (forall ev x, ev ∈ evs -> resumed_id ev = Some x -> x ∉ l) -> resumptions l evs = [].
Proof.
  induction evs as [|ev evs IH]; intros H; [reflexivity|].
  rewrite resumptions_cons, IH.
  - destruct ev as [id|reg|id ex rev reg]; simpl; try reflexivity.
    rewrite bool_decide_eq_false_2; [reflexivity|]. apply (H (ev_resume id ex rev reg)); [left|reflexivity].
  - intros ev' x Hev. apply H. right. exact Hev.
Qed.

Lemma resumptions_ext (l l' : list nat) (evs : list event) :
  (forall ev x, ev ∈ evs -> resumed_id ev = Some x -> (x ∈ l <-> x ∈ l')) ->
  resumptions l evs = resumptions l' evs.
Proof.
  induction evs as [|ev evs IH]; intros H; [reflexivity|].
  rewrite !resumptions_cons, IH.
  - destruct ev as [id|reg|id ex rev reg]; simpl; try reflexivity.
    rewrite (bool_decide_ext (id ∈ l) (id ∈ l')); [reflexivity|].
    apply (H (ev_resume id ex rev reg)); [left|reflexivity].
  - intros ev' x Hev. apply H. right. exact Hev.
Qed.

Lemma mapM_found_ext (s s' : gmap nat operation) (l : list nat) :
  (forall x, x ∈ l -> s' !! x = s !! x) -> mapM (found s') l = mapM (found s) l.
Proof.
  induction l as [|x l IH]; intros H; [reflexivity|].
  assert (Hx : found s' x = found s x) by (unfold found; rewrite (H x) by left; reflexivity).
  cbn [mapM]. rewrite Hx, IH; [reflexivity|].
  intros y Hy. apply H. right. exact Hy.
Qed.

(** The resume loop of [do_pull] over operations that are out of the
    registry. *)
Lemma resume_all_ok (l : list nat) : forall w w',
  wf w -> NoDup l -> (forall x, x ∈ l -> retired w x) ->
  resume_all env pump pump_all l w = Some w' ->
  wf w' /\ exists evs,
    trace w' = trace w ++ evs
    /\ (forall id, retired w id -> retired w' id /\ store w' !! id = store w !! id)
    /\ (forall ev x, ev ∈ evs -> x ∈ ids_of ev -> x ∈ l \/ ~ retired w x)
    /\ (forall ev x, ev ∈ evs -> x ∈ registry_of ev -> ~ retired w x)
    /\ NoDup (resumed_ids evs)
    /\ (forall id, id ∈ resumed_ids evs -> retired w' id)
    /\ mapM (found (store w)) l = Some (resumptions l evs).
Proof.
  induction l as [|id l IH]; intros w w' Hwf Hnd Hret Hr; simpl in Hr.
  - injection Hr as <-. split; [exact Hwf|]. exists []. rewrite app_nil_r.
    split; [reflexivity|]. split; [intros id H; split; [exact H|reflexivity]|].
    split; [intros ev x H; inversion H|]. split; [intros ev x H; inversion H|].
    split; [constructor|]. split; [intros id H; inversion H|reflexivity].
  - destruct (resume env pump pump_all id w) as [w1|] eqn:E1; simpl in Hr; [|discriminate].
    apply NoDup_cons in Hnd as [Hid Hnd].
    destruct (resume_ok id w w1 Hwf E1) as (o & evs1 & Ho & Hwf1 & A1).
    set (e := ev_resume id (exception o) (revents o) (operations w)) in *.
    assert (Hse : same_engine w (log e w)) by apply same_engine_log.
    assert (Hret1 : forall x, retired w x -> retired w1 x /\ store w1 !! x = store w !! x).
    { intros x Hx. apply (same_engine_retired _ _ _ Hse) in Hx. apply (adv_retired _ _ _ A1) in Hx.
      exact Hx. }
    assert (Hnr1 : forall ev x, ev ∈ evs1 -> x ∈ ids_of ev -> ~ retired w x).
    { intros ev x Hev Hx Hr'. apply (adv_ids _ _ _ A1 ev x Hev Hx).
      apply (same_engine_retired _ _ _ Hse). exact Hr'. }
    destruct (IH w1 w' Hwf1 Hnd) as (Hwf' & evs2 & T2 & R2 & I2 & G2 & N2 & S2 & M2); [|exact Hr|].
    { intros x Hx. apply Hret1. apply Hret. right. exact Hx. }
    split; [exact Hwf'|]. exists (e :: evs1 ++ evs2).
    assert (Hidr : retired w id) by (apply Hret; left).
    assert (Hid2 : id ∉ resumed_ids evs2).
    { intros Hin. apply elem_of_resumed_ids in Hin as (ev & Hev & Hrid).
      destruct (I2 ev id Hev (resumed_id_ids_of _ _ Hrid)) as [Hl|Hn]; [exact (Hid Hl)|].
      apply Hn. apply Hret1. exact Hidr. }
    split; [|split; [|split; [|split; [|split; [|split]]]]].
    + rewrite T2, (adv_trace _ _ _ A1). simpl. rewrite <- !app_assoc. reflexivity.
    + intros x Hx. destruct (Hret1 x Hx) as [H1 E]. destruct (R2 x H1) as [H2 E2].
      split; [exact H2|congruence].
    + intros ev x Hev Hx. apply elem_of_cons in Hev as [->|Hev].
      * simpl in Hx. apply elem_of_cons in Hx as [->|Hx]; [left; left|].
        right. intros [_ Hn]. exact (Hn Hx).
      * apply elem_of_app in Hev as [Hev|Hev].
        -- right. eapply Hnr1; eassumption.
        -- destruct (I2 ev x Hev Hx) as [Hl|Hn]; [left; right; exact Hl|].
           right. intros Hr'. apply Hn. apply Hret1. exact Hr'.
    + intros ev x Hev Hx. apply elem_of_cons in Hev as [->|Hev].
      * simpl in Hx. intros [_ Hn]. exact (Hn Hx).
      * apply elem_of_app in Hev as [Hev|Hev].
        -- eapply Hnr1; [exact Hev|]. apply registry_of_ids_of. exact Hx.
        -- intros Hr'. apply (G2 ev x Hev Hx). apply Hret1. exact Hr'.
    + change (e :: evs1 ++ evs2) with ([e] ++ evs1 ++ evs2).
      rewrite !resumed_ids_app. simpl. apply NoDup_cons. split.
      * intros Hin. apply elem_of_app in Hin as [Hin|Hin]; [|exact (Hid2 Hin)].
        apply elem_of_resumed_ids in Hin as (ev & Hev & Hrid).
        exact (Hnr1 ev id Hev (resumed_id_ids_of _ _ Hrid) Hidr).
      * apply NoDup_app. split; [exact (adv_nodup _ _ _ A1)|]. split; [|exact N2].
        intros x Hx1 Hx2.
        assert (Hxn : ~ retired w x).
        { apply elem_of_resumed_ids in Hx1 as (ev & Hev & Hrid).
          exact (Hnr1 ev x Hev (resumed_id_ids_of _ _ Hrid)). }
        apply (adv_resumed _ _ _ A1) in Hx1.
        apply elem_of_resumed_ids in Hx2 as (ev & Hev & Hrid).
        destruct (I2 ev x Hev (resumed_id_ids_of _ _ Hrid)) as [Hl|Hn]; [|exact (Hn Hx1)].
        apply Hxn. apply Hret. right. exact Hl.
    + intros x Hx. change (e :: evs1 ++ evs2) with ([e] ++ evs1 ++ evs2) in Hx.
      rewrite !resumed_ids_app in Hx. simpl in Hx.
      apply elem_of_cons in Hx as [->|Hx].
      * apply R2. apply Hret1. exact Hidr.
      * apply elem_of_app in Hx as [Hx|Hx]; [|exact (S2 x Hx)].
        apply R2. exact (adv_resumed _ _ _ A1 x Hx).
    + change (e :: evs1 ++ evs2) with ([e] ++ evs1 ++ evs2).
      rewrite !resumptions_app.
      assert (He : resumptions (id :: l) [e] = [(id, exception o, revents o)]).
      { unfold e. rewrite resumptions_cons. simpl.
        rewrite bool_decide_eq_true_2 by left. reflexivity. }
      assert (H1 : resumptions (id :: l) evs1 = []).
      { apply resumptions_none. intros ev x Hev Hrid Hx.
        apply (Hnr1 ev x Hev (resumed_id_ids_of _ _ Hrid)). apply Hret. exact Hx. }
      assert (H2 : resumptions (id :: l) evs2 = resumptions l evs2).
      { apply resumptions_ext. intros ev x Hev Hrid. split; [|intros; right; assumption].
        intros Hx. apply elem_of_cons in Hx as [->|Hx]; [|exact Hx].
        exfalso. apply Hid2. apply elem_of_resumed_ids. eauto. }
      rewrite He, H1, H2. cbn [app mapM].
      assert (Hf : found (store w) id = Some (id, exception o, revents o))
        by (unfold found; rewrite Ho; reflexivity).
      rewrite Hf. rewrite <- (mapM_found_ext (store w) (store w1)).
      * rewrite M2. reflexivity.
      * intros x Hx. apply Hret1. apply Hret. right. exact Hx.
Qed.


Lemma registrable_set_revents (r : Z) (o : operation) :
  registrable (set_revents r o) = registrable o.
Proof. reflexivity. Qed.

Lemma select_ok (p : operation -> bool) (f : operation -> operation) (w : world) :
  wf w ->
  wf (snd (select p f w))
  /\ NoDup (fst (select p f w))
  /\ (forall x, x ∈ fst (select p f w) -> x ∈ operations w /\ retired (snd (select p f w)) x)
  /\ (forall id, retired w id ->
        retired (snd (select p f w)) id /\ store (snd (select p f w)) !! id = store w !! id)
  /\ trace (snd (select p f w)) = trace w.
Proof.
  intros Hwf. unfold select. simpl.
  set (l := filter (fun id => Is_true (holds_at (store w) p id)) (operations w)).
  assert (Hl : forall x, x ∈ l -> x ∈ operations w).
  { intros x Hx. apply list_elem_of_filter in Hx. tauto. }
  assert (Hndl : NoDup l) by (apply NoDup_filter; apply Hwf).
  split; [|split; [exact Hndl|split; [|split; [|reflexivity]]]].
  - split; simpl.
    + apply NoDup_filter. apply Hwf.
    + intros id Hid. apply list_elem_of_filter in Hid as [Hp Hid].
      destruct (wf_lookup w id Hwf Hid) as (o & Ho & Hr). exists o. split; [|exact Hr].
      rewrite update_all_notin; [exact Ho|].
      intros Hin. apply list_elem_of_filter in Hin as [Hp' _]. exact (Hp Hp').
  - intros x Hx. split; [exact (Hl x Hx)|]. split; simpl.
    + rewrite update_all_in by assumption.
      destruct (wf_lookup w x Hwf (Hl x Hx)) as (o & Ho & _). rewrite Ho. simpl. eauto.
    + intros Hin. apply list_elem_of_filter in Hin as [Hp _].
      apply list_elem_of_filter in Hx as [Hp' _]. exact (Hp Hp').
  - intros id [Ha Hn].
    assert (Hnl : id ∉ l) by (intros Hin; exact (Hn (Hl id Hin))).
    split; [split|]; simpl.
    + rewrite update_all_notin by exact Hnl. exact Ha.
    + intros Hin. apply list_elem_of_filter in Hin as [_ Hin]. exact (Hn Hin).
    + apply update_all_notin. exact Hnl.
Qed.

Lemma write_back_wf (rev : nat -> Z) (t : nat) (e : Z) (w : world) :
  wf w ->
  wf (set_os t e (set_store (write_revents rev 0 (operations w) (store w)) w)).
Proof.
  intros Hwf. split; simpl; [apply Hwf|].
  intros id Hid. destruct (wf_lookup w id Hwf Hid) as (o & Ho & Hr).
  apply list_elem_of_lookup_1 in Hid as [i Hi].
  exists (set_revents (rev i) o). split; [|exact Hr].
  rewrite (write_revents_at rev 0 _ _ i id); [rewrite Ho; reflexivity|apply Hwf|exact Hi].
Qed.

Lemma after_poll_ok (out : poll_outcome) (w : world) :
  wf w ->
  wf (snd (after_poll env out w))
  /\ NoDup (fst (after_poll env out w))
  /\ (forall x, x ∈ fst (after_poll env out w) ->
        x ∈ operations w /\ retired (snd (after_poll env out w)) x)
  /\ (forall id, retired w id ->
        retired (snd (after_poll env out w)) id
        /\ store (snd (after_poll env out w)) !! id = store w !! id)
  /\ trace (snd (after_poll env out w)) = trace w.
Proof.
  intros Hwf. rewrite after_poll_unfold.
  set (w2 := set_os (S (po_tick out)) (po_errno out)
               (set_store (write_revents (po_revents out) 0 (operations w) (store w)) w)).
  assert (Hwf2 : wf w2) by (apply write_back_wf; exact Hwf).
  destruct (select_ok (pass_pred env out) (pass_fix out) w2 Hwf2) as (H1 & H2 & H3 & H4 & H5).
  split; [exact H1|]. split; [exact H2|]. split; [exact H3|]. split; [|exact H5].
  intros id [Ha Hn].
  assert (Hr2 : retired w2 id).
  { split; simpl; [|exact Hn]. rewrite write_revents_notin by exact Hn. exact Ha. }
  destruct (H4 id Hr2) as [Hr E]. split; [exact Hr|]. rewrite E. simpl.
  apply write_revents_notin. exact Hn.
Qed.

Lemma after_poll_log (out : poll_outcome) (ev : event) (w : world) :
  after_poll env out (log ev w)
  = (fst (after_poll env out w), log ev (snd (after_poll env out w))).
Proof.
  unfold after_poll, steady_clock_now, select. simpl.
  destruct (po_ret out =? -1); reflexivity.
Qed.

(** One pass of [do_pull]. *)
Lemma do_pull_pass (poll_fn : poll_function) (w w' : world) (fds : list pollfd) (out : poll_outcome) :
  wf w -> build_fds w = Some fds -> poll_fn fds w = Some out ->
  do_pull env pump pump_all poll_fn w = Some w' ->
  wf w' /\ exists evs,
    advance (ev_pull (operations w) :: evs) w w'
    /\ mapM (found (store (snd (after_poll env out w)))) (fst (after_poll env out w))
       = Some (resumptions (fst (after_poll env out w)) evs)
    /\ (forall ev x, ev ∈ evs -> x ∈ registry_of ev -> x ∉ fst (after_poll env out w))
    /\ (forall x, x ∈ fst (after_poll env out w) -> x ∉ operations w').
Proof.
  intros Hwf Hfds Hout Hd. unfold do_pull in Hd. rewrite Hfds in Hd. simpl in Hd.
  rewrite Hout in Hd. simpl in Hd. rewrite after_poll_log in Hd.
  destruct (after_poll_ok out w Hwf) as (Hwf1 & Hnd & Hl & Hret & Htr).
  set (l := fst (after_poll env out w)) in *.
  set (w1 := snd (after_poll env out w)) in *.
  set (e := ev_pull (operations w)) in *.
  assert (Hse : same_engine w1 (log e w1)) by apply same_engine_log.
  destruct (resume_all_ok l (log e w1) w') as (Hwf' & evs & T & R & I & G & N & S & M).
  { eapply same_engine_wf; eassumption. }
  { exact Hnd. }
  { intros x Hx. apply (same_engine_retired _ _ _ Hse). apply Hl. exact Hx. }
  { exact Hd. }
  assert (Hret' : forall id, retired w id -> retired w' id /\ store w' !! id = store w !! id).
  { intros id Hid. destruct (Hret id Hid) as [H1 E1].
    apply (same_engine_retired _ _ _ Hse) in H1. destruct (R id H1) as [H2 E2].
    split; [exact H2|]. rewrite E2. exact E1. }
  assert (Hnr : forall x, ~ retired (log e w1) x -> ~ retired w x).
  { intros x Hn Hr. apply Hn. apply (same_engine_retired _ _ _ Hse). apply Hret. exact Hr. }
  split; [exact Hwf'|]. exists evs. split; [split|split; [|split]].
  - rewrite T. simpl. rewrite Htr. rewrite <- app_assoc. reflexivity.
  - exact Hret'.
  - intros ev x Hev Hx. apply elem_of_cons in Hev as [->|Hev].
    + simpl in Hx. intros [_ Hn]. exact (Hn Hx).
    + destruct (I ev x Hev Hx) as [Hin|Hn].
      * intros [_ Hn]. apply Hn. apply Hl. exact Hin.
      * apply Hnr. exact Hn.
  - exact N.
  - exact S.
  - exact M.
  - intros ev x Hev Hx Hin. apply (G ev x Hev Hx).
    apply (same_engine_retired _ _ _ Hse). apply Hl. exact Hin.
  - intros x Hx. assert (Hr : retired (log e w1) x).
    { apply (same_engine_retired _ _ _ Hse). apply Hl. exact Hx. }
    apply R in Hr as [[_ Hn] _]. exact Hn.
Qed.

Lemma build_fds_wf (w : world) : wf w -> is_Some (build_fds w).
Proof.
  intros Hwf. unfold build_fds.
  assert (H : forall l, (forall x, x ∈ l -> is_Some (store w !! x)) ->
            is_Some (mapM (fun id => o ← store w !! id;
                          Some {| pfd_fd := fd o; pfd_events := events o; pfd_revents := 0 |}) l)).
  { induction l as [|x l IH]; intros Hl; [eexists; reflexivity|].
    destruct (Hl x) as [o Ho]; [left|]. destruct IH as [k Hk].
    - intros y Hy. apply Hl. right. exact Hy.
    - cbn [mapM]. rewrite Ho. simpl. rewrite Hk. simpl. eauto. }
  apply H. intros x Hx. destruct (wf_lookup w x Hwf Hx) as (o & Ho & _). eauto.
Qed.

Lemma do_pull_ok (poll_fn : poll_function) (w w' : world) :
  wf w -> do_pull env pump pump_all poll_fn w = Some w' ->
  wf w' /\ exists evs, advance evs w w'.
Proof.
  intros Hwf Hd. destruct (build_fds_wf w Hwf) as [fds Hfds].
  destruct (poll_fn fds w) as [out|] eqn:Hout.
  - destruct (do_pull_pass poll_fn w w' fds out Hwf Hfds Hout Hd) as (Hwf' & evs & Ha & _).
    split; [exact Hwf'|]. eauto.
  - unfold do_pull in Hd. rewrite Hfds in Hd. simpl in Hd. rewrite Hout in Hd. discriminate.
Qed.

End with_pump.
End reactor_frame.

Section reactor_pull.
Variable env : environment.

Lemma new_engine_wf : wf new_engine.
Proof. split; [constructor|]. intros id H. inversion H. Qed.

Lemma pull_unfold (n : nat) (w : world) :
  pull env (S n) w = do_pull env (pull env n) (pull_all env n) (pull_poll_fn env (S n)) w.
Proof. reflexivity. Qed.

Lemma pull_all_unfold (n : nat) (w : world) :
  pull_all env (S n) w =
  match operations w with
  | [] => Some w
  | _ :: _ =>
      w1 ← do_pull env (pull env n) (pull_all env n) (pull_all_poll_fn env (S n)) w;
      pull_all env n w1
  end.
Proof. reflexivity. Qed.

Lemma pull_all_done (n : nat) (w : world) : operations w = [] -> pull_all env n w = Some w.
Proof. intros H. destruct n; simpl; rewrite H; reflexivity. Qed.

(** [pull()] and [pull_all()], with the calls of both that resumed
    coroutines make, keep the invariant of the registry. *)
Lemma pumps_ok (n : nat) :
  (forall w w', wf w -> pull env n w = Some w' -> wf w' /\ exists evs, advance evs w w')
  /\ (forall w w', wf w -> pull_all env n w = Some w' -> wf w' /\ exists evs, advance evs w w').
Proof.
  induction n as [|n [IH1 IH2]].
  - split; intros w w' Hwf Hp; [discriminate|].
    simpl in Hp. destruct (operations w); [|discriminate]. injection Hp as <-.
    split; [exact Hwf|]. exists []. apply advance_refl.
  - assert (Hpull : forall poll_fn w w', wf w ->
              do_pull env (pull env n) (pull_all env n) poll_fn w = Some w' ->
              wf w' /\ exists evs, advance evs w w').
    { intros poll_fn w w' Hwf Hd. eapply do_pull_ok; [exact IH1|exact IH2|exact Hwf|exact Hd]. }
    split; intros w w' Hwf Hp.
    + rewrite pull_unfold in Hp. eapply Hpull; eassumption.
    + rewrite pull_all_unfold in Hp. destruct (operations w) eqn:Hops.
      * injection Hp as <-. split; [exact Hwf|]. exists []. apply advance_refl.
      * destruct (do_pull env (pull env n) (pull_all env n) (pull_all_poll_fn env (S n)) w)
          as [w1|] eqn:Hd; simpl in Hp; [|discriminate].
        destruct (Hpull _ w w1 Hwf Hd) as (Hwf1 & e1 & A1).
        destruct (IH2 w1 w' Hwf1 Hp) as (Hwf' & e2 & A2).
        split; [exact Hwf'|]. exists (e1 ++ e2). eapply advance_trans; eassumption.
Qed.

Lemma pull_ok (n : nat) : forall w w',
  wf w -> pull env n w = Some w' -> wf w' /\ exists evs, advance evs w w'.
Proof. apply pumps_ok. Qed.

Lemma pull_all_advances (n : nat) : forall w w',
  wf w -> pull_all env n w = Some w' -> wf w' /\ exists evs, advance evs w w'.
Proof. apply pumps_ok. Qed.

End reactor_pull.


Section reactor_events.

Lemma found_Some (s : gmap nat operation) (x : nat) (y : nat * exception_ptr * Z) :
  found s x = Some y -> exists o, s !! x = Some o /\ y = (x, exception o, revents o).
Proof.
  unfold found. destruct (s !! x) as [o|]; simpl; intros H; [|discriminate].
  injection H as <-. eauto.
Qed.

Lemma mapM_found_cons (s : gmap nat operation) (x : nat) (l : list nat)
    (k : list (nat * exception_ptr * Z)) :
  mapM (found s) (x :: l) = Some k ->
  exists o k', s !! x = Some o /\ mapM (found s) l = Some k'
               /\ k = (x, exception o, revents o) :: k'.
Proof.
  cbn [mapM]. intros Hk.
  destruct (found s x) as [y|] eqn:Hy; simpl in Hk; [|discriminate].
  destruct (mapM (found s) l) as [k'|] eqn:Hk'; simpl in Hk; [|discriminate].
  injection Hk as <-. apply found_Some in Hy as (o & Ho & ->). eauto.
Qed.

Lemma found_fst (s : gmap nat operation) (l : list nat) : forall k,
  mapM (found s) l = Some k -> forall t, t ∈ k -> t.1.1 ∈ l.
Proof.
  induction l as [|x l IH]; intros k Hk t Ht.
  - cbn in Hk. injection Hk as <-. inversion Ht.
  - apply mapM_found_cons in Hk as (o & k' & Ho & Hk' & ->).
    apply elem_of_cons in Ht as [->|Ht]; [left|].
    right. eapply IH; [exact Hk'|exact Ht].
Qed.

Lemma found_single (s : gmap nat operation) (id : nat) (o : operation) (l : list nat) : forall k,
  NoDup l -> id ∈ l -> s !! id = Some o -> mapM (found s) l = Some k ->
  filter (fun t => t.1.1 = id) k = [(id, exception o, revents o)].
Proof.
  induction l as [|x l IH]; intros k Hnd Hin Ho Hk; [inversion Hin|].
  apply NoDup_cons in Hnd as [Hx Hnd].
  apply mapM_found_cons in Hk as (ox & k' & Hox & Hk' & ->).
  destruct (decide (x = id)) as [->|Hne].
  - rewrite filter_cons_True by reflexivity.
    assert (ox = o) by congruence. subst ox. f_equal.
    apply elem_of_nil_inv. intros t Ht. apply list_elem_of_filter in Ht as [Heq Ht].
    apply Hx. rewrite <- Heq. eapply found_fst; eassumption.
  - rewrite filter_cons_False by exact Hne.
    apply elem_of_cons in Hin as [?|Hin]; [congruence|].
    eapply IH; eauto.
Qed.

Lemma resumptions_single (id : nat) (l : list nat) (evs : list event) :
  id ∈ l -> resumptions [id] evs = filter (fun t => t.1.1 = id) (resumptions l evs).
Proof.
  intros Hin. induction evs as [|ev evs IH]; [reflexivity|].
  rewrite !resumptions_cons, IH.
  destruct ev as [x|reg|x ex rev reg]; simpl; try reflexivity.
  destruct (decide (x = id)) as [->|Hne].
  - rewrite !bool_decide_eq_true_2; [|exact Hin|left].
    rewrite filter_cons_True by reflexivity. reflexivity.
  - rewrite (bool_decide_eq_false_2 (x ∈ [id])).
    + destruct (bool_decide (x ∈ l)); [|reflexivity].
      rewrite filter_cons_False by exact Hne. reflexivity.
    + intros Hx. apply list_elem_of_singleton in Hx. congruence.
Qed.

Lemma resumptions_not_resumed (id : nat) (evs : list event) :
  id ∉ resumed_ids evs -> resumptions [id] evs = [].
Proof.
  intros Hn. apply resumptions_none. intros ev x Hev Hrid Hx.
  apply list_elem_of_singleton in Hx. subst x. apply Hn. apply elem_of_resumed_ids. eauto.
Qed.

Lemma list_filter_all {A : Type} (P : A -> Prop) `{!forall x, Decision (P x)} (l : list A) :
  (forall x, x ∈ l -> P x) -> filter P l = l.
Proof.
  induction l as [|x l IH]; intros Hall; [reflexivity|].
  rewrite filter_cons_True by (apply Hall; left). f_equal. apply IH.
  intros y Hy. apply Hall. right. exact Hy.
Qed.

Lemma new_events_app (w w' : world) (evs : list event) :
  trace w' = trace w ++ evs -> new_events w w' = evs.
Proof. intros H. unfold new_events. rewrite H. apply drop_app_length. Qed.

Lemma has_flag_lor (r a b : Z) : has_flag r (Z.lor a b) = has_flag r a || has_flag r b.
Proof.
  unfold has_flag. rewrite Z.land_lor_distr_r.
  destruct (Z.eqb_spec (Z.land r a) 0) as [Ha|Ha], (Z.eqb_spec (Z.land r b) 0) as [Hb|Hb];
    simpl; rewrite ?Ha, ?Hb.
  - reflexivity.
  - rewrite Z.lor_0_l. apply negb_true_iff, Z.eqb_neq. exact Hb.
  - rewrite Z.lor_0_r. apply negb_true_iff, Z.eqb_neq. exact Ha.
  - apply negb_true_iff, Z.eqb_neq. intros H. apply Z.lor_eq_0_iff in H. tauto.
Qed.

Lemma has_flag_false (r m : Z) : has_flag r m = false <-> Z.land r m = 0.
Proof. unfold has_flag. rewrite negb_false_iff. apply Z.eqb_eq. Qed.

Lemma fail_with_timer (e : exn) (o : operation) : fd o = -1 -> fail_with e o = o.
Proof. intros H. unfold fail_with. rewrite H. reflexivity. Qed.

Lemma classify_timer (o : operation) : fd o = -1 -> classify o = o.
Proof. intros H. unfold classify. rewrite H. reflexivity. Qed.

Lemma classify_no_flag (o : operation) :
  has_flag (revents o) (Z.lor (Z.lor (Z.lor POLLERR POLLHUP) POLLNVAL) (events o)) = false ->
  classify o = o.
Proof.
  intros Hf. rewrite !has_flag_lor in Hf. apply orb_false_iff in Hf as [Hf _].
  apply orb_false_iff in Hf as [Hf Hn]. apply orb_false_iff in Hf as [He Hh].
  unfold classify. rewrite He, Hh, Hn. destruct (negb (fd o =? -1)); reflexivity.
Qed.

(** [await_resume] without a stored exception returns normally. *)
Lemma awaiter_resume_no_exception {R : Type} (k : awaiter_kind R) (rev : Z) :
  exists v, awaiter_resume k None rev = returns v.
Proof. destruct k; simpl; eauto. Qed.

End reactor_events.


Section reactor_destroy.
Variable env : environment.

Lemma same_engine_pull_free (w w' : world) :
  same_engine w w' -> pull_free_world w -> pull_free_world w'.
Proof.
  intros [Hs Ho] H id o h ex rev. rewrite Ho, Hs. apply H.
Qed.

Lemma same_engine_trans (w1 w2 w3 : world) :
  same_engine w1 w2 -> same_engine w2 w3 -> same_engine w1 w3.
Proof. intros [? ?] [? ?]. split; congruence. Qed.

Lemma awaiter_suspend_pull_free {R : Type} (a : awaiter R) (h : coroutine_handle) (w : world) :
  wf w -> pull_free_world w -> (forall ex rev, pull_free (h ex rev)) ->
  pull_free_world (snd (awaiter_suspend a h w)).
Proof.
  intros Hwf Hpf Hh id o h' ex rev. unfold awaiter_suspend, add_operation. simpl.
  set (x := fresh (dom (store w))).
  intros Hin Ho Hh'. destruct (decide (id = x)) as [->|Hne].
  - rewrite lookup_insert_eq in Ho. injection Ho as <-. simpl in Hh'. injection Hh' as <-.
    apply Hh.
  - rewrite lookup_insert_ne in Ho by congruence.
    apply elem_of_app in Hin as [Hin|Hin].
    + eapply Hpf; eassumption.
    + apply list_elem_of_singleton in Hin. congruence.
Qed.

Section with_pump.
Variable pump : world -> option world.
Variable pump_all : world -> option world.

(** User code that never pumps the engine runs to its next suspension, and
    all it does to the engine is to register new operations. *)
Lemma exec_pull_free (c : code) : pull_free c -> forall w,
  wf w -> pull_free_world w ->
  exists w' added,
    exec env pump pump_all c w = Some w'
    /\ wf w' /\ pull_free_world w'
    /\ operations w' = operations w ++ added
    /\ (forall id o, store w !! id = Some o -> store w' !! id = Some o)
    /\ trace w' = trace w ++ map ev_add added
    /\ (forall x, x ∈ added -> store w !! x = None).
Proof.
  induction c as [|R a k IH|t IHt k IHk|k IHk|k IHk]; intros Hc w Hwf Hpf; simpl in Hc.
  - exists w, []. simpl. rewrite !app_nil_r.
    split; [reflexivity|]. split; [exact Hwf|]. split; [exact Hpf|].
    split; [reflexivity|]. split; [intros id o H; exact H|]. split; [reflexivity|].
    intros x Hx. inversion Hx.
  - simpl. destruct (make_awaiter_same env a w) as (Hs1 & Ht1 & Hex & _).
    destruct (make_awaiter env a w) as [aw w1]. simpl in *.
    unfold co_await. simpl.
    destruct (awaiter_ready_same env aw w1) as (Hs2 & Ht2).
    destruct (awaiter_ready env aw w1) as [b w2]. simpl in *.
    pose proof (same_engine_trans _ _ _ Hs1 Hs2) as Hs.
    assert (Hwf2 : wf w2) by (eapply same_engine_wf; eassumption).
    assert (Hpf2 : pull_free_world w2) by (eapply same_engine_pull_free; eassumption).
    destruct Hs as [Hst Hop]. destruct b.
    + destruct (IH (awaiter_resume (kind aw) (exception (op aw)) (revents (op aw)))
                  (Hc _) w2 Hwf2 Hpf2)
        as (w' & added & He & Hwf' & Hpf' & Ho & Hs' & Ht' & Hfr).
      exists w', added. split; [exact He|]. split; [exact Hwf'|]. split; [exact Hpf'|].
      split; [congruence|]. split; [|split; [congruence|]].
      * intros id o Hid. apply Hs'. rewrite Hst. exact Hid.
      * intros x Hx. rewrite <- Hst. apply Hfr. exact Hx.
    + set (h := fun ex rev => k (awaiter_resume (kind aw) ex rev)).
      destruct (awaiter_suspend_ok aw h w2 Hwf2 Hex) as (Hwf' & Ha).
      exists (snd (awaiter_suspend aw h w2)), [fresh (dom (store w2))].
      split; [reflexivity|]. split; [exact Hwf'|].
      split; [apply awaiter_suspend_pull_free; [assumption|assumption|intros; apply Hc]|].
      unfold awaiter_suspend, add_operation. simpl.
      split; [congruence|]. split; [|split; [congruence|]].
      * intros id o Hid. rewrite <- Hst in Hid. rewrite lookup_insert_ne; [exact Hid|].
        intros Heq. rewrite <- Heq in Hid. rewrite fresh_not_allocated in Hid. discriminate.
      * intros x Hx. apply list_elem_of_singleton in Hx. subst x. rewrite <- Hst.
        apply fresh_not_allocated.
  - destruct Hc as [Hct Hck].
    destruct (IHt Hct w Hwf Hpf) as (w1 & a1 & E1 & Hwf1 & Hpf1 & O1 & S1 & T1 & F1).
    destruct (IHk Hck w1 Hwf1 Hpf1) as (w2 & a2 & E2 & Hwf2 & Hpf2 & O2 & S2 & T2 & F2).
    exists w2, (a1 ++ a2). simpl. rewrite E1. simpl.
    split; [exact E2|]. split; [exact Hwf2|]. split; [exact Hpf2|].
    split; [rewrite O2, O1, app_assoc; reflexivity|].
    split; [intros id o Hid; apply S2, S1; exact Hid|].
    split; [rewrite T2, T1, map_app, app_assoc; reflexivity|].
    intros x Hx. apply elem_of_app in Hx as [Hx|Hx]; [apply F1; exact Hx|].
    destruct (store w !! x) as [o|] eqn:Hox; [|reflexivity].
    apply S1 in Hox. rewrite (F2 x Hx) in Hox. discriminate.
  - destruct Hc.
  - destruct Hc.
Qed.

Lemma turn_world_wf (l : list nat) (id : nat) (w : world) :
  wf w -> operations w = l ++ [id] -> wf (turn_world l id w).
Proof.
  intros Hwf Hl. pose proof (wf_nodup _ Hwf) as Hnd. rewrite Hl in Hnd.
  apply NoDup_app in Hnd as (Hndl & Hdis & _).
  split; simpl; [exact Hndl|].
  intros x Hx. destruct (wf_lookup w x Hwf) as (o & Ho & Hr).
  { rewrite Hl. apply elem_of_app. left. exact Hx. }
  exists o. split; [|exact Hr]. rewrite lookup_alter_ne; [exact Ho|].
  intros ->. apply (Hdis x Hx). left.
Qed.

Lemma turn_world_pull_free (l : list nat) (id : nat) (w : world) :
  wf w -> pull_free_world w -> operations w = l ++ [id] -> pull_free_world (turn_world l id w).
Proof.
  intros Hwf Hpf Hl. pose proof (wf_nodup _ Hwf) as Hnd. rewrite Hl in Hnd.
  apply NoDup_app in Hnd as (Hndl & Hdis & _).
  intros x o h ex rev Hx Ho Hh. simpl in *.
  rewrite lookup_alter_ne in Ho.
  - eapply Hpf; [|exact Ho|exact Hh]. rewrite Hl. apply elem_of_app. left. exact Hx.
  - intros ->. apply (Hdis x Hx). left.
Qed.

(** One turn of the destructor's loop, spelled out. *)
Lemma destroy_loop_turn (n : nat) (w : world) (l : list nat) (id : nat) :
  operations w = l ++ [id] ->
  destroy_loop env pump pump_all (S n) w
  = (w3 ← resume env pump pump_all id (turn_world l id w); destroy_loop env pump pump_all n w3).
Proof.
  intros Hl. simpl. rewrite Hl, last_snoc, removelast_last. reflexivity.
Qed.

Lemma destroy_loop_done (n : nat) (w : world) :
  operations w = [] -> destroy_loop env pump pump_all n w = Some w.
Proof. intros Hl. destruct n; simpl; rewrite Hl; reflexivity. Qed.

(** The resumption of that turn, for a coroutine that never pumps the
    engine. *)
Lemma resume_turn (w : world) (l : list nat) (id : nat) (o : operation) (h : coroutine_handle) :
  wf w -> pull_free_world w -> operations w = l ++ [id] ->
  store w !! id = Some o -> handle o = Some h ->
  exists w3 added,
    resume env pump pump_all id (turn_world l id w) = Some w3
    /\ exec env pump pump_all (h (Some destroyed) (revents o))
         (log (ev_resume id (Some destroyed) (revents o) l) (turn_world l id w)) = Some w3
    /\ wf w3 /\ pull_free_world w3
    /\ operations w3 = l ++ added
    /\ (forall x ox, x <> id -> store w !! x = Some ox -> store w3 !! x = Some ox)
    /\ trace w3 = trace w ++ ev_resume id (Some destroyed) (revents o) l :: map ev_add added
    /\ is_Some (store w3 !! id)
    /\ (forall x, x ∈ added -> store w !! x = None).
Proof.
  intros Hwf Hpf Hl Ho Hh.
  set (e := ev_resume id (Some destroyed) (revents o) l).
  assert (Hin : id ∈ operations w) by (rewrite Hl; apply elem_of_app; right; left).
  destruct (exec_pull_free (h (Some destroyed) (revents o)) (Hpf id o h _ _ Hin Ho Hh)
              (log e (turn_world l id w)))
    as (w3 & added & He & Hwf3 & Hpf3 & Hop & Hst & Htr & Hfr).
  { eapply same_engine_wf; [apply same_engine_log|]. apply turn_world_wf; assumption. }
  { eapply same_engine_pull_free; [apply same_engine_log|]. apply turn_world_pull_free; assumption. }
  exists w3, added. split; [|split; [exact He|]].
  - unfold resume. simpl. rewrite lookup_alter_eq, Ho. simpl. rewrite Hh. simpl. exact He.
  - split; [exact Hwf3|]. split; [exact Hpf3|]. split; [exact Hop|].
    split; [|split; [|split]].
    + intros x ox Hne Hx. apply Hst. simpl. rewrite lookup_alter_ne by congruence. exact Hx.
    + rewrite Htr. simpl. rewrite <- app_assoc. reflexivity.
    + eexists. apply Hst. simpl. rewrite lookup_alter_eq, Ho. reflexivity.
    + intros x Hx. specialize (Hfr x Hx). simpl in Hfr.
      destruct (decide (x = id)) as [->|Hne].
      * rewrite lookup_alter_eq, Ho in Hfr. discriminate.
      * rewrite lookup_alter_ne in Hfr by congruence. exact Hfr.
Qed.


Lemma destroy_loop_empty (n : nat) : forall w w',
  destroy_loop env pump pump_all n w = Some w' -> operations w' = [].
Proof.
  induction n as [|n IH]; intros w w' Hd; simpl in Hd.
  - destruct (last (operations w)) eqn:Hl; [discriminate|]. injection Hd as <-.
    apply last_None. exact Hl.
  - destruct (last (operations w)) eqn:Hl.
    + destruct (resume env pump pump_all _ _) as [w3|]; simpl in Hd; [|discriminate].
      eapply IH. exact Hd.
    + injection Hd as <-. apply last_None. exact Hl.
Qed.

Lemma resumptions_adds (x : nat) (added : list nat) : resumptions [x] (map ev_add added) = [].
Proof.
  induction added as [|a added IH]; [reflexivity|].
  cbn [map]. rewrite resumptions_cons. exact IH.
Qed.

(** What the destructor's loop logs when no resumed coroutine pumps the
    engine: no resumption of an operation that was out of the registry, and
    for each registered operation one resumption, which finds the exception of
    the destructor. *)
Lemma destroy_loop_resumes (n : nat) : forall w w',
  wf w -> pull_free_world w -> destroy_loop env pump pump_all n w = Some w' ->
  exists evs,
    trace w' = trace w ++ evs
    /\ (forall x, is_Some (store w !! x) -> x ∉ operations w -> resumptions [x] evs = [])
    /\ (forall id o, id ∈ operations w -> store w !! id = Some o ->
          resumptions [id] evs = [(id, Some destroyed, revents o)]).
Proof.
  induction n as [|n IH]; intros w w' Hwf Hpf Hd.
  - simpl in Hd. destruct (last (operations w)) eqn:Hl; [discriminate|]. injection Hd as <-.
    apply last_None in Hl. exists []. rewrite app_nil_r. split; [reflexivity|].
    split; [reflexivity|]. intros id o Hin. rewrite Hl in Hin. inversion Hin.
  - destruct (operations w) as [|id l0] eqn:Hops using rev_ind.
    + rewrite destroy_loop_done in Hd by exact Hops. injection Hd as <-.
      exists []. rewrite app_nil_r. split; [reflexivity|].
      split; [reflexivity|]. intros x o Hin. inversion Hin.
    + clear IHl0. rename l0 into l.
      pose proof (wf_nodup _ Hwf) as Hnd. rewrite Hops in Hnd.
      apply NoDup_app in Hnd as (Hndl & Hdis & _).
      assert (Hidl : id ∉ l) by (intros Hin; apply (Hdis id Hin); left).
      destruct (wf_lookup w id Hwf) as (o & Ho & Hr).
      { rewrite Hops. apply elem_of_app. right. left. }
      destruct (registrable_handle o Hr) as [h Hh].
      destruct (resume_turn w l id o h Hwf Hpf Hops Ho Hh)
        as (w3 & added & Hr3 & _ & Hwf3 & Hpf3 & Hop3 & Hst3 & Htr3 & Hid3 & Hfr3).
      rewrite (destroy_loop_turn n w l id Hops), Hr3 in Hd. simpl in Hd.
      destruct (IH w3 w' Hwf3 Hpf3 Hd) as (evs & Htr & Hout & Hin).
      assert (Hida : id ∉ added).
      { intros Hx. apply Hfr3 in Hx. congruence. }
      exists (ev_resume id (Some destroyed) (revents o) l :: map ev_add added ++ evs).
      split; [|split].
      * rewrite Htr, Htr3. rewrite <- app_assoc. reflexivity.
      * intros x Hx Hxn. rewrite resumptions_cons. simpl.
        rewrite bool_decide_eq_false_2.
        -- rewrite resumptions_app, resumptions_adds. simpl. apply Hout.
           ++ destruct Hx as [ox Hox]. eexists. apply (Hst3 x ox); [|exact Hox].
              intros ->. apply Hxn. apply elem_of_app. right. left.
           ++ rewrite Hop3. intros Hx3. apply elem_of_app in Hx3 as [Hx3|Hx3].
              ** apply Hxn. apply elem_of_app. left. exact Hx3.
              ** apply Hfr3 in Hx3. rewrite Hx3 in Hx. destruct Hx; discriminate.
        -- intros Hx3. apply list_elem_of_singleton in Hx3. subst x.
           apply Hxn. apply elem_of_app. right. left.
      * intros x ox Hx Hox. rewrite resumptions_cons. simpl.
        apply elem_of_app in Hx as [Hx|Hx].
        -- assert (Hne : x <> id) by (intros ->; exact (Hidl Hx)).
           rewrite bool_decide_eq_false_2.
           ++ rewrite resumptions_app, resumptions_adds. simpl. apply Hin.
              ** rewrite Hop3. apply elem_of_app. left. exact Hx.
              ** apply Hst3; assumption.
           ++ intros Hx3. apply list_elem_of_singleton in Hx3. congruence.
        -- apply list_elem_of_singleton in Hx. subst x.
           assert (ox = o) by congruence. subst ox.
           rewrite bool_decide_eq_true_2 by left.
           rewrite resumptions_app, resumptions_adds. simpl. f_equal.
           apply Hout; [exact Hid3|]. rewrite Hop3. intros Hx3.
           apply elem_of_app in Hx3 as [Hx3|Hx3]; [exact (Hidl Hx3)|exact (Hida Hx3)].
Qed.

End with_pump.

End reactor_destroy.


Section reactor_results.

Lemma handle_set_exception (e : exception_ptr) (o : operation) :
  handle (set_exception e o) = handle o.
Proof. reflexivity. Qed.

Lemma handle_pass_fix (out : poll_outcome) (o : operation) : handle (pass_fix out o) = handle o.
Proof.
  unfold pass_fix, fail_with, classify.
  repeat match goal with |- context [if ?b then _ else _] => destruct b end; reflexivity.
Qed.

Section passes.
Variable env : environment.
Variable pump : world -> option world.
Variable pump_all : world -> option world.

(** The resume loop returns when the coroutines it resumes never pump the
    engine, and all they do to the registry is to add to it. *)
Lemma resume_all_returns (l : list nat) : forall w,
  wf w -> pull_free_world w ->
  (forall id, id ∈ l -> exists o h, store w !! id = Some o /\ handle o = Some h
                                    /\ forall ex rev, pull_free (h ex rev)) ->
  exists w' added,
    resume_all env pump pump_all l w = Some w' /\ operations w' = operations w ++ added.
Proof.
  induction l as [|id l IH]; intros w Hwf Hpf Hl.
  { exists w, []. rewrite app_nil_r. split; reflexivity. }
  destruct (Hl id) as (o & h & Ho & Hh & Hfree); [left|].
  destruct (exec_pull_free env pump pump_all (h (exception o) (revents o)) (Hfree _ _)
              (log (ev_resume id (exception o) (revents o) (operations w)) w))
    as (w1 & a1 & He & Hwf1 & Hpf1 & Hop1 & Hst & _).
  { eapply same_engine_wf; [apply same_engine_log|exact Hwf]. }
  { eapply same_engine_pull_free; [apply same_engine_log|exact Hpf]. }
  destruct (IH w1 Hwf1 Hpf1) as (w' & a2 & Hw' & Hop2).
  { intros x Hx. destruct (Hl x) as (ox & hx & Hox & Hhx & Hfx); [right; exact Hx|].
    exists ox, hx. split; [apply Hst; exact Hox|]. split; assumption. }
  exists w', (a1 ++ a2). split.
  - simpl. unfold resume. rewrite Ho. simpl. rewrite Hh. simpl. rewrite He. simpl. exact Hw'.
  - rewrite Hop2, Hop1, app_assoc. reflexivity.
Qed.

(** A pass of [do_pull] returns when [poll_fn] does and no suspended
    coroutine pumps the engine once resumed; the registry at its end is the one
    the resume loop started from, followed by what the resumed coroutines
    registered. *)
Lemma do_pull_returns (poll_fn : poll_function) (w : world) (fds : list pollfd)
    (out : poll_outcome) :
  wf w -> pull_free_world w -> build_fds w = Some fds -> poll_fn fds w = Some out ->
  exists w' added,
    do_pull env pump pump_all poll_fn w = Some w'
    /\ operations w' = operations (snd (after_poll env out w)) ++ added.
Proof.
  intros Hwf Hpf Hfds Hout. unfold do_pull. rewrite Hfds. simpl. rewrite Hout. simpl.
  rewrite after_poll_log.
  destruct (after_poll_ok env out w Hwf) as (Hwf1 & Hnd & Hl & _ & _).
  set (e := ev_pull (operations w)).
  assert (Hst : forall id, id ∈ operations w ->
            exists o o1, store w !! id = Some o
                         /\ store (snd (after_poll env out w)) !! id = Some o1
                         /\ handle o1 = handle o).
  { intros id Hid. apply list_elem_of_lookup_1 in Hid as Hi. destruct Hi as [i Hi].
    destruct (wf_lookup w id Hwf Hid) as (o & Ho & _).
    pose proof (after_poll_spec env out w i id o (wf_nodup _ Hwf) Hi Ho) as Hsp. simpl in Hsp.
    exists o. destruct (pass_pred env out (seen out i o)).
    - exists (pass_fix out (seen out i o)). split; [exact Ho|]. split; [tauto|].
      rewrite handle_pass_fix. reflexivity.
    - exists (seen out i o). split; [exact Ho|]. split; [tauto|reflexivity]. }
  apply (resume_all_returns (fst (after_poll env out w))
           (log e (snd (after_poll env out w)))).
  - eapply same_engine_wf; [apply same_engine_log|exact Hwf1].
  - intros id o1 h ex rev Hid Ho1 Hh. simpl in Hid, Ho1.
    assert (Hidw : id ∈ operations w).
    { rewrite after_poll_unfold in Hid. unfold select in Hid. simpl in Hid.
      apply list_elem_of_filter in Hid. tauto. }
    destruct (Hst id Hidw) as (o & o1' & Ho & Ho1' & Hh').
    assert (o1' = o1) by congruence. subst o1'.
    eapply Hpf; [exact Hidw|exact Ho|]. congruence.
  - intros id Hid. destruct (Hl id Hid) as [Hidw _].
    destruct (Hst id Hidw) as (o & o1 & Ho & Ho1 & Hh).
    destruct (wf_lookup w id Hwf Hidw) as (o' & Ho' & Hr).
    assert (o' = o) by congruence. subst o'.
    destruct (registrable_handle o Hr) as [h Hho].
    exists o1, h. split; [exact Ho1|]. split; [congruence|].
    intros ex rev. eapply Hpf; eassumption.
Qed.

End passes.

(** [pull()] returns when no suspended coroutine pumps the engine once
    resumed and the first call of [::poll] is not interrupted by a signal. *)
Lemma pull_returns (env : environment) (n : nat) (w : world) (fds : list pollfd) :
  wf w -> pull_free_world w -> build_fds w = Some fds ->
  (sys_ret (sys_poll env (tick w) fds 0) =? -1)
  && (sys_errno (sys_poll env (tick w) fds 0) =? EINTR) = false ->
  exists w', pull env (S n) w = Some w'.
Proof.
  intros Hwf Hpf Hfds Hsys. rewrite pull_unfold.
  edestruct (do_pull_returns env (pull env n) (pull_all env n) (pull_poll_fn env (S n)) w fds)
    as (w' & added & Hd & _); [exact Hwf|exact Hpf|exact Hfds| |exists w'; exact Hd].
  unfold pull_poll_fn. cbn [nonblocking_poll]. rewrite Hsys. reflexivity.
Qed.

Section one_pass.
Variable env : environment.
Variable n : nat.
Variable poll_fn : poll_function.
Variable w : world.
Variable fds : list pollfd.
Variable out : poll_outcome.
Hypothesis Hwf : wf w.
Hypothesis Hfds : build_fds w = Some fds.
Hypothesis Hout : poll_fn fds w = Some out.

(** The pass returns when no suspended coroutine pumps the engine once
    resumed, and no operation leaves the registry after the start of the
    resume loop. *)
Lemma pass_returns :
  pull_free_world w ->
  exists w' added,
    do_pull env (pull env n) (pull_all env n) poll_fn w = Some w'
    /\ operations w' = operations (snd (after_poll env out w)) ++ added.
Proof. intros Hpf. eapply do_pull_returns; eassumption. Qed.

(** The pass seen from one registered operation: when the predicate of the
    pass holds of it, it is resumed exactly once between [w] and [w'], with
    the exception the loop over [to_resume] stored and the [revents] copied
    back from [poll_fn], and it is out of the registry from the moment the
    resume loop starts; otherwise it is in the registry when the resume loop
    starts and not among the operations that loop resumes. *)
Lemma pass_operation (w' : world) (i id : nat) (o : operation) :
  do_pull env (pull env n) (pull_all env n) poll_fn w = Some w' ->
  operations w !! i = Some id -> store w !! id = Some o ->
  if pass_pred env out (seen out i o)
  then ((id ∈ fst (after_poll env out w))
        /\ (id ∉ operations (snd (after_poll env out w)))
        /\ (id ∉ operations w')
        /\ resumptions [id] (new_events w w')
           = [(id, exception (pass_fix out (seen out i o)), po_revents out i)])
  else ((id ∉ fst (after_poll env out w))
        /\ (id ∈ operations (snd (after_poll env out w)))
        /\ store (snd (after_poll env out w)) !! id = Some (seen out i o)).
Proof.
  intros Hpass Hi Ho.
  pose proof (after_poll_spec env out w i id o (wf_nodup _ Hwf) Hi Ho) as Hsp. simpl in Hsp.
  destruct (pass_pred env out (seen out i o)) eqn:Hp; [|exact Hsp].
  destruct Hsp as (Hin & Hnin & Hst).
  destruct (do_pull_pass env (pull env n) (pull_all env n) (pull_ok env n)
              (pull_all_advances env n) poll_fn w w' fds out Hwf Hfds Hout Hpass)
    as (_ & evs & Ha & Hm & _ & Hrem).
  split; [exact Hin|]. split; [exact Hnin|]. split; [exact (Hrem id Hin)|].
  rewrite (new_events_app w w' _ (adv_trace _ _ _ Ha)).
  rewrite resumptions_cons. simpl.
  rewrite (resumptions_single id _ evs Hin).
  destruct (after_poll_ok env out w Hwf) as (_ & Hnd & _).
  rewrite (found_single _ id _ _ _ Hnd Hin Hst Hm).
  unfold pass_fix, seen, fail_with, classify.
  repeat match goal with |- context [if ?b then _ else _] => destruct b end; reflexivity.
Qed.

Lemma registered_exception (id : nat) (o : operation) (i : nat) :
  operations w !! i = Some id -> store w !! id = Some o -> exception o = None.
Proof.
  intros Hi Ho. apply list_elem_of_lookup_2 in Hi.
  destruct (wf_lookup w id Hwf Hi) as (o' & Ho' & Hr).
  assert (o' = o) by congruence. subst o'. apply registrable_exception. exact Hr.
Qed.

(** C2: a pass whose [poll_fn] returned -1.  Every registered operation
    with a descriptor is taken out of the registry and resumed exactly once,
    finding the [std::system_error] made from [errno]; every registered pure
    timer whose deadline has passed is taken out and resumed exactly once,
    finding no exception; every pure timer whose deadline has not passed is
    in the registry when the resume loop starts and is not resumed by
    it.  The pass returns when no
    suspended coroutine pumps the engine once resumed, and its registry is then
    the one the resume loop started from followed by the operations the
    resumed coroutines registered. *)
Theorem pull_syscall_failure :
  po_ret out = -1 ->
  (pull_free_world w ->
   exists w' added,
     do_pull env (pull env n) (pull_all env n) poll_fn w = Some w'
     /\ operations w' = operations (snd (after_poll env out w)) ++ added)
  /\ forall w' i id o,
  do_pull env (pull env n) (pull_all env n) poll_fn w = Some w' ->
  operations w !! i = Some id -> store w !! id = Some o ->
  (fd o <> -1 ->
     (id ∉ operations (snd (after_poll env out w)))
     /\ (id ∉ operations w')
     /\ resumptions [id] (new_events w w')
        = [(id, Some (system_error (po_errno out) "poll"), po_revents out i)])
  /\ (fd o = -1 -> timeout o <= pass_now env out ->
        (id ∉ operations (snd (after_poll env out w)))
        /\ (id ∉ operations w')
        /\ resumptions [id] (new_events w w') = [(id, None, po_revents out i)])
  /\ (fd o = -1 -> pass_now env out < timeout o ->
        (id ∈ operations (snd (after_poll env out w)))
        /\ (id ∉ fst (after_poll env out w))).
Proof.
  intros Hret. split; [exact pass_returns|]. intros w' i id o Hpass Hi Ho.
  pose proof (pass_operation w' i id o Hpass Hi Ho) as Hp.
  pose proof (registered_exception id o i Hi Ho) as Hex.
  unfold pass_pred, pass_fix in Hp. rewrite Hret in Hp. simpl in Hp.
  unfold to_remove_failed, fail_with, seen in Hp. simpl in Hp.
  split; [|split].
  - intros Hfd. apply Z.eqb_neq in Hfd. rewrite Hfd in Hp. simpl in Hp. tauto.
  - intros Hfd Hto. apply Z.eqb_eq in Hfd. apply Z.leb_le in Hto.
    rewrite Hfd, Hto in Hp. simpl in Hp. rewrite Hex in Hp. tauto.
  - intros Hfd Hto. apply Z.eqb_eq in Hfd. apply Z.leb_gt in Hto.
    rewrite Hfd, Hto in Hp. simpl in Hp. tauto.
Qed.

(** C3: a registered operation with a descriptor that a pass resumes and
    for which [poll_fn] reported events (a failed [poll_fn] reports none) is
    resumed exactly once and finds one exception at most, chosen from the
    flags of its [revents] in the order [POLLERR], [POLLHUP], [POLLNVAL]; the
    exception carries the descriptor of the operation; without any of the
    three flags no exception is stored and [await_resume] returns the event
    mask.  The pass returns when no
    suspended coroutine pumps the engine once resumed, and its registry is then
    the one the resume loop started from followed by the operations the
    resumed coroutines registered. *)
Theorem pull_condition_priority :
  (po_ret out = -1 -> forall i, po_revents out i = 0) ->
  (pull_free_world w ->
   exists w' added,
     do_pull env (pull env n) (pull_all env n) poll_fn w = Some w'
     /\ operations w' = operations (snd (after_poll env out w)) ++ added)
  /\ forall w' i id o,
  do_pull env (pull env n) (pull_all env n) poll_fn w = Some w' ->
  operations w !! i = Some id -> store w !! id = Some o ->
  fd o <> -1 -> id ∈ fst (after_poll env out w) -> po_revents out i <> 0 ->
  let rev := po_revents out i in
  let ex := if has_flag rev POLLERR then Some (pollerr_error (fd o))
            else if has_flag rev POLLHUP then Some (pollhup_error (fd o))
            else if has_flag rev POLLNVAL then Some (pollnval_error (fd o))
            else None in
  resumptions [id] (new_events w w') = [(id, ex, rev)]
  /\ (forall e, ex = Some e -> poll_error_fd e = Some (fd o))
  /\ awaiter_resume poll_until_awaiter ex rev
     = match ex with Some e => throws e | None => returns rev end.
Proof.
  intros Hfail. split; [exact pass_returns|].
  intros w' i id o Hpass Hi Ho Hfd Hin Hrev rev ex.
  assert (Hret : po_ret out <> -1) by (intros Hr; exact (Hrev (Hfail Hr i))).
  pose proof (pass_operation w' i id o Hpass Hi Ho) as Hp.
  pose proof (registered_exception id o i Hi Ho) as Hex.
  destruct (pass_pred env out (seen out i o)); [|tauto].
  destruct Hp as (_ & _ & _ & Hp). split; [|split].
  - rewrite Hp. unfold pass_fix. apply Z.eqb_neq in Hret. rewrite Hret.
    unfold classify, seen. simpl. apply Z.eqb_neq in Hfd. rewrite Hfd. simpl.
    subst ex rev. repeat match goal with |- context [if ?b then _ else _] => destruct b end;
      simpl; rewrite ?Hex; reflexivity.
  - subst ex. intros e He.
    repeat match type of He with context [if ?b then _ else _] => destruct b end;
      try discriminate; injection He as <-; reflexivity.
  - destruct ex; reflexivity.
Qed.

(** C4 (as amended): a pass whose [poll_fn] did not fail resumes a
    registered operation exactly when its deadline has passed or, for an
    operation with a descriptor, its [revents] meet its [events] or carry
    [POLLERR], [POLLHUP] or [POLLNVAL].  Such an operation is taken out of the
    registry and resumed exactly once in the pass; every other one is in the
    registry when the resume loop starts.  When no registered operation is
    ready or expired the pass returns, resumes nothing and leaves the registry
    as it was.  The pass returns when no
    suspended coroutine pumps the engine once resumed, and its registry is then
    the one the resume loop started from followed by the operations the
    resumed coroutines registered. *)
Theorem pull_resolves_ready_or_expired :
  po_ret out <> -1 ->
  (pull_free_world w ->
   exists w' added,
     do_pull env (pull env n) (pull_all env n) poll_fn w = Some w'
     /\ operations w' = operations (snd (after_poll env out w)) ++ added)
  /\ (forall w' i id o,
        do_pull env (pull env n) (pull_all env n) poll_fn w = Some w' ->
        operations w !! i = Some id -> store w !! id = Some o ->
        (id ∈ fst (after_poll env out w) <-> ready_or_expired env out i o)
        /\ (ready_or_expired env out i o ->
              (id ∉ operations (snd (after_poll env out w)))
              /\ (id ∉ operations w')
              /\ exists ex, resumptions [id] (new_events w w') = [(id, ex, po_revents out i)])
        /\ (~ ready_or_expired env out i o -> id ∈ operations (snd (after_poll env out w))))
  /\ ((forall i id o, operations w !! i = Some id -> store w !! id = Some o ->
         ~ ready_or_expired env out i o) ->
      exists w', do_pull env (pull env n) (pull_all env n) poll_fn w = Some w'
                 /\ operations w' = operations w
                 /\ new_events w w' = [ev_pull (operations w)]).
Proof.
  intros Hret. split; [exact pass_returns|].
  assert (Hiff : forall i o, pass_pred env out (seen out i o) = true <-> ready_or_expired env out i o).
  { intros i o. unfold pass_pred, ready_or_expired. apply Z.eqb_neq in Hret. rewrite Hret.
    unfold to_remove_ready, seen. simpl.
    rewrite !has_flag_lor. rewrite orb_true_iff, andb_true_iff, !orb_true_iff.
    rewrite negb_true_iff, Z.eqb_neq, Z.leb_le.
    unfold has_flag. rewrite !negb_true_iff, !Z.eqb_neq. tauto. }
  assert (Hsel : forall i id o, operations w !! i = Some id -> store w !! id = Some o ->
            (id ∈ fst (after_poll env out w) <-> ready_or_expired env out i o)).
  { intros i id o Hi Ho.
    pose proof (after_poll_spec env out w i id o (wf_nodup _ Hwf) Hi Ho) as Hsp. simpl in Hsp.
    specialize (Hiff i o). destruct (pass_pred env out (seen out i o)).
    - tauto.
    - assert (~ ready_or_expired env out i o) by (rewrite <- Hiff; discriminate). tauto. }
  split.
  - intros w' i id o Hpass Hi Ho. pose proof (pass_operation w' i id o Hpass Hi Ho) as Hp.
    split; [apply Hsel; assumption|].
    specialize (Hiff i o). destruct (pass_pred env out (seen out i o)).
    + destruct Hp as (H1 & H2 & H3 & H4). split; [|tauto].
      intros _. split; [exact H2|]. split; [exact H3|]. eauto.
    + destruct Hp as (H1 & H2 & H3).
      assert (~ ready_or_expired env out i o) by (rewrite <- Hiff; discriminate).
      split; [tauto|]. intros _. exact H2.
  - intros Hnone.
    assert (Hnil : fst (after_poll env out w) = []).
    { apply elem_of_nil_inv. intros x Hx.
      destruct (after_poll_ok env out w Hwf) as (_ & _ & Hl & _).
      destruct (Hl x Hx) as [Hxin _]. apply list_elem_of_lookup_1 in Hxin as [i Hi].
      destruct (wf_lookup w x Hwf (list_elem_of_lookup_2 _ _ _ Hi)) as (o & Ho & _).
      apply (Hnone i x o Hi Ho). apply (Hsel i x o Hi Ho). exact Hx. }
    assert (Hops : operations (snd (after_poll env out w)) = operations w).
    { rewrite after_poll_unfold. unfold select. simpl.
      apply list_filter_all. intros x Hx Hp.
      assert (Hin : x ∈ fst (after_poll env out w)).
      { rewrite after_poll_unfold. unfold select. simpl. apply list_elem_of_filter. tauto. }
      rewrite Hnil in Hin. inversion Hin. }
    exists (log (ev_pull (operations w)) (snd (after_poll env out w))).
    split; [|split].
    + unfold do_pull. rewrite Hfds. simpl. rewrite Hout. simpl.
      rewrite after_poll_log, Hnil. reflexivity.
    + exact Hops.
    + destruct (after_poll_ok env out w Hwf) as (_ & _ & _ & _ & Htr).
      apply new_events_app. simpl. rewrite Htr. reflexivity.
Qed.

(** C6: an operation that a pass resumes only because its deadline has
    passed (a pure timer; or, when [poll_fn] did not fail, an operation whose
    [revents] neither meet its [events] nor carry one of the three flags) is
    resumed exactly once and finds no exception and, [poll] keeping its
    promise about [revents], an empty event mask: [await_resume] of every
    awaiter returns normally.  The pass returns when no
    suspended coroutine pumps the engine once resumed, and its registry is then
    the one the resume loop started from followed by the operations the
    resumed coroutines registered. *)
Theorem deadline_expiry_is_not_a_failure :
  poll_contract w out ->
  (pull_free_world w ->
   exists w' added,
     do_pull env (pull env n) (pull_all env n) poll_fn w = Some w'
     /\ operations w' = operations (snd (after_poll env out w)) ++ added)
  /\ forall w' i id o,
  do_pull env (pull env n) (pull_all env n) poll_fn w = Some w' ->
  operations w !! i = Some id -> store w !! id = Some o ->
  timeout o <= pass_now env out ->
  (fd o = -1
   \/ (po_ret out <> -1
       /\ Z.land (po_revents out i)
                 (Z.lor (Z.lor (Z.lor POLLERR POLLHUP) POLLNVAL) (events o)) = 0)) ->
  (id ∉ operations w')
  /\ resumptions [id] (new_events w w') = [(id, None, 0)]
  /\ awaiter_resume wait_until_awaiter None 0 = returns tt
  /\ awaiter_resume poll_until_awaiter None 0 = returns 0
  /\ awaiter_resume poll_once_awaiter None 0 = returns 0.
Proof.
  intros Hpc. split; [exact pass_returns|]. intros w' i id o Hpass Hi Ho Hto Hsolely.
  pose proof (pass_operation w' i id o Hpass Hi Ho) as Hp.
  pose proof (registered_exception id o i Hi Ho) as Hex.
  destruct (Hpc i id o Hi Ho) as [Hneg Hsub].
  assert (Hrev : po_revents out i = 0).
  { destruct Hsolely as [Hfd|[_ Hz]]; [apply Hneg; lia|]. rewrite <- Hsub. exact Hz. }
  assert (Hpred : pass_pred env out (seen out i o) = true).
  { unfold pass_pred. apply Z.leb_le in Hto.
    destruct (po_ret out =? -1); unfold to_remove_failed, to_remove_ready, seen; simpl;
      rewrite Hto; apply orb_true_r. }
  rewrite Hpred in Hp. destruct Hp as (_ & _ & Hrem & Hp).
  split; [exact Hrem|]. split; [|repeat split].
  rewrite Hp, Hrev. repeat f_equal.
  unfold pass_fix. destruct Hsolely as [Hfd|[Hret Hz]].
  - destruct (po_ret out =? -1).
    + rewrite fail_with_timer by exact Hfd. exact Hex.
    + rewrite classify_timer by exact Hfd. exact Hex.
  - apply Z.eqb_neq in Hret. rewrite Hret.
    rewrite classify_no_flag; [exact Hex|]. apply has_flag_false. exact Hz.
Qed.

(** C10: one pass of [do_pull].  The operations to resume are the
    registered operations of which the predicate of the pass holds, in
    registration order, and the registry the resume loop starts from holds
    the others.  After the event of the pass itself the log of the pass shows
    each of the operations to resume resumed exactly once, in that order,
    finding what was stored before the loop started; no event of the pass,
    those of passes started by resumed coroutines included, saw one of them
    in the registry; no operation at all is resumed twice in the pass; and
    none of them is in the registry at the end.  The pass returns when no
    suspended coroutine pumps the engine once resumed, and its registry is then
    the one the resume loop started from followed by the operations the
    resumed coroutines registered. *)
Theorem pull_removes_before_resuming :
  let observed := write_revents (po_revents out) 0 (operations w) (store w) in
  let to_resume := fst (after_poll env out w) in
  let at_loop := snd (after_poll env out w) in
  to_resume = filter (fun id => Is_true (holds_at observed (pass_pred env out) id)) (operations w)
  /\ operations at_loop
     = filter (fun id => ~ Is_true (holds_at observed (pass_pred env out) id)) (operations w)
  /\ (pull_free_world w ->
   exists w' added,
     do_pull env (pull env n) (pull_all env n) poll_fn w = Some w'
     /\ operations w' = operations (snd (after_poll env out w)) ++ added)
  /\ forall w', do_pull env (pull env n) (pull_all env n) poll_fn w = Some w' ->
     exists evs,
       new_events w w' = ev_pull (operations w) :: evs
       /\ mapM (found (store at_loop)) to_resume = Some (resumptions to_resume evs)
       /\ (forall ev x, ev ∈ evs -> x ∈ registry_of ev -> x ∉ to_resume)
       /\ NoDup (resumed_ids evs)
       /\ (forall x, x ∈ to_resume -> x ∉ operations w').
Proof.
  intros observed to_resume at_loop. subst to_resume at_loop.
  split; [rewrite after_poll_unfold; reflexivity|].
  split; [rewrite after_poll_unfold; reflexivity|].
  split; [exact pass_returns|]. intros w' Hpass.
  destruct (do_pull_pass env (pull env n) (pull_all env n) (pull_ok env n)
              (pull_all_advances env n) poll_fn w w' fds out Hwf Hfds Hout Hpass)
    as (_ & evs & Ha & Hm & Hreg & Hrem).
  exists evs. split; [apply new_events_app; exact (adv_trace _ _ _ Ha)|].
  split; [exact Hm|]. split; [exact Hreg|]. split; [|exact Hrem].
  pose proof (adv_nodup _ _ _ Ha) as Hn. exact Hn.
Qed.

End one_pass.
End reactor_results.


Section reactor_awaiters.
Variable env : environment.
Variable pump : world -> option world.
Variable pump_all : world -> option world.

(** C9: an awaiter made by [wait_until], [wait_for], [poll_until],
    [poll_for] or [poll] whose deadline is not after the reading of the clock
    in [await_ready] is ready: the [co_await] expression does not suspend the
    coroutine and has the value of [await_resume], which returns normally;
    [await_suspend] is not called, so the registry, the operation objects
    known to the engine and the log are as before (nothing is registered and
    no pass of the engine is needed), and the coroutine runs on at once. *)
Theorem await_past_deadline_is_ready {R : Type} (a : awaitable R) (k : result R -> code)
    (h : coroutine_handle) (w : world) (t : Z) :
  deadline env a w = Some t -> t <= awaiting_time env a w ->
  exists v w2,
    co_await (protocol := engine_awaiter env) (fst (make_awaiter env a w)) h
      (snd (make_awaiter env a w))
      = (not_suspended (returns v), w2)
    /\ operations w2 = operations w
    /\ store w2 = store w
    /\ trace w2 = trace w
    /\ exec env pump pump_all (co_await_engine a k) w = exec env pump pump_all (k (returns v)) w2.
Proof.
  intros Hd Ht. unfold awaiting_time in Ht.
  destruct a; simpl in Hd; try discriminate; injection Hd as <-; simpl in Ht;
    apply Z.leb_le in Ht;
    unfold co_await; simpl; unfold awaiter_ready; simpl; rewrite Ht; simpl;
    eexists; eexists; (split; [reflexivity|]); repeat split.
  all: unfold co_await; simpl; unfold awaiter_ready; simpl; rewrite Ht; reflexivity.
Qed.

End reactor_awaiters.

(* ===================================================================== *)
(** * The properties on the example engines *)
(* ===================================================================== *)

Import Scenario.


Lemma pull_free_world_intro (w : world) :
  Forall (fun id => forall o h ex rev, store w !! id = Some o -> handle o = Some h ->
                    pull_free (h ex rev)) (operations w) ->
  pull_free_world w.
Proof.
  intros H id o h ex rev Hin Ho Hh. rewrite Forall_forall in H. eapply H; eassumption.
Qed.

Ltac fetch H := vm_compute in H; injection H as <-.

Lemma pull_syscall_failure_witness :
  let env := scenario_env poll_failed in
  let w := scenario poll_failed in
  let out := scenario_out poll_failed in
  wf w /\ build_fds w = Some scenario_fds
  /\ pull_poll_fn env 2 scenario_fds w = Some out
  /\ po_ret out = -1
  /\ exists w',
       pull env 2 w = Some w'
       /\ resumptions [0%nat] (new_events w w') = [(0%nat, Some (system_error 12 "poll"), 0)]
       /\ resumptions [2%nat] (new_events w w') = [(2%nat, None, 0)]
       /\ 3%nat ∈ operations (snd (after_poll env out w)).
Proof.
  intros env w out.
  assert (Hwf : wf w) by (apply wf_check_sound; vm_compute; reflexivity).
  assert (Hfds : build_fds w = Some scenario_fds) by (vm_compute; reflexivity).
  assert (Hout : pull_poll_fn env 2 scenario_fds w = Some out) by reflexivity.
  assert (Hret : po_ret out = -1) by reflexivity.
  split; [exact Hwf|]. split; [exact Hfds|]. split; [exact Hout|]. split; [exact Hret|].
  destruct (pull_syscall_failure env 1 (pull_poll_fn env 2) w scenario_fds out Hwf Hfds Hout Hret)
    as [_ H].
  destruct (pull env 2 w) as [w'|] eqn:Hp; [|vm_compute in Hp; discriminate Hp].
  exists w'. split; [reflexivity|].
  destruct (store w !! 0%nat) as [o0|] eqn:H0; [|vm_compute in H0; discriminate H0].
  destruct (store w !! 2%nat) as [o2|] eqn:H2; [|vm_compute in H2; discriminate H2].
  destruct (store w !! 3%nat) as [o3|] eqn:H3; [|vm_compute in H3; discriminate H3].
  destruct (H w' 0%nat 0%nat o0 Hp eq_refl H0) as (A & _ & _).
  destruct (H w' 2%nat 2%nat o2 Hp eq_refl H2) as (_ & B & _).
  destruct (H w' 3%nat 3%nat o3 Hp eq_refl H3) as (_ & _ & C).
  fetch H0. fetch H2. fetch H3.
  split; [apply A; discriminate|].
  split; [apply B; [reflexivity|vm_compute; discriminate]|].
  apply C; reflexivity.
Defined.

Lemma pull_condition_priority_witness :
  let env := scenario_env poll_flags in
  let w := scenario poll_flags in
  let out := scenario_out poll_flags in
  wf w /\ build_fds w = Some scenario_fds
  /\ pull_poll_fn env 2 scenario_fds w = Some out
  /\ (po_ret out = -1 -> forall i, po_revents out i = 0)
  /\ exists w',
       pull env 2 w = Some w'
       /\ resumptions [0%nat] (new_events w w') = [(0%nat, Some (pollerr_error 3), 25)]
       /\ resumptions [1%nat] (new_events w w') = [(1%nat, Some (pollhup_error 4), 48)].
Proof.
  intros env w out.
  assert (Hwf : wf w) by (apply wf_check_sound; vm_compute; reflexivity).
  assert (Hfds : build_fds w = Some scenario_fds) by (vm_compute; reflexivity).
  assert (Hout : pull_poll_fn env 2 scenario_fds w = Some out) by reflexivity.
  assert (Hfail : po_ret out = -1 -> forall i, po_revents out i = 0)
    by (intros Hr; vm_compute in Hr; discriminate Hr).
  split; [exact Hwf|]. split; [exact Hfds|]. split; [exact Hout|]. split; [exact Hfail|].
  destruct (pull_condition_priority env 1 (pull_poll_fn env 2) w scenario_fds out
              Hwf Hfds Hout Hfail) as [_ H].
  destruct (pull env 2 w) as [w'|] eqn:Hp; [|vm_compute in Hp; discriminate Hp].
  exists w'. split; [reflexivity|].
  assert (Hl : fst (after_poll env out w) = [0; 1; 2]%nat) by (vm_compute; reflexivity).
  destruct (store w !! 0%nat) as [o0|] eqn:H0; [|vm_compute in H0; discriminate H0].
  destruct (store w !! 1%nat) as [o1|] eqn:H1; [|vm_compute in H1; discriminate H1].
  pose proof (H w' 0%nat 0%nat o0 Hp eq_refl H0) as A.
  pose proof (H w' 1%nat 1%nat o1 Hp eq_refl H1) as B.
  rewrite Hl in A, B.
  fetch H0. fetch H1.
  split.
  - apply A; [discriminate|left|vm_compute; discriminate].
  - apply B; [discriminate|right; left|vm_compute; discriminate].
Defined.

Lemma pull_resolves_ready_or_expired_witness :
  let env := scenario_env poll_writable in
  let w := scenario poll_writable in
  let out := scenario_out poll_writable in
  wf w /\ build_fds w = Some scenario_fds
  /\ pull_poll_fn env 2 scenario_fds w = Some out
  /\ po_ret out <> -1
  /\ exists w',
       pull env 2 w = Some w'
       /\ (exists ex, resumptions [1%nat] (new_events w w') = [(1%nat, ex, POLLOUT)])
       /\ (0%nat ∉ fst (after_poll env out w))
       /\ 0%nat ∈ operations (snd (after_poll env out w)).
Proof.
  intros env w out.
  assert (Hwf : wf w) by (apply wf_check_sound; vm_compute; reflexivity).
  assert (Hfds : build_fds w = Some scenario_fds) by (vm_compute; reflexivity).
  assert (Hout : pull_poll_fn env 2 scenario_fds w = Some out) by reflexivity.
  assert (Hret : po_ret out <> -1) by (vm_compute; discriminate).
  split; [exact Hwf|]. split; [exact Hfds|]. split; [exact Hout|]. split; [exact Hret|].
  destruct (pull_resolves_ready_or_expired env 1 (pull_poll_fn env 2) w scenario_fds out
              Hwf Hfds Hout Hret) as (_ & H & _).
  destruct (pull env 2 w) as [w'|] eqn:Hp; [|vm_compute in Hp; discriminate Hp].
  exists w'. split; [reflexivity|].
  destruct (store w !! 0%nat) as [o0|] eqn:H0; [|vm_compute in H0; discriminate H0].
  destruct (store w !! 1%nat) as [o1|] eqn:H1; [|vm_compute in H1; discriminate H1].
  destruct (H w' 0%nat 0%nat o0 Hp eq_refl H0) as (A1 & _ & A3).
  destruct (H w' 1%nat 1%nat o1 Hp eq_refl H1) as (_ & B2 & _).
  fetch H0. fetch H1.
  assert (Hn : ~ ready_or_expired env out 0 (make_operation (Some (fun _ _ => finish)) 3 POLLIN 1000)).
  { unfold ready_or_expired. vm_compute. intros [[_ [C|[C|[C|C]]]]|C]; apply C; reflexivity. }
  split; [|split].
  - apply B2. left. split; [discriminate|]. right. right. right. discriminate.
  - intros Hin. apply Hn. apply A1. exact Hin.
  - apply A3. exact Hn.
Defined.

(** C4, as stated, fails when [::poll] fails: the operation at address 0
    waits for [POLLIN] on descriptor 3 until time 1000; [::poll] returns -1
    with [errno = ENOMEM] and reports no events, and the clock reads 100.  The
    operation is neither ready nor expired, and the pass of [pull] takes it
    out of the registry and resumes it. *)
Lemma pull_resolves_unready_operation_when_poll_fails :
  let env := scenario_env poll_failed in
  let w := scenario poll_failed in
  let out := scenario_out poll_failed in
  exists w' o,
    pull env 2 w = Some w'
    /\ build_fds w = Some scenario_fds
    /\ pull_poll_fn env 2 scenario_fds w = Some out
    /\ operations w !! 0%nat = Some 0%nat
    /\ store w !! 0%nat = Some o
    /\ ~ ready_or_expired env out 0 o
    /\ 0%nat ∈ fst (after_poll env out w)
    /\ (0%nat ∉ operations w')
    /\ resumptions [0%nat] (new_events w w') = [(0%nat, Some (system_error 12 "poll"), 0)].
Proof.
  intros env w out.
  destruct (pull env 2 w) as [w'|] eqn:Hp; [|vm_compute in Hp; discriminate Hp].
  destruct (store w !! 0%nat) as [o0|] eqn:H0; [|vm_compute in H0; discriminate H0].
  exists w', o0. split; [reflexivity|]. split; [vm_compute; reflexivity|].
  split; [reflexivity|]. split; [reflexivity|]. split; [reflexivity|].
  fetch H0. vm_compute in Hp. injection Hp as <-.
  split; [|split; [|split]].
  - unfold ready_or_expired. vm_compute. intros [[_ [C|[C|[C|C]]]]|C]; apply C; reflexivity.
  - assert (Hl : fst (after_poll env out w) = [0; 1; 2]%nat) by (vm_compute; reflexivity).
    rewrite Hl. left.
  - cbn [operations]. intros Hin. apply list_elem_of_In in Hin. simpl in Hin.
    destruct Hin as [C|[C|C]]; [discriminate C|discriminate C|exact C].
  - vm_compute. reflexivity.
Qed.

Lemma scenario_poll_contract :
  poll_contract (scenario poll_nothing) (scenario_out poll_nothing).
Proof.
  intros i id o Hi Ho. split; [intros _; reflexivity|]. apply Z.land_0_l.
Qed.

Lemma deadline_expiry_is_not_a_failure_witness :
  let env := scenario_env poll_nothing in
  let w := scenario poll_nothing in
  let out := scenario_out poll_nothing in
  wf w /\ build_fds w = Some scenario_fds
  /\ pull_poll_fn env 2 scenario_fds w = Some out
  /\ poll_contract w out
  /\ exists w',
       pull env 2 w = Some w'
       /\ (2%nat ∉ operations w')
       /\ resumptions [2%nat] (new_events w w') = [(2%nat, None, 0)].
Proof.
  intros env w out.
  assert (Hwf : wf w) by (apply wf_check_sound; vm_compute; reflexivity).
  assert (Hfds : build_fds w = Some scenario_fds) by (vm_compute; reflexivity).
  assert (Hout : pull_poll_fn env 2 scenario_fds w = Some out) by reflexivity.
  split; [exact Hwf|]. split; [exact Hfds|]. split; [exact Hout|].
  split; [exact scenario_poll_contract|].
  destruct (deadline_expiry_is_not_a_failure env 1 (pull_poll_fn env 2) w scenario_fds out
              Hwf Hfds Hout scenario_poll_contract) as [_ H].
  destruct (pull env 2 w) as [w'|] eqn:Hp; [|vm_compute in Hp; discriminate Hp].
  exists w'. split; [reflexivity|].
  destruct (store w !! 2%nat) as [o2|] eqn:H2; [|vm_compute in H2; discriminate H2].
  pose proof (H w' 2%nat 2%nat o2 Hp eq_refl H2) as A.
  fetch H2.
  destruct A as (A1 & A2 & _).
  - vm_compute. discriminate.
  - left. reflexivity.
  - split; [exact A1|exact A2].
Defined.

Lemma await_past_deadline_is_ready_witness :
  let env := scenario_env poll_nothing in
  let w := scenario poll_nothing in
  deadline env (wait_until 50) w = Some 50
  /\ 50 <= awaiting_time env (wait_until 50) w
  /\ exists w2,
       exec env (pull env 2) (pull_all env 2)
         (co_await_engine (wait_until 50) (fun _ => finish)) w = Some w2
       /\ operations w2 = operations w
       /\ trace w2 = trace w.
Proof.
  intros env w.
  assert (Hd : deadline env (wait_until 50) w = Some 50) by reflexivity.
  assert (Ht : 50 <= awaiting_time env (wait_until 50) w) by (vm_compute; discriminate).
  split; [exact Hd|]. split; [exact Ht|].
  destruct (await_past_deadline_is_ready env (pull env 2) (pull_all env 2) (wait_until 50)
              (fun _ => finish)
              (fun _ _ => finish) w 50 Hd Ht) as (v & w2 & _ & Ho & _ & Htr & He).
  exists w2. split; [exact He|]. split; [exact Ho|exact Htr].
Defined.

(** [wait_for] with the longest duration, on a clock that reads 10: the sum
    wraps around to a time point before the clock, so the await is ready at
    once and registers nothing. *)
Example wait_for_longest_duration_is_ready :
  let env := scenario_env poll_nothing in
  deadline env (wait_for time_point_max) new_engine = Some (-9223372036854775799)
  /\ exec env (fun _ => None) (fun _ => None)
       (co_await_engine (wait_for time_point_max) (fun _ => finish)) new_engine
     = Some (set_os 2 0 new_engine).
Proof. split; vm_compute; reflexivity. Qed.

Lemma pull_removes_before_resuming_witness :
  let env := scenario_env poll_writable in
  let w := scenario poll_writable in
  let out := scenario_out poll_writable in
  wf w /\ build_fds w = Some scenario_fds
  /\ pull_poll_fn env 2 scenario_fds w = Some out
  /\ fst (after_poll env out w) = [1; 2]%nat
  /\ operations (snd (after_poll env out w)) = [0; 3]%nat
  /\ exists w' evs,
       pull env 2 w = Some w'
       /\ new_events w w' = ev_pull [0; 1; 2; 3]%nat :: evs
       /\ resumptions [1; 2]%nat evs = [(1%nat, None, POLLOUT); (2%nat, None, 0)]
       /\ NoDup (resumed_ids evs)
       /\ (forall ev x, ev ∈ evs -> x ∈ registry_of ev -> x ∉ [1; 2]%nat).
Proof.
  intros env w out.
  assert (Hwf : wf w) by (apply wf_check_sound; vm_compute; reflexivity).
  assert (Hfds : build_fds w = Some scenario_fds) by (vm_compute; reflexivity).
  assert (Hout : pull_poll_fn env 2 scenario_fds w = Some out) by reflexivity.
  assert (Hl : fst (after_poll env out w) = [1; 2]%nat) by (vm_compute; reflexivity).
  assert (Hr : operations (snd (after_poll env out w)) = [0; 3]%nat) by (vm_compute; reflexivity).
  split; [exact Hwf|]. split; [exact Hfds|]. split; [exact Hout|].
  split; [exact Hl|]. split; [exact Hr|].
  destruct (pull_removes_before_resuming env 1 (pull_poll_fn env 2) w scenario_fds out
              Hwf Hfds Hout) as (_ & _ & _ & H).
  destruct (pull env 2 w) as [w'|] eqn:Hp; [|vm_compute in Hp; discriminate Hp].
  destruct (H w' Hp) as (evs & He & Hm & Hreg & Hnd & _).
  exists w', evs. split; [reflexivity|]. split; [exact He|].
  rewrite Hl in Hm, Hreg. split; [|split; [exact Hnd|exact Hreg]].
  assert (Hf : mapM (found (store (snd (after_poll env out w)))) [1; 2]%nat
               = Some [(1%nat, None, POLLOUT); (2%nat, None, 0)]) by (vm_compute; reflexivity).
  rewrite Hf in Hm. injection Hm as Hm. symmetry. exact Hm.
Defined.

Lemma teardown_world_pull_free : pull_free_world teardown_world.
Proof.
  apply pull_free_world_intro.
  assert (Hops : operations teardown_world = [0; 1; 2]%nat) by (vm_compute; reflexivity).
  rewrite Hops.
  repeat constructor; intros o h ex rev Ho Hh; vm_compute in Ho; injection Ho as <-;
    injection Hh as <-; simpl; auto.
Qed.

(** C5, the case left out: the coroutine of operation 1, resumed by the
    destructor with the exception of the destructor, calls [pull()]; that
    pass finds the timer 0 expired, removes it and resumes it with no
    exception.  The destructor then finds the registry empty: operation 0
    was registered when the destructor began and never sees its
    exception. *)
Lemma destroy_resolves_normally_under_reentrant_pull :
  exists w' o,
    destroy pumping_env 2 pumping_world = Some w'
    /\ wf pumping_world
    /\ operations pumping_world = [0; 1]%nat
    /\ store pumping_world !! 0%nat = Some o
    /\ operations w' = []
    /\ resumptions [0%nat] (new_events pumping_world w') = [(0%nat, None, 0)]
    /\ resumptions [1%nat] (new_events pumping_world w') = [(1%nat, Some destroyed, 0)].
Proof.
  destruct (destroy pumping_env 2 pumping_world) as [w'|] eqn:Hd;
    [|vm_compute in Hd; discriminate Hd].
  destruct (store pumping_world !! 0%nat) as [o|] eqn:Ho;
    [|vm_compute in Ho; discriminate Ho].
  exists w', o. split; [reflexivity|].
  split; [apply wf_check_sound; vm_compute; reflexivity|].
  split; [vm_compute; reflexivity|]. split; [reflexivity|].
  vm_compute in Hd. injection Hd as <-.
  split; [reflexivity|]. split; vm_compute; reflexivity.
Qed.

(** The destructor on that engine, run: the operations are resumed from the
    back of the registry; the coroutine of operation 1 catches the exception
    and waits again, and that wait is failed too. *)
Example destroy_teardown_world :
  (w ← destroy (scenario_env poll_nothing) 4 teardown_world;
   Some (operations w, resumed_ids (new_events teardown_world w)))
  = Some ([], [2; 1; 3; 0]%nat).
Proof. vm_compute. reflexivity. Qed.

(* ===================================================================== *)
(** * Further properties of [generator<T>] *)
(* ===================================================================== *)

Section generator_traversal.
Import Generator.
Context {T : Type}.

Lemma generator_loop_step (n : nat) (f : frame T) (seen : list (option T)) :
  done f = false ->
  loop (S n) (Some f) seen =
  match run (pc f) (promise f) with
  | (f1, returns _) => loop n (Some f1) (seen ++ [value (promise f)])
  | (f1, throws e) => Some (seen ++ [value (promise f)], throws e)
  end.
Proof.
  intros Hd. cbn [loop operator_eq_end]. rewrite Hd. unfold operator_inc.
  cbn [mbind option_bind]. unfold resume. rewrite Hd.
  cbn [mbind option_bind]. unfold operator_deref. cbn [mbind option_bind].
  destruct (run (pc f) (promise f)) as [f1 [u|e]]; reflexivity.
Qed.

Lemma generator_loop_done (n : nat) (f : frame T) (seen : list (option T)) :
  done f = true -> loop n (Some f) seen = Some (seen, returns tt).
Proof. intros Hd. destruct n; cbn [loop operator_eq_end]; rewrite Hd; reflexivity. Qed.

(** The loop on a coroutine suspended at a [co_yield] of [v], with [rest]
    left to run. *)
Lemma generator_loop_rest (rest : body T) :
  forall (p : promise_type T) (v : T) (seen : list (option T)) (k : nat),
  value p = Some v ->
  loop (S (length (yielded rest) + k)) (Some {| promise := p; pc := rest; at_final := false |}) seen
  = Some (seen ++ (Some <$> (v :: yielded rest)), returns tt).
Proof.
  induction rest as [v' rest IH| |e]; intros p v seen k Hv.
  - cbn [yielded length Nat.add]. rewrite generator_loop_step by reflexivity.
    cbn [pc promise run yield_value]. rewrite generator_suspends_always.
    rewrite (IH {| value := Some v'; exception := exception p |} v' _ k eq_refl).
    rewrite Hv. rewrite <- app_assoc. reflexivity.
  - cbn [yielded length Nat.add]. rewrite generator_loop_step by reflexivity.
    cbn [pc promise run]. rewrite generator_loop_done by reflexivity.
    rewrite Hv. reflexivity.
  - cbn [yielded length Nat.add]. rewrite generator_loop_step by reflexivity.
    cbn [pc promise run unhandled_exception]. rewrite generator_loop_done by reflexivity.
    rewrite Hv. reflexivity.
Qed.

(** X1: a range-for loop over a generator sees the values the body yields,
    each once and in the order of the [co_yield]s, and then ends normally,
    whether the body ended by returning or by throwing; one advance for each
    value is enough. *)
Theorem generator_range_for_yields_in_order (b : body T) (k : nat) :
  range_for (length (yielded b) + k) (create b) = Some (Some <$> yielded b, returns tt).
Proof.
  destruct b as [v rest| |e].
  - apply (generator_loop_rest rest {| value := Some v; exception := None |} v [] k eq_refl).
  - destruct k; reflexivity.
  - destruct k; reflexivity.
Qed.

End generator_traversal.

(* ===================================================================== *)
(** * Properties of [async_generator<T>] *)
(* ===================================================================== *)

Section async_generator_facts.
Import AsyncGenerator.
Context {T : Type}.

(** X2: an asynchronous generator suspended right before a statement that
    throws [e], advanced by the coroutine [c] through [co_await ++it] or
    [co_await g.begin()]: the awaiter records [c] and transfers to the
    generator; the body stores the exception and, at its final suspend point,
    hands control back to [c]; the [await_resume] that [c] then evaluates
    throws [e], and the generator is done. *)
Theorem async_generator_advance_rethrows (p : promise_type T) (e : exn) (c : nat) :
  let f := {| promise := p; pc := throw e; at_final := false |} in
  let p1 := {| continuation := coroutine c; value := value p; exception := Some e |} in
  let f2 := {| promise := p1; pc := co_return; at_final := true |} in
  co_await increment_awaiter_v (coroutine c) f
    = (suspended (Some generator_coroutine), set_continuation (coroutine c) f)
  /\ co_await begin_awaiter_v (coroutine c) f
     = (suspended (Some generator_coroutine), set_continuation (coroutine c) f)
  /\ run (set_continuation (coroutine c) f) = (f2, Some (coroutine c))
  /\ await_resume increment_awaiter_v f2 = throws e
  /\ await_resume begin_awaiter_v f2 = throws e
  /\ operator_eq_end f2 = true.
Proof. repeat split. Qed.

(** The traversal from a generator whose continuation is [c] and which
    holds no exception. *)
Lemma traverse_all (c : nat) (rv : frame T -> result unit) (b : body T) :
  forall (p : promise_type T) (seen : list (option T)) (k : nat),
  continuation p = coroutine c -> exception p = None ->
  (forall f, rv f = rethrow_or (exception (promise f)) tt) ->
  exists f',
    traverse (pieces b + k) c rv {| promise := p; pc := b; at_final := false |} seen
      = Some (seen ++ (Some <$> yielded b), ending b, f')
    /\ done f' = true.
Proof.
  revert rv. induction b as [v rest IH| |e|rest IH]; intros rv p seen k Hc He Hrv.
  - cbn [pieces Nat.add traverse]. unfold run. cbn [pc yield_value].
    unfold co_await. cbn. rewrite Hc, Nat.eqb_refl. cbn [negb].
    rewrite Hrv. cbn. rewrite He. cbn.
    edestruct (IH (await_resume increment_awaiter_v)
                 {| continuation := coroutine c; value := Some v; exception := None |}
                 (seen ++ [Some v]) k eq_refl eq_refl) as (f' & Hf & Hd); [reflexivity|].
    exists f'. split; [|exact Hd]. rewrite <- app_assoc in Hf. exact Hf.
  - cbn [pieces Nat.add traverse]. unfold run. cbn. rewrite Hc, Nat.eqb_refl. cbn [negb].
    rewrite Hrv. cbn. rewrite He. cbn.
    eexists. split; [rewrite app_nil_r; reflexivity|reflexivity].
  - cbn [pieces Nat.add traverse]. unfold run. cbn. rewrite Hc, Nat.eqb_refl. cbn [negb].
    rewrite Hrv. cbn.
    eexists. split; [rewrite app_nil_r; reflexivity|reflexivity].
  - cbn [pieces Nat.add traverse]. unfold run. cbn [pc].
    destruct (IH rv p seen k Hc He Hrv) as (f' & Hf & Hd).
    exists f'. split; [exact Hf|exact Hd].
Qed.

(** X3: a coroutine that traverses an asynchronous generator with
    [co_await g.begin()] and [co_await ++it], the generator being resumed
    after each suspension inside its body, sees the values the body yields,
    each once and in order; when the body returns the traversal ends
    normally, and when the body throws, the [co_await] that was waiting
    throws that exception.  The generator is done at the end. *)
Theorem async_generator_traversal (b : body T) (c k : nat) :
  exists f',
    for_co_await (pieces b + k) c (create b) = Some (Some <$> yielded b, ending b, f')
    /\ done f' = true.
Proof.
  unfold for_co_await, create, co_await. cbn.
  apply (traverse_all c _ b _ [] k); reflexivity.
Qed.

End async_generator_facts.

(* ===================================================================== *)
(** * Further properties of [lazy_task<T>] and [eager_task<T>] *)
(* ===================================================================== *)

Section task_results.
Import Task.
Context {T : Type} `{!Movable T}.

(** X4: a lazy task runs no part of its body when it is created.  Awaited
    by the coroutine [c], and resumed after each inner suspension, it runs
    its body to the end and then resumes [c] exactly once, with the value the
    body returned or the exception it threw. *)
Theorem lazy_task_result_delivered_once (b : body T) (c : nat) :
  exists w,
    resume_n (suspensions b) (co_await_lazy c (lazy_task b)) = Some w
    /\ log w = repeat body_ran (S (suspensions b))
               ++ [await_resumed c (match ending b with
                                    | returns v => returns (Some v)
                                    | throws e => throws e
                                    end)]
    /\ done (task_frame w) = true
    /\ log (lazy_task b) = [].
Proof.
  pose (p := {| continuation := coroutine c; value := @None T; exception := None |}).
  destruct (task_runs_to_completion b p c [] eq_refl) as (w & Hw & Hlog & Hdone).
  exists w. split; [exact Hw|]. split; [|split; [exact Hdone|reflexivity]].
  rewrite Hlog. unfold final_result. simpl. destruct (ending b); reflexivity.
Qed.

(** X5: an eager task that has not finished, in whatever state [w], awaited
    by the coroutine [c]: the await suspends [c] and runs nothing; once the
    task has been resumed after each of its remaining suspensions, its final
    suspend point resumes [c] exactly once with the result. *)
Theorem eager_task_completion_resumes_awaiter (w : world T) (c : nat) :
  done (task_frame w) = false ->
  exists w',
    resume_n (S (suspensions (pc (task_frame w)))) (co_await_eager c w) = Some w'
    /\ log w' = log w ++ repeat body_ran (S (suspensions (pc (task_frame w))))
                ++ [await_resumed c (final_result (the_promise (task_frame w)) (pc (task_frame w)))]
    /\ done (task_frame w') = true.
Proof.
  intros Hd. destruct w as [[p b fin] l]. simpl in *. subst fin.
  pose (p1 := {| continuation := coroutine c; value := value p; exception := exception p |}).
  destruct (task_runs_to_completion b p1 c l eq_refl) as (w' & Hw & Hlog & Hdone).
  exists w'. split; [|split; [|exact Hdone]].
  - cbn [resume_n]. unfold co_await_eager, co_await_task, co_await. cbn.
    unfold resume. cbn. exact Hw.
  - rewrite Hlog. reflexivity.
Qed.

(** A task that no coroutine awaits runs to its end and resumes no one; the
    result stays in the promise. *)
Lemma task_runs_unawaited (b : body T) (p : promise T) (l : list (event T)) :
  continuation p = noop_coroutine ->
  exists w,
    resume_n (suspensions b)
      (enter {| task_frame := {| the_promise := p; pc := b; at_final := false |};
                log := l |}) = Some w
    /\ log w = l ++ repeat body_ran (S (suspensions b))
    /\ done (task_frame w) = true
    /\ match ending b with
       | returns v => value (the_promise (task_frame w)) = Some v
                      /\ exception (the_promise (task_frame w)) = exception p
       | throws e => exception (the_promise (task_frame w)) = Some e
       end.
Proof.
  revert p l. induction b as [v|e|rest IH]; intros p l Hc.
  - eexists. split; [reflexivity|]. unfold enter. simpl. rewrite Hc.
    simpl. repeat split.
  - eexists. split; [reflexivity|]. unfold enter. simpl. rewrite Hc.
    simpl. repeat split.
  - destruct (IH p (l ++ [body_ran]) Hc) as (w & Hw & Hlog & Hdone & Hres).
    exists w. split; [|split; [|split]]; [| |exact Hdone|exact Hres].
    + simpl suspensions. cbn [resume_n]. unfold enter at 1. simpl.
      unfold resume. simpl. exact Hw.
    + rewrite Hlog. rewrite <- app_assoc. simpl. reflexivity.
Qed.

(** X6: an eager task that no coroutine awaits runs to its end (resumed
    after each inner suspension) and resumes no one: the result, a value or an
    exception, stays in the promise.  Destroying the task then raises
    nothing; a coroutine that awaits it afterwards is not suspended and gets
    the stored result at once: the exception, which stays in the promise, or
    the value, which [await_resume] moves out of the promise, leaving the
    moved-from value there. *)
Theorem eager_task_unawaited_runs_to_completion (b : body T) (c : nat) :
  exists w,
    resume_n (suspensions b) (eager_task b) = Some w
    /\ log w = repeat body_ran (S (suspensions b))
    /\ done (task_frame w) = true
    /\ destroy w = repeat body_ran (S (suspensions b))
    /\ match ending b with
       | returns v =>
           value (the_promise (task_frame w)) = Some v
           /\ exception (the_promise (task_frame w)) = None
           /\ co_await_eager c w
              = {| task_frame := moved_out (task_frame w);
                   log := log w ++ [await_resumed c (returns (Some v))] |}
           /\ value (the_promise (moved_out (task_frame w))) = Some (moved_from v)
       | throws e =>
           exception (the_promise (task_frame w)) = Some e
           /\ co_await_eager c w
              = {| task_frame := task_frame w;
                   log := log w ++ [await_resumed c (throws e)] |}
       end.
Proof.
  pose (p := {| continuation := noop_coroutine; value := @None T; exception := None |}).
  destruct (task_runs_unawaited b p [] eq_refl) as (w & Hw & Hlog & Hdone & Hres).
  exists w. split; [exact Hw|]. split; [exact Hlog|]. split; [exact Hdone|].
  split; [exact Hlog|].
  unfold co_await_eager, co_await_task, co_await. cbn [await_ready eager_awaiter_awaiter].
  rewrite Hdone. cbn [await_resume eager_awaiter_awaiter]. unfold task_await_resume.
  destruct (ending b) as [v|e].
  - destruct Hres as [Hv He]. simpl in He. rewrite He. cbn [fst snd].
    split; [exact Hv|]. split; [reflexivity|]. rewrite Hv. split; [reflexivity|].
    simpl. rewrite Hv. reflexivity.
  - rewrite Hres. cbn [fst snd]. split; reflexivity.
Qed.

End task_results.

Lemma eager_task_completion_resumes_awaiter_witness :
  let w := Task.eager_task (Task.suspend (Task.co_return 5)) in
  Task.done (Task.task_frame w) = false
  /\ exists w',
       Task.resume_n 1 (Task.co_await_eager 3 w) = Some w'
       /\ Task.log w' = [Task.body_ran; Task.body_ran; Task.await_resumed 3 (returns (Some 5))]
       /\ Task.done (Task.task_frame w') = true.
Proof.
  intros w. split; [reflexivity|].
  destruct (eager_task_completion_resumes_awaiter w 3 eq_refl) as (w' & Hr & Hl & Hd).
  exists w'. split; [exact Hr|]. split; [exact Hl|exact Hd].
Defined.

(* ===================================================================== *)
(** * Properties of [detail::UniqueHandle] *)
(* ===================================================================== *)

Section unique_handle_facts.
Import UniqueHandle.

Lemma set_handle_lookup (this : nat) (h : handle_type) (m : memory) (a : nat) :
  objects (set_handle this h m) !! a = if decide (a = this) then Some h else objects m !! a.
Proof.
  unfold set_handle. simpl. destruct (decide (a = this)) as [->|Hne].
  - apply lookup_insert_eq.
  - apply lookup_insert_ne. congruence.
Qed.

Lemma step_unique (c : call) (m m' : memory) :
  unique m -> step c m = Some m' -> unique m' /\ conserved m m'.
Proof.
  intros [Uo Ud Ua] Hs. destruct c as [this other|this other|this]; simpl in Hs.
  - unfold move_construct in Hs. destruct (objects m !! this) as [?|] eqn:Hthis; [discriminate|].
    destruct (objects m !! other) as [h|] eqn:Hother; simpl in Hs; [|discriminate].
    injection Hs as <-.
    assert (Hne : this <> other) by congruence.
    assert (Hl : forall a, objects (set_handle other None (set_handle this h m)) !! a
                 = if decide (a = other) then Some None
                   else if decide (a = this) then Some h else objects m !! a).
    { intros a. rewrite !set_handle_lookup. reflexivity. }
    assert (Hown : forall fr, owned (set_handle other None (set_handle this h m)) fr <-> owned m fr).
    { intros fr. split.
      - intros [a Ha]. rewrite Hl in Ha. destruct (decide (a = other)); [discriminate|].
        destruct (decide (a = this)); [|exists a; exact Ha].
        injection Ha as ->. exists other. exact Hother.
      - intros [a Ha]. destruct (decide (a = other)) as [->|Hao].
        + exists this. rewrite Hl, decide_False, decide_True by congruence.
          congruence.
        + exists a. rewrite Hl, decide_False by exact Hao.
          destruct (decide (a = this)) as [->|]; [congruence|exact Ha]. }
    split; [split|intros fr; split].
    + intros a b fr Ha Hb. rewrite Hl in Ha, Hb.
      destruct (decide (a = other)); [discriminate|]. destruct (decide (b = other)); [discriminate|].
      destruct (decide (a = this)) as [->|], (decide (b = this)) as [->|]; try reflexivity.
      * injection Ha as ->. exfalso. apply n0. eapply Uo; eassumption.
      * injection Hb as ->. exfalso. apply n. eapply Uo; eassumption.
      * eapply Uo; eassumption.
    + exact Ud.
    + intros fr Hfr Ho. apply Hown in Ho. exact (Ua fr Hfr Ho).
    + intros [H|H]; [left; apply Hown; exact H|right; exact H].
    + intros [H|H]; [left; apply Hown; exact H|right; exact H].
  - unfold move_assign in Hs.
    destruct (objects m !! this) as [mine|] eqn:Hthis; simpl in Hs; [|discriminate].
    destruct (objects m !! other) as [theirs|] eqn:Hother; simpl in Hs; [|discriminate].
    destruct (decide (this = other)) as [->|Hne]; injection Hs as <-.
    { split; [split; assumption|]. intros fr. tauto. }
    set (m1 := destroy_if_set mine m).
    assert (Hobj : objects m1 = objects m) by (subst m1; destruct mine; reflexivity).
    assert (Hl : forall a, objects (set_handle other None (set_handle this theirs m1)) !! a
                 = if decide (a = other) then Some None
                   else if decide (a = this) then Some theirs else objects m !! a).
    { intros a. rewrite !set_handle_lookup, Hobj. reflexivity. }
    assert (Hd : destroyed (set_handle other None (set_handle this theirs m1))
                 = destroyed m ++ match mine with Some fr => [fr] | None => [] end).
    { subst m1. destruct mine; simpl; [reflexivity|rewrite app_nil_r; reflexivity]. }
    assert (Hown : forall fr, owned (set_handle other None (set_handle this theirs m1)) fr
                              <-> owned m fr /\ mine <> Some fr).
    { intros fr. split.
      - intros [a Ha]. rewrite Hl in Ha. destruct (decide (a = other)); [discriminate|].
        destruct (decide (a = this)) as [->|Hat].
        + injection Ha as ->. split; [exists other; exact Hother|].
          intros ->. apply Hne. eapply Uo; eassumption.
        + split; [exists a; exact Ha|]. intros ->. apply Hat. eapply Uo; eassumption.
      - intros [[a Ha] Hm]. destruct (decide (a = other)) as [->|Hao].
        + exists this. rewrite Hl, decide_False, decide_True by congruence.
          congruence.
        + exists a. rewrite Hl, decide_False by exact Hao.
          destruct (decide (a = this)) as [->|]; [congruence|exact Ha]. }
    split; [split|intros fr; split].
    + intros a b fr Ha Hb. rewrite Hl in Ha, Hb.
      destruct (decide (a = other)); [discriminate|]. destruct (decide (b = other)); [discriminate|].
      destruct (decide (a = this)) as [->|], (decide (b = this)) as [->|]; try reflexivity.
      * injection Ha as ->. exfalso. apply n0. eapply Uo; eassumption.
      * injection Hb as ->. exfalso. apply n. eapply Uo; eassumption.
      * eapply Uo; eassumption.
    + rewrite Hd. destruct mine as [fr|]; [|rewrite app_nil_r; exact Ud].
      apply NoDup_app. split; [exact Ud|]. split; [|apply NoDup_singleton].
      intros x Hx Hx'. apply list_elem_of_singleton in Hx'. subst x.
      apply (Ua fr Hx). exists this. exact Hthis.
    + intros fr Hfr Ho. apply Hown in Ho as [Ho Hm]. rewrite Hd in Hfr.
      apply elem_of_app in Hfr as [Hfr|Hfr]; [exact (Ua fr Hfr Ho)|].
      destruct mine as [fr'|]; [|inversion Hfr]. apply list_elem_of_singleton in Hfr. congruence.
    + intros [H|H].
      * destruct (decide (mine = Some fr)) as [Hm|Hm].
        -- right. rewrite Hd, Hm. apply elem_of_app. right. left.
        -- left. apply Hown. split; assumption.
      * right. rewrite Hd. apply elem_of_app. left. exact H.
    + intros [H|H].
      * left. apply Hown in H. tauto.
      * rewrite Hd in H. apply elem_of_app in H as [H|H]; [right; exact H|].
        destruct mine as [fr'|]; [|inversion H]. apply list_elem_of_singleton in H. subst fr'.
        left. exists this. exact Hthis.
  - unfold destructor in Hs.
    destruct (objects m !! this) as [mine|] eqn:Hthis; simpl in Hs; [|discriminate].
    injection Hs as <-.
    set (m1 := destroy_if_set mine m).
    assert (Hobj : objects m1 = objects m) by (subst m1; destruct mine; reflexivity).
    assert (Hd : destroyed m1 = destroyed m ++ match mine with Some fr => [fr] | None => [] end).
    { subst m1. destruct mine; simpl; [reflexivity|rewrite app_nil_r; reflexivity]. }
    set (m2 := {| objects := delete this (objects m1); destroyed := destroyed m1 |}).
    assert (Hl : forall a, objects m2 !! a = if decide (a = this) then None else objects m !! a).
    { intros a. subst m2. simpl. rewrite Hobj. destruct (decide (a = this)) as [->|Hat].
      - apply lookup_delete_eq.
      - apply lookup_delete_ne. congruence. }
    assert (Hown : forall fr, owned m2 fr <-> owned m fr /\ mine <> Some fr).
    { intros fr. split.
      - intros [a Ha]. rewrite Hl in Ha. destruct (decide (a = this)) as [->|Hat]; [discriminate|].
        split; [exists a; exact Ha|]. intros ->. apply Hat. eapply Uo; eassumption.
      - intros [[a Ha] Hm]. exists a. rewrite Hl.
        destruct (decide (a = this)) as [->|]; [congruence|exact Ha]. }
    split; [split|intros fr; split].
    + intros a b fr Ha Hb. rewrite Hl in Ha, Hb.
      destruct (decide (a = this)); [discriminate|]. destruct (decide (b = this)); [discriminate|].
      eapply Uo; eassumption.
    + change (destroyed m2) with (destroyed m1). rewrite Hd.
      destruct mine as [fr|]; [|rewrite app_nil_r; exact Ud].
      apply NoDup_app. split; [exact Ud|]. split; [|apply NoDup_singleton].
      intros x Hx Hx'. apply list_elem_of_singleton in Hx'. subst x.
      apply (Ua fr Hx). exists this. exact Hthis.
    + intros fr Hfr Ho. apply Hown in Ho as [Ho Hm]. change (destroyed m2) with (destroyed m1) in Hfr.
      rewrite Hd in Hfr.
      apply elem_of_app in Hfr as [Hfr|Hfr]; [exact (Ua fr Hfr Ho)|].
      destruct mine as [fr'|]; [|inversion Hfr]. apply list_elem_of_singleton in Hfr. congruence.
    + change (destroyed m2) with (destroyed m1). intros [H|H].
      * destruct (decide (mine = Some fr)) as [Hm|Hm].
        -- right. rewrite Hd, Hm. apply elem_of_app. right. left.
        -- left. apply Hown. split; assumption.
      * right. rewrite Hd. apply elem_of_app. left. exact H.
    + change (destroyed m2) with (destroyed m1). intros [H|H].
      * left. apply Hown in H. tauto.
      * rewrite Hd in H. apply elem_of_app in H as [H|H]; [right; exact H|].
        destruct mine as [fr'|]; [|inversion H]. apply list_elem_of_singleton in H. subst fr'.
        left. exists this. exact Hthis.
Qed.

Lemma run_unique (cs : list call) : forall m m',
  unique m -> run cs m = Some m' -> unique m' /\ conserved m m'.
Proof.
  induction cs as [|c cs IH]; intros m m' Hu Hr; simpl in Hr.
  - injection Hr as <-. split; [exact Hu|]. intros fr. tauto.
  - destruct (step c m) as [m1|] eqn:Hs; simpl in Hr; [|discriminate].
    destruct (step_unique c m m1 Hu Hs) as [Hu1 Hc1].
    destruct (IH m1 m' Hu1 Hr) as [Hu' Hc']. split; [exact Hu'|].
    intros fr. rewrite (Hc1 fr). apply Hc'.
Qed.

(** X7: from objects that hold pairwise different frames, every sequence of
    move constructions, move assignments (self-assignment included) and
    destructions of live objects keeps the frames apart: no frame is
    destroyed twice, no destroyed frame is still held, and no frame is lost
    (each is held by an object or has been destroyed).  Once every object
    is gone, every frame that was held has been destroyed. *)
Theorem unique_handle_destroys_each_frame_once (cs : list call) (m m' : memory) :
  unique m -> run cs m = Some m' ->
  unique m'
  /\ conserved m m'
  /\ (objects m' = ∅ -> forall fr, owned m fr -> fr ∈ destroyed m').
Proof.
  intros Hu Hr. destruct (run_unique cs m m' Hu Hr) as [Hu' Hc].
  split; [exact Hu'|]. split; [exact Hc|].
  intros He fr Ho. destruct (proj1 (Hc fr) (or_introl Ho)) as [[a Ha]|H]; [|exact H].
  rewrite He in Ha. rewrite lookup_empty in Ha. discriminate.
Qed.

End unique_handle_facts.

Lemma two_frames_unique : UniqueHandle.unique two_frames.
Proof.
  split.
  - intros a b fr Ha Hb. simpl in Ha, Hb.
    apply lookup_insert_Some in Ha as [[<- Ha]|[Hna Ha]];
      apply lookup_insert_Some in Hb as [[<- Hb]|[Hnb Hb]]; try reflexivity.
    + apply lookup_singleton_Some in Hb as [<- Hb]. congruence.
    + apply lookup_singleton_Some in Ha as [<- Ha]. congruence.
    + apply lookup_singleton_Some in Ha as [<- Ha].
      apply lookup_singleton_Some in Hb as [<- Hb]. reflexivity.
  - constructor.
  - intros fr H. inversion H.
Qed.

Lemma unique_handle_destroys_each_frame_once_witness :
  let cs := [UniqueHandle.move_assigned 0 1; UniqueHandle.move_assigned 0 0;
             UniqueHandle.destructed 1; UniqueHandle.destructed 0] in
  exists m',
    UniqueHandle.run cs two_frames = Some m'
    /\ UniqueHandle.destroyed m' = [10; 11]%nat
    /\ UniqueHandle.unique m'
    /\ UniqueHandle.conserved two_frames m'
    /\ (UniqueHandle.objects m' = ∅ ->
        forall fr, UniqueHandle.owned two_frames fr -> fr ∈ UniqueHandle.destroyed m').
Proof.
  intros cs.
  destruct (UniqueHandle.run cs two_frames) as [m'|] eqn:Hr; [|vm_compute in Hr; discriminate Hr].
  exists m'. split; [reflexivity|].
  split; [|exact (unique_handle_destroys_each_frame_once cs two_frames m' two_frames_unique Hr)].
  vm_compute in Hr. injection Hr as <-. reflexivity.
Defined.

(* ===================================================================== *)
(** * Properties of [utils::handle] *)
(* ===================================================================== *)

Section utils_facts.
Import Utils.

(** X8: [a = std::move(b)] on two live [utils::handle] objects: [a] takes
    the descriptor of [b], [b] is left empty, and the descriptor [a] held is
    closed, once, unless it was -1.  Assigning an object to itself changes
    nothing and closes nothing. *)
Theorem handle_move_assign (this other : nat) (m : descriptors) (mine theirs : Z) :
  handles m !! this = Some mine -> handles m !! other = Some theirs ->
  move_assign this other m =
  Some (if decide (this = other) then m
        else {| handles := <[other := -1]> (<[this := theirs]> (handles m));
                closed := if mine =? -1 then closed m else closed m ++ [mine] |}).
Proof.
  intros Hthis Hother. unfold move_assign.
  set (o := fresh (dom (handles m))).
  assert (Ho : handles m !! o = None) by (apply not_elem_of_dom; apply is_fresh).
  assert (Hto : this <> o) by congruence.
  assert (Hoo : other <> o) by congruence.
  unfold move_construct. rewrite Ho, Hother. cbn [mbind option_bind].
  unfold swap, set_h. cbn [handles closed].
  rewrite lookup_insert_eq. cbn [mbind option_bind].
  destruct (decide (this = other)) as [->|Hne].
  - rewrite lookup_insert_ne by congruence. rewrite lookup_insert_eq. cbn [mbind option_bind].
    unfold destructor. cbn [handles closed]. rewrite lookup_insert_eq. cbn [mbind option_bind].
    assert (mine = theirs) by congruence. subst mine.
    destruct m as [hs cl]. cbn [handles closed] in *. f_equal. f_equal.
    apply map_eq. intros a. destruct (decide (a = o)) as [->|Hao].
    + rewrite lookup_delete_eq. symmetry. exact Ho.
    + rewrite lookup_delete_ne by congruence. rewrite lookup_insert_ne by congruence.
      destruct (decide (a = other)) as [->|Hat].
      * rewrite lookup_insert_eq. symmetry. exact Hother.
      * rewrite !lookup_insert_ne by congruence. reflexivity.
  - rewrite !lookup_insert_ne by congruence. rewrite Hthis. cbn [mbind option_bind].
    unfold destructor. cbn [handles closed]. rewrite lookup_insert_eq. cbn [mbind option_bind].
    f_equal. f_equal.
    apply map_eq. intros a. destruct (decide (a = o)) as [->|Hao].
    + rewrite lookup_delete_eq. rewrite !lookup_insert_ne by congruence. symmetry. exact Ho.
    + rewrite lookup_delete_ne by congruence. rewrite lookup_insert_ne by congruence.
      destruct (decide (a = this)) as [->|Hat].
      * rewrite lookup_insert_eq. rewrite lookup_insert_ne by congruence.
        rewrite lookup_insert_eq. reflexivity.
      * rewrite lookup_insert_ne by congruence. rewrite (lookup_insert_ne _ o) by congruence.
        destruct (decide (a = other)) as [->|Hab].
        -- rewrite !lookup_insert_eq. reflexivity.
        -- rewrite !lookup_insert_ne by congruence. reflexivity.
Qed.

End utils_facts.

Lemma handle_move_assign_witness :
  Utils.move_assign 0 1 two_descriptors
  = Some {| Utils.handles := <[1%nat := -1]> (<[0%nat := 9]> (Utils.handles two_descriptors));
            Utils.closed := [7] |}
  /\ Utils.move_assign 0 0 two_descriptors = Some two_descriptors.
Proof.
  split.
  - exact (handle_move_assign 0 1 two_descriptors 7 9 eq_refl eq_refl).
  - exact (handle_move_assign 0 0 two_descriptors 7 7 eq_refl eq_refl).
Defined.

Section utils_more.
Import Utils.

Lemma set_h_lookup (this : nat) (h : Z) (m : descriptors) (a : nat) :
  handles (set_h this h m) !! a = if decide (a = this) then Some h else handles m !! a.
Proof.
  unfold set_h. simpl. destruct (decide (a = this)) as [->|Hne].
  - apply lookup_insert_eq.
  - apply lookup_insert_ne. congruence.
Qed.

Lemma conserved_refl (m : descriptors) : conserved m m.
Proof. intros h _. tauto. Qed.

Lemma conserved_trans (m1 m2 m3 : descriptors) :
  conserved m1 m2 -> conserved m2 m3 -> conserved m1 m3.
Proof. intros H1 H2 h Hh. rewrite (H1 h Hh). apply H2. exact Hh. Qed.

Lemma move_construct_unique (this o : nat) (m m' : descriptors) :
  unique m -> move_construct this o m = Some m' -> unique m' /\ conserved m m'.
Proof.
  intros [Uo Uc Uv Ua] Hs. unfold move_construct in Hs.
  destruct (handles m !! this) as [?|] eqn:Hthis; [discriminate|].
  destruct (handles m !! o) as [oh|] eqn:Hother; simpl in Hs; [|discriminate].
  injection Hs as <-.
  assert (Hne : this <> o) by congruence.
  assert (Hl : forall a, handles (set_h this oh (set_h o (-1) m)) !! a
               = if decide (a = this) then Some oh
                 else if decide (a = o) then Some (-1) else handles m !! a).
  { intros a. rewrite !set_h_lookup. reflexivity. }
  assert (Hheld : forall h, h <> -1 ->
            (held (set_h this oh (set_h o (-1) m)) h <-> held m h)).
  { intros h Hh. split.
    - intros [a Ha]. rewrite Hl in Ha. destruct (decide (a = this)).
      + injection Ha as ->. exists o. exact Hother.
      + destruct (decide (a = o)); [congruence|exists a; exact Ha].
    - intros [a Ha]. destruct (decide (a = o)) as [->|Hao].
      + exists this. rewrite Hl, decide_True by reflexivity. congruence.
      + exists a. rewrite Hl. destruct (decide (a = this)) as [->|]; [congruence|].
        rewrite decide_False by exact Hao. exact Ha. }
  split; [split|].
  - intros a b h Hh Ha Hb. rewrite Hl in Ha, Hb.
    destruct (decide (a = this)) as [->|Hat], (decide (b = this)) as [->|Hbt]; try reflexivity.
    + injection Ha as ->. destruct (decide (b = o)); [congruence|].
      exfalso. apply n. eapply Uo; eassumption.
    + injection Hb as ->. destruct (decide (a = o)); [congruence|].
      exfalso. apply n. eapply Uo; eassumption.
    + destruct (decide (a = o)); [congruence|]. destruct (decide (b = o)); [congruence|].
      eapply Uo; eassumption.
  - exact Uc.
  - exact Uv.
  - intros h Hh Hheld'. assert (Hn : h <> -1) by (intros ->; exact (Uv Hh)).
    apply (Ua h Hh). apply Hheld; assumption.
  - intros h Hh. simpl. rewrite (Hheld h Hh). tauto.
Qed.

Lemma swap_unique (this o : nat) (m m' : descriptors) :
  unique m -> swap this o m = Some m' -> unique m' /\ conserved m m'.
Proof.
  intros [Uo Uc Uv Ua] Hs. unfold swap in Hs.
  destruct (handles m !! this) as [mine|] eqn:Hthis; simpl in Hs; [|discriminate].
  destruct (handles m !! o) as [theirs|] eqn:Hother; simpl in Hs; [|discriminate].
  injection Hs as <-.
  assert (Hl : forall a, handles (set_h o mine (set_h this theirs m)) !! a
               = if decide (a = o) then Some mine
                 else if decide (a = this) then Some theirs else handles m !! a).
  { intros a. rewrite !set_h_lookup. reflexivity. }
  assert (Hheld : forall h, held (set_h o mine (set_h this theirs m)) h <-> held m h).
  { intros h. split.
    - intros [a Ha]. rewrite Hl in Ha. destruct (decide (a = o)).
      + injection Ha as ->. exists this. exact Hthis.
      + destruct (decide (a = this)); [|exists a; exact Ha].
        injection Ha as ->. exists o. exact Hother.
    - intros [a Ha]. destruct (decide (a = this)) as [->|Hat].
      + exists o. rewrite Hl, decide_True by reflexivity. congruence.
      + destruct (decide (a = o)) as [->|Hao].
        * destruct (decide (this = o)) as [->|Hto]; [contradiction|].
          exists this. rewrite Hl, decide_False, decide_True by congruence. congruence.
        * exists a. rewrite Hl, !decide_False by assumption. exact Ha. }
  split; [split|].
  - intros a b h Hh Ha Hb. rewrite Hl in Ha, Hb.
    destruct (decide (a = o)) as [->|Hao], (decide (b = o)) as [->|Hbo]; try reflexivity.
    + injection Ha as ->. destruct (decide (b = this)) as [->|Hbt].
      * injection Hb as ->. symmetry. eapply Uo; eassumption.
      * exfalso. apply Hbt. eapply Uo; eassumption.
    + injection Hb as ->. destruct (decide (a = this)) as [->|Hat].
      * injection Ha as ->. eapply Uo; eassumption.
      * exfalso. apply Hat. eapply Uo; eassumption.
    + destruct (decide (a = this)) as [->|Hat], (decide (b = this)) as [->|Hbt]; try reflexivity.
      * injection Ha as ->. exfalso. apply Hbo. eapply Uo; eassumption.
      * injection Hb as ->. exfalso. apply Hao. eapply Uo; eassumption.
      * eapply Uo; eassumption.
  - exact Uc.
  - exact Uv.
  - intros h Hh Hheld'. apply (Ua h Hh). apply Hheld. exact Hheld'.
  - intros h Hh. simpl. rewrite (Hheld h). tauto.
Qed.

Lemma destructor_unique (this : nat) (m m' : descriptors) :
  unique m -> destructor this m = Some m' -> unique m' /\ conserved m m'.
Proof.
  intros [Uo Uc Uv Ua] Hs. unfold destructor in Hs.
  destruct (handles m !! this) as [mine|] eqn:Hthis; simpl in Hs; [|discriminate].
  injection Hs as <-.
  set (m2 := {| handles := delete this (handles m);
                closed := if mine =? -1 then closed m else closed m ++ [mine] |}).
  assert (Hl : forall a, handles m2 !! a = if decide (a = this) then None else handles m !! a).
  { intros a. subst m2. simpl. destruct (decide (a = this)) as [->|Hat].
    - apply lookup_delete_eq.
    - apply lookup_delete_ne. congruence. }
  assert (Hheld : forall h, h <> -1 -> (held m2 h <-> held m h /\ mine <> h)).
  { intros h Hh. split.
    - intros [a Ha]. rewrite Hl in Ha. destruct (decide (a = this)) as [->|Hat]; [discriminate|].
      split; [exists a; exact Ha|]. intros ->. apply Hat. eapply Uo; eassumption.
    - intros [[a Ha] Hm]. exists a. rewrite Hl.
      destruct (decide (a = this)) as [->|]; [congruence|exact Ha]. }
  assert (Hcl : forall h, h ∈ closed m2 <-> h ∈ closed m \/ (h = mine /\ mine <> -1)).
  { intros h. subst m2. simpl. destruct (Z.eqb_spec mine (-1)) as [Hm|Hm].
    - split; [tauto|]. intros [H|[_ H]]; [exact H|contradiction].
    - rewrite elem_of_app, list_elem_of_singleton. tauto. }
  assert (Hv2 : -1 ∉ closed m2).
  { intros Hin. apply Hcl in Hin as [Hin|[Heq Hne]]; [exact (Uv Hin)|congruence]. }
  split; [split|].
  - intros a b h Hh Ha Hb. rewrite Hl in Ha, Hb.
    destruct (decide (a = this)); [discriminate|]. destruct (decide (b = this)); [discriminate|].
    eapply Uo; eassumption.
  - subst m2. simpl. destruct (Z.eqb_spec mine (-1)) as [Hm|Hm]; [exact Uc|].
    apply NoDup_app. split; [exact Uc|]. split; [|apply NoDup_singleton].
    intros x Hx Hx'. apply list_elem_of_singleton in Hx'. subst x.
    apply (Ua mine Hx). exists this. exact Hthis.
  - exact Hv2.
  - intros h Hh Hheld'.
    assert (Hn : h <> -1) by (intros ->; exact (Hv2 Hh)).
    apply Hheld in Hheld' as [Hheld' Hm]; [|exact Hn].
    apply Hcl in Hh as [Hh|[Heq _]]; [exact (Ua h Hh Hheld')|congruence].
  - intros h Hh. rewrite (Hheld h Hh), (Hcl h). split.
    + intros [H|H]; [|tauto]. destruct (decide (mine = h)) as [->|Hm]; [right; right; tauto|tauto].
    + intros [[H _]|[H|[-> _]]]; [tauto|tauto|left; exists this; exact Hthis].
Qed.

Lemma move_assign_unique (this other : nat) (m m' : descriptors) :
  unique m -> move_assign this other m = Some m' -> unique m' /\ conserved m m'.
Proof.
  intros Hu Hs. unfold move_assign in Hs.
  destruct (move_construct _ other m) as [m1|] eqn:H1; simpl in Hs; [|discriminate].
  destruct (swap this _ m1) as [m2|] eqn:H2; simpl in Hs; [|discriminate].
  destruct (move_construct_unique _ _ _ _ Hu H1) as [Hu1 Hc1].
  destruct (swap_unique _ _ _ _ Hu1 H2) as [Hu2 Hc2].
  destruct (destructor_unique _ _ _ Hu2 Hs) as [Hu3 Hc3].
  split; [exact Hu3|]. eapply conserved_trans; [|exact Hc3]. eapply conserved_trans; eassumption.
Qed.

Lemma handle_run_unique (cs : list call) : forall m m',
  unique m -> run cs m = Some m' -> unique m' /\ conserved m m'.
Proof.
  induction cs as [|c cs IH]; intros m m' Hu Hr; simpl in Hr.
  - injection Hr as <-. split; [exact Hu|apply conserved_refl].
  - destruct (step c m) as [m1|] eqn:Hs; simpl in Hr; [|discriminate].
    assert (H1 : unique m1 /\ conserved m m1).
    { destruct c; simpl in Hs.
      - eapply move_construct_unique; eassumption.
      - eapply swap_unique; eassumption.
      - eapply move_assign_unique; eassumption.
      - eapply destructor_unique; eassumption. }
    destruct H1 as [Hu1 Hc1]. destruct (IH m1 m' Hu1 Hr) as [Hu' Hc'].
    split; [exact Hu'|]. eapply conserved_trans; eassumption.
Qed.

(** X20: from [utils::handle] objects that hold pairwise different
    descriptors, every sequence of move constructions, swaps, move
    assignments and destructions of live objects closes no descriptor twice,
    never closes -1, leaves no closed descriptor held, and loses no
    descriptor.  Once every object is gone, every descriptor that was held
    has been closed. *)
Theorem handle_closes_each_descriptor_once (cs : list call) (m m' : descriptors) :
  unique m -> run cs m = Some m' ->
  unique m'
  /\ conserved m m'
  /\ (handles m' = ∅ -> forall h, h <> -1 -> held m h -> h ∈ closed m').
Proof.
  intros Hu Hr. destruct (handle_run_unique cs m m' Hu Hr) as [Hu' Hc].
  split; [exact Hu'|]. split; [exact Hc|].
  intros He h Hh Ho. destruct (proj1 (Hc h Hh) (or_introl Ho)) as [[a Ha]|H]; [|exact H].
  rewrite He in Ha. rewrite lookup_empty in Ha. discriminate.
Qed.

End utils_more.

Lemma two_descriptors_unique : Utils.unique two_descriptors.
Proof.
  split.
  - intros a b h _ Ha Hb. simpl in Ha, Hb.
    apply lookup_insert_Some in Ha as [[<- Ha]|[Hna Ha]];
      apply lookup_insert_Some in Hb as [[<- Hb]|[Hnb Hb]]; try reflexivity.
    + apply lookup_singleton_Some in Hb as [<- Hb]. congruence.
    + apply lookup_singleton_Some in Ha as [<- Ha]. congruence.
    + apply lookup_singleton_Some in Ha as [<- Ha].
      apply lookup_singleton_Some in Hb as [<- Hb]. reflexivity.
  - constructor.
  - intros H. inversion H.
  - intros h H. inversion H.
Qed.

Lemma handle_closes_each_descriptor_once_witness :
  let cs := [Utils.move_assigned 0 1; Utils.move_assigned 0 0;
             Utils.destructed 1; Utils.destructed 0] in
  exists m',
    Utils.run cs two_descriptors = Some m'
    /\ Utils.closed m' = [7; 9]
    /\ Utils.unique m'
    /\ Utils.conserved two_descriptors m'
    /\ (Utils.handles m' = ∅ -> forall h, h <> -1 ->
        Utils.held two_descriptors h -> h ∈ Utils.closed m').
Proof.
  intros cs.
  destruct (Utils.run cs two_descriptors) as [m'|] eqn:Hr;
    [|vm_compute in Hr; discriminate Hr].
  exists m'. split; [reflexivity|].
  split; [|exact (handle_closes_each_descriptor_once cs _ m' two_descriptors_unique Hr)].
  vm_compute in Hr. injection Hr as <-. reflexivity.
Defined.


(* ===================================================================== *)
(** * Further properties of [io_engine] *)
(* ===================================================================== *)

Lemma with_revents_fd (rev : nat -> Z) (fds : list pollfd) :
  pfd_fd <$> with_revents rev fds = pfd_fd <$> fds
  /\ pfd_events <$> with_revents rev fds = pfd_events <$> fds.
Proof.
  unfold with_revents. revert rev. induction fds as [|p fds IH]; intros rev; [split; reflexivity|].
  rewrite imap_cons, !fmap_cons. simpl.
  destruct (IH (rev ∘ S)) as [H1 H2]. split; f_equal; assumption.
Qed.

Lemma filter_ext_in {A : Type} (P Q : A -> Prop) `{!forall x, Decision (P x)}
    `{!forall x, Decision (Q x)} (l : list A) :
  (forall x, x ∈ l -> P x <-> Q x) -> filter P l = filter Q l.
Proof.
  induction l as [|x l IH]; intros Hext; [reflexivity|].
  assert (IH' : filter P l = filter Q l) by (apply IH; intros y Hy; apply Hext; right; exact Hy).
  destruct (decide (P x)) as [Hp|Hp].
  - rewrite !filter_cons_True; [|apply Hext; [left|exact Hp]|exact Hp]. f_equal. exact IH'.
  - rewrite !filter_cons_False; [exact IH'| |exact Hp].
    intros Hq. apply Hp, Hext; [left|exact Hq].
Qed.

Lemma resumed_ids_adds (added : list nat) : resumed_ids (map ev_add added) = [].
Proof. induction added as [|a added IH]; [reflexivity|exact IH]. Qed.

Lemma resumptions_nil_not_resumed (id : nat) (evs : list event) :
  resumptions [id] evs = [] -> id ∉ resumed_ids evs.
Proof.
  induction evs as [|ev evs IH]; intros H Hin; [inversion Hin|].
  rewrite resumptions_cons in H.
  change (ev :: evs) with ([ev] ++ evs) in Hin. rewrite resumed_ids_app in Hin.
  destruct ev as [x|reg|x ex rev reg]; simpl in *; try (exact (IH H Hin)).
  destruct (decide (x = id)) as [->|Hne].
  - rewrite bool_decide_eq_true_2 in H by left. discriminate.
  - rewrite bool_decide_eq_false_2 in H.
    + apply elem_of_cons in Hin as [?|Hin]; [congruence|exact (IH H Hin)].
    + intros Hx. apply list_elem_of_singleton in Hx. congruence.
Qed.

Lemma resumptions_once (id : nat) (evs : list event) :
  NoDup (resumed_ids evs) -> id ∈ resumed_ids evs ->
  exists ex rev, resumptions [id] evs = [(id, ex, rev)].
Proof.
  induction evs as [|ev evs IH]; intros Hnd Hin; [inversion Hin|].
  change (ev :: evs) with ([ev] ++ evs) in Hnd, Hin. rewrite resumed_ids_app in Hnd, Hin.
  rewrite resumptions_cons.
  destruct ev as [x|reg|x ex rev reg]; simpl in *; try (apply IH; assumption).
  apply NoDup_cons in Hnd as [Hx Hnd].
  destruct (decide (x = id)) as [->|Hne].
  - rewrite bool_decide_eq_true_2 by left. exists ex, rev.
    rewrite resumptions_not_resumed by exact Hx. reflexivity.
  - rewrite bool_decide_eq_false_2.
    + apply IH; [exact Hnd|]. apply elem_of_cons in Hin as [?|Hin]; [congruence|exact Hin].
    + intros H. apply list_elem_of_singleton in H. congruence.
Qed.

Lemma quot_negative (a b : Z) : 0 < b -> (Z.quot a b < 0 <-> a <= - b).
Proof.
  intros Hb. split.
  - intros Hq. destruct (Z_le_gt_dec a (- b)) as [H|H]; [exact H|exfalso].
    destruct (Z_lt_le_dec a 0) as [Hn|Hp].
    + assert (Hs : Z.quot (- a) b = 0) by (apply Z.quot_small; lia).
      rewrite Z.quot_opp_l in Hs by lia. lia.
    + pose proof (Z.quot_pos a b Hp Hb). lia.
  - intros Ha. assert (H1 : 0 < Z.quot (- a) b) by (apply Z.quot_str_pos; lia).
    rewrite Z.quot_opp_l in H1 by lia. lia.
Qed.

Lemma min_timeout_fold (s : gmap nat operation) (l : list nat) : forall m0,
  let m := foldl (fun m id => match s !! id with
                              | Some o => if timeout o <? m then timeout o else m
                              | None => m
                              end) m0 l in
  m <= m0
  /\ (forall id o, id ∈ l -> s !! id = Some o -> m <= timeout o)
  /\ (m = m0 \/ exists id o, id ∈ l /\ s !! id = Some o /\ timeout o = m).
Proof.
  induction l as [|x l IH]; intros m0; simpl.
  - split; [lia|]. split; [|left; reflexivity]. intros id o H. inversion H.
  - set (m1 := match s !! x with
               | Some o => if timeout o <? m0 then timeout o else m0
               | None => m0
               end).
    destruct (IH m1) as (H1 & H2 & H3).
    assert (Hm1 : m1 <= m0 /\ (forall o, s !! x = Some o -> m1 <= timeout o)
                  /\ (m1 = m0 \/ exists o, s !! x = Some o /\ timeout o = m1)).
    { subst m1. destruct (s !! x) as [o|]; [|split; [lia|split; [discriminate|left; reflexivity]]].
      destruct (Z.ltb_spec (timeout o) m0).
      - split; [lia|]. split; [intros o' [= <-]; lia|right; eauto].
      - split; [lia|]. split; [intros o' [= <-]; lia|left; reflexivity]. }
    destruct Hm1 as (M1 & M2 & M3).
    split; [lia|]. split.
    + intros id o Hid Ho. apply elem_of_cons in Hid as [->|Hid].
      * specialize (M2 o Ho). lia.
      * apply (H2 id o Hid Ho).
    + destruct H3 as [H3|(id & o & Hid & Ho & Hto)].
      * destruct M3 as [M3|(o & Ho & Hto)]; [left; congruence|].
        right. exists x, o. split; [left|]. split; [exact Ho|congruence].
      * right. exists id, o. split; [right; exact Hid|]. split; assumption.
Qed.

Lemma no_error_flag_no_event (rev : Z) :
  Z.land rev (Z.lor (Z.lor (Z.lor POLLERR POLLHUP) POLLNVAL) 0) = rev ->
  has_flag rev POLLERR = false -> has_flag rev POLLHUP = false ->
  has_flag rev POLLNVAL = false -> rev = 0.
Proof.
  intros Hsub He Hh Hn. rewrite <- Hsub. apply has_flag_false.
  rewrite !has_flag_lor, He, Hh, Hn. simpl. unfold has_flag. rewrite Z.land_0_r. reflexivity.
Qed.

Section reactor_accounting.
Variable env : environment.

Lemma accounted_refl (w : world) : accounted w w.
Proof. intros id H. left. exact H. Qed.

Lemma accounted_trans (w w1 w2 : world) (e1 e2 : list event) :
  trace w1 = trace w ++ e1 -> trace w2 = trace w1 ++ e2 ->
  accounted w w1 -> accounted w1 w2 -> accounted w w2.
Proof.
  intros T1 T2 A1 A2 id Hid.
  assert (E1 : new_events w w1 = e1) by (apply new_events_app; exact T1).
  assert (E2 : new_events w1 w2 = e2) by (apply new_events_app; exact T2).
  assert (E : new_events w w2 = e1 ++ e2).
  { apply new_events_app. rewrite T2, T1, app_assoc. reflexivity. }
  rewrite E, resumed_ids_app. destruct (A1 id Hid) as [H1|H1].
  - destruct (A2 id H1) as [H2|H2]; [left; exact H2|].
    right. apply elem_of_app. right. rewrite <- E2. exact H2.
  - right. apply elem_of_app. left. rewrite <- E1. exact H1.
Qed.

Lemma accounted_same_l (w0 w w' : world) :
  same_engine w0 w -> trace w = trace w0 -> accounted w w' -> accounted w0 w'.
Proof.
  intros [Hs Ho] Ht A id Hid. unfold new_events. rewrite <- Ht. apply A. rewrite Ho. exact Hid.
Qed.

Section with_pump.
Variable pump : world -> option world.
Variable pump_all : world -> option world.
Hypothesis pump_ok : forall w w', wf w -> pump w = Some w' -> wf w' /\ exists evs, advance evs w w'.
Hypothesis pump_all_ok : forall w w', wf w -> pump_all w = Some w' ->
  wf w' /\ exists evs, advance evs w w'.
Hypothesis pump_accounted : forall w w', wf w -> pump w = Some w' -> accounted w w'.
Hypothesis pump_all_accounted : forall w w', wf w -> pump_all w = Some w' -> accounted w w'.

Lemma exec_accounted (c : code) : forall w w', wf w -> exec env pump pump_all c w = Some w' ->
  accounted w w'.
Proof.
  induction c as [|R a k IH|t IHt k IHk|k IHk|k IHk]; intros w w' Hwf He; simpl in He.
  - injection He as <-. apply accounted_refl.
  - destruct (make_awaiter_same env a w) as (Hs1 & Ht1 & Hex & _).
    destruct (make_awaiter env a w) as [aw w1]. simpl in *.
    unfold co_await in He. simpl in He.
    destruct (awaiter_ready_same env aw w1) as (Hs2 & Ht2).
    destruct (awaiter_ready env aw w1) as [b w2]. simpl in *.
    assert (Hwf2 : wf w2) by (eapply same_engine_wf; [exact Hs2|]; eapply same_engine_wf; eassumption).
    assert (Hs : same_engine w w2) by (eapply same_engine_trans; eassumption).
    assert (Ht : trace w2 = trace w) by congruence.
    destruct b.
    + eapply accounted_same_l; [exact Hs|exact Ht|]. eapply IH; eassumption.
    + injection He as <-. intros id Hid. left. unfold awaiter_suspend, add_operation. simpl.
      apply elem_of_app. left. destruct Hs as [_ Ho]. rewrite Ho. exact Hid.
  - destruct (exec env pump pump_all t w) as [w1|] eqn:E1; simpl in He; [|discriminate].
    destruct (exec_ok env pump pump_all pump_ok pump_all_ok t w w1 Hwf E1) as (Hwf1 & e1 & A1).
    destruct (exec_ok env pump pump_all pump_ok pump_all_ok k w1 w' Hwf1 He) as (_ & e2 & A2).
    eapply accounted_trans; [exact (adv_trace _ _ _ A1)|exact (adv_trace _ _ _ A2)| |].
    + eapply IHt; eassumption.
    + eapply IHk; eassumption.
  - destruct (pump w) as [w1|] eqn:E1; simpl in He; [|discriminate].
    destruct (pump_ok w w1 Hwf E1) as (Hwf1 & e1 & A1).
    destruct (exec_ok env pump pump_all pump_ok pump_all_ok k w1 w' Hwf1 He) as (_ & e2 & A2).
    eapply accounted_trans; [exact (adv_trace _ _ _ A1)|exact (adv_trace _ _ _ A2)| |].
    + eapply pump_accounted; eassumption.
    + eapply IHk; eassumption.
  - destruct (pump_all w) as [w1|] eqn:E1; simpl in He; [|discriminate].
    destruct (pump_all_ok w w1 Hwf E1) as (Hwf1 & e1 & A1).
    destruct (exec_ok env pump pump_all pump_ok pump_all_ok k w1 w' Hwf1 He) as (_ & e2 & A2).
    eapply accounted_trans; [exact (adv_trace _ _ _ A1)|exact (adv_trace _ _ _ A2)| |].
    + eapply pump_all_accounted; eassumption.
    + eapply IHk; eassumption.
Qed.

Lemma resume_accounted (id : nat) (w w' : world) :
  wf w -> resume env pump pump_all id w = Some w' ->
  accounted w w' /\ id ∈ resumed_ids (new_events w w').
Proof.
  intros Hwf Hr.
  destruct (resume_ok env pump pump_all pump_ok pump_all_ok id w w' Hwf Hr)
    as (o & evs & Ho & Hwf' & A).
  unfold resume in Hr. rewrite Ho in Hr. simpl in Hr.
  destruct (handle o) as [h|]; simpl in Hr; [|discriminate].
  set (e := ev_resume id (exception o) (revents o) (operations w)) in *.
  assert (Hwfl : wf (log e w)) by (eapply same_engine_wf; [apply same_engine_log|exact Hwf]).
  pose proof (exec_accounted _ _ _ Hwfl Hr) as Ha.
  assert (E : new_events w w' = e :: evs).
  { apply new_events_app. rewrite (adv_trace _ _ _ A). simpl. rewrite <- app_assoc. reflexivity. }
  assert (E' : new_events (log e w) w' = evs) by (apply new_events_app; exact (adv_trace _ _ _ A)).
  split.
  - intros x Hx. destruct (Ha x Hx) as [H|H]; [left; exact H|].
    right. rewrite E. rewrite E' in H. change (e :: evs) with ([e] ++ evs).
    rewrite resumed_ids_app. apply elem_of_app. right. exact H.
  - rewrite E. left.
Qed.

Lemma resume_all_accounted (l : list nat) : forall w w',
  wf w -> resume_all env pump pump_all l w = Some w' ->
  accounted w w' /\ forall id, id ∈ l -> id ∈ resumed_ids (new_events w w').
Proof.
  induction l as [|id l IH]; intros w w' Hwf Hr; simpl in Hr.
  - injection Hr as <-. split; [apply accounted_refl|]. intros id H. inversion H.
  - destruct (resume env pump pump_all id w) as [w1|] eqn:E1; simpl in Hr; [|discriminate].
    destruct (resume_ok env pump pump_all pump_ok pump_all_ok id w w1 Hwf E1)
      as (o & evs1 & Ho & Hwf1 & A1).
    destruct (resume_accounted id w w1 Hwf E1) as [Ha1 Hin1].
    destruct (IH w1 w' Hwf1 Hr) as [Ha2 Hin2].
    assert (T1 : trace w1 = trace w ++ ev_resume id (exception o) (revents o) (operations w) :: evs1).
    { rewrite (adv_trace _ _ _ A1). simpl. rewrite <- app_assoc. reflexivity. }
    assert (T2 : exists e2, trace w' = trace w1 ++ e2).
    { clear - pump_ok pump_all_ok Hwf1 Hr. revert w1 Hwf1 Hr.
      induction l as [|x l IHl]; intros w1 Hwf1 Hr; simpl in Hr.
      - injection Hr as <-. exists []. rewrite app_nil_r. reflexivity.
      - destruct (resume env pump pump_all x w1) as [w2|] eqn:E2; simpl in Hr; [|discriminate].
        destruct (resume_ok env pump pump_all pump_ok pump_all_ok x w1 w2 Hwf1 E2)
          as (o & evs & Ho & Hwf2 & A).
        destruct (IHl w2 Hwf2 Hr) as [e2 He2]. eexists. rewrite He2, (adv_trace _ _ _ A). simpl.
        rewrite <- !app_assoc. reflexivity. }
    destruct T2 as [e2 T2].
    split; [eapply accounted_trans; eassumption|].
    assert (E : new_events w w' = (ev_resume id (exception o) (revents o) (operations w) :: evs1) ++ e2).
    { apply new_events_app. rewrite T2, T1, app_assoc. reflexivity. }
    intros x Hx. rewrite E, resumed_ids_app. apply elem_of_app.
    apply elem_of_cons in Hx as [->|Hx].
    + left. rewrite <- (new_events_app w w1 _ T1). exact Hin1.
    + right. rewrite <- (new_events_app w1 w' _ T2). apply Hin2. exact Hx.
Qed.

Lemma do_pull_accounted (poll_fn : poll_function) (w w' : world) :
  wf w -> do_pull env pump pump_all poll_fn w = Some w' -> accounted w w'.
Proof.
  intros Hwf Hd. unfold do_pull in Hd.
  destruct (build_fds w) as [fds|]; simpl in Hd; [|discriminate].
  destruct (poll_fn fds w) as [out|]; simpl in Hd; [|discriminate].
  rewrite after_poll_log in Hd.
  destruct (after_poll_ok env out w Hwf) as (Hwf1 & Hnd & Hl & Hret & Htr).
  set (l := fst (after_poll env out w)) in *.
  set (w1 := snd (after_poll env out w)) in *.
  set (e := ev_pull (operations w)) in *.
  assert (Hwfl : wf (log e w1)) by (eapply same_engine_wf; [apply same_engine_log|exact Hwf1]).
  destruct (resume_all_accounted l (log e w1) w' Hwfl Hd) as [Ha Hin].
  destruct (resume_all_ok env pump pump_all pump_ok pump_all_ok l (log e w1) w' Hwfl Hnd)
    as (_ & evs & T & _).
  { intros x Hx. apply (same_engine_retired w1 (log e w1)); [apply same_engine_log|]. apply Hl. exact Hx. }
  { exact Hd. }
  assert (E' : new_events (log e w1) w' = evs) by (apply new_events_app; exact T).
  assert (E : new_events w w' = e :: evs).
  { apply new_events_app. rewrite T. simpl. rewrite Htr, <- app_assoc. reflexivity. }
  rewrite E' in Hin.
  intros id Hid. rewrite E. change (e :: evs) with ([e] ++ evs). rewrite resumed_ids_app.
  destruct (decide (id ∈ l)) as [Hl'|Hl'].
  - right. apply elem_of_app. right. apply Hin. exact Hl'.
  - assert (Hid1 : id ∈ operations w1).
    { subst w1 l. rewrite after_poll_unfold in *. unfold select in *. simpl in *.
      apply list_elem_of_filter. split; [|exact Hid].
      intros Hp. apply Hl'. apply list_elem_of_filter. split; assumption. }
    destruct (Ha id Hid1) as [H|H]; [left; exact H|].
    right. apply elem_of_app. right. rewrite E' in H. exact H.
Qed.

End with_pump.

Lemma pumps_accounted (n : nat) :
  (forall w w', wf w -> pull env n w = Some w' -> accounted w w')
  /\ (forall w w', wf w -> pull_all env n w = Some w' -> accounted w w').
Proof.
  induction n as [|n [IH1 IH2]].
  - split; intros w w' Hwf Hp; [discriminate|].
    simpl in Hp. destruct (operations w); [|discriminate]. injection Hp as <-.
    apply accounted_refl.
  - assert (Hpull : forall poll_fn w w', wf w ->
              do_pull env (pull env n) (pull_all env n) poll_fn w = Some w' -> accounted w w').
    { intros poll_fn w w' Hwf Hd.
      eapply do_pull_accounted;
        [apply pull_ok|apply pull_all_advances|exact IH1|exact IH2|exact Hwf|exact Hd]. }
    split; intros w w' Hwf Hp.
    + rewrite pull_unfold in Hp. eapply Hpull; eassumption.
    + rewrite pull_all_unfold in Hp. destruct (operations w) eqn:Hops.
      * injection Hp as <-. apply accounted_refl.
      * destruct (do_pull env (pull env n) (pull_all env n) (pull_all_poll_fn env (S n)) w)
          as [w1|] eqn:Hd; simpl in Hp; [|discriminate].
        destruct (do_pull_ok env _ _ (pull_ok env n) (pull_all_advances env n) _ w w1 Hwf Hd)
          as (Hwf1 & e1 & A1).
        destruct (pull_all_advances env n w1 w' Hwf1 Hp) as (_ & e2 & A2).
        eapply accounted_trans; [exact (adv_trace _ _ _ A1)|exact (adv_trace _ _ _ A2)| |].
        -- eapply Hpull; eassumption.
        -- eapply IH2; eassumption.
Qed.

Lemma pull_accounted (n : nat) : forall w w', wf w -> pull env n w = Some w' -> accounted w w'.
Proof. apply pumps_accounted. Qed.

Lemma pull_all_accounted (n : nat) : forall w w',
  wf w -> pull_all env n w = Some w' -> accounted w w'.
Proof. apply pumps_accounted. Qed.

End reactor_accounting.

Section reactor_polls.
Variable env : environment.

(** The [poll_fn] of [pull()] answers with a call of [::poll] on the same
    descriptors and interests, with a zero timeout, that was not interrupted
    by a signal. *)
Lemma nonblocking_poll_outcome (n : nat) : forall fds t e out,
  nonblocking_poll env n fds t e = Some out ->
  exists k fds',
    (k < n)%nat
    /\ po_tick out = S (t + k)
    /\ pfd_fd <$> fds' = pfd_fd <$> fds
    /\ pfd_events <$> fds' = pfd_events <$> fds
    /\ po_ret out = sys_ret (sys_poll env (t + k)%nat fds' 0)
    /\ po_revents out = sys_revents (sys_poll env (t + k)%nat fds' 0)
    /\ (po_ret out = -1 ->
          po_errno out = sys_errno (sys_poll env (t + k)%nat fds' 0) /\ po_errno out <> EINTR).
Proof.
  induction n as [|n IH]; intros fds t e out H; [discriminate|].
  cbn [nonblocking_poll] in H.
  destruct ((sys_ret (sys_poll env t fds 0) =? -1) && (sys_errno (sys_poll env t fds 0) =? EINTR))
    eqn:Hint.
  - apply IH in H as (k & fds' & Hk & Ht & Hfd & Hev & Hr & Hrev & He).
    destruct (with_revents_fd (sys_revents (sys_poll env t fds 0)) fds) as [F1 F2].
    exists (S k), fds'. replace (t + S k)%nat with (S t + k)%nat by lia.
    split; [lia|]. split; [exact Ht|]. split; [congruence|]. split; [congruence|].
    split; [exact Hr|]. split; [exact Hrev|exact He].
  - injection H as <-. exists O, fds. rewrite Nat.add_0_r. simpl.
    split; [lia|]. split; [reflexivity|]. split; [reflexivity|]. split; [reflexivity|].
    split; [reflexivity|]. split; [reflexivity|].
    intros Hr. apply Z.eqb_eq in Hr. rewrite Hr in *. simpl in Hint. split; [reflexivity|].
    apply Z.eqb_neq. exact Hint.
Qed.

(** The loop of the [poll_fn] of [pull_all()] ends in one of three ways. *)
Lemma blocking_poll_outcome (n : nat) : forall nearest fds t e out,
  blocking_poll env n nearest fds t e = Some out ->
  exists t', (t <= t')%nat
    /\ ((po_ret out = 0 /\ po_tick out = S t'
         /\ nearest - steady_clock env t' <= -1000000)
        \/ (po_ret out = -1 /\ po_tick out = S (S t') /\ po_errno out <> EINTR
            /\ 0 <= Z.quot (nearest - steady_clock env t') 1000000)
        \/ (0 < po_ret out /\ po_tick out = S (S t')
            /\ 0 <= Z.quot (nearest - steady_clock env t') 1000000)).
Proof.
  induction n as [|n IH]; intros nearest fds t e out H; [discriminate|].
  cbn [blocking_poll] in H.
  destruct (Z.ltb_spec (Z.quot (nearest - steady_clock env t) 1000000) 0) as [Hq|Hq].
  - injection H as <-. exists t. split; [lia|]. left. simpl.
    split; [reflexivity|]. split; [reflexivity|]. apply quot_negative in Hq; lia.
  - set (r := sys_poll env (S t) fds (to_int (Z.quot (nearest - steady_clock env t) 1000000))) in *.
    destruct (Z.eqb_spec (sys_ret r) (-1)) as [Hr|Hr].
    + destruct (Z.eqb_spec (sys_errno r) EINTR) as [He|He].
      * apply IH in H as (t' & Ht & Ho). exists t'. split; [lia|exact Ho].
      * injection H as <-. exists t. split; [lia|]. right. left. simpl. tauto.
    + destruct (Z.ltb_spec 0 (sys_ret r)) as [Hp|Hp].
      * injection H as <-. exists t. split; [lia|]. right. right. simpl. tauto.
      * apply IH in H as (t' & Ht & Ho). exists t'. split; [lia|exact Ho].
Qed.

End reactor_polls.

Section reactor_more.
Variable env : environment.

Lemma pull_all_ok (n : nat) : forall w w',
  wf w -> pull_all env n w = Some w' ->
  wf w' /\ operations w' = [] /\ (exists evs, advance evs w w') /\ accounted w w'.
Proof.
  intros w w' Hwf Hp.
  destruct (pull_all_advances env n w w' Hwf Hp) as (Hwf' & A).
  split; [exact Hwf'|]. split; [|split; [exact A|eapply pull_all_accounted; eassumption]].
  clear Hwf Hwf' A. revert w Hp. induction n as [|n IH]; intros w Hp; simpl in Hp.
  - destruct (operations w) eqn:Hops; [|discriminate]. injection Hp as <-. exact Hops.
  - destruct (operations w) eqn:Hops; [injection Hp as <-; exact Hops|].
    destruct (do_pull env (pull env n) (pull_all env n) (pull_all_poll_fn env (S n)) w) as [w1|];
      simpl in Hp; [|discriminate].
    eapply IH. exact Hp.
Qed.

Lemma accounted_advance (evs : list event) (w w' : world) (id : nat) :
  advance evs w w' -> accounted w w' -> id ∈ operations w ->
  (id ∈ operations w' /\ resumptions [id] (new_events w w') = [])
  \/ ((id ∉ operations w')
      /\ exists ex rev, resumptions [id] (new_events w w') = [(id, ex, rev)]).
Proof.
  intros A Ha Hid. pose proof (new_events_app w w' evs (adv_trace _ _ _ A)) as E.
  specialize (Ha id Hid). rewrite E in *.
  destruct (decide (id ∈ resumed_ids evs)) as [Hr|Hr].
  - right. split; [apply (adv_resumed _ _ _ A id Hr)|].
    apply resumptions_once; [exact (adv_nodup _ _ _ A)|exact Hr].
  - left. split; [tauto|]. apply resumptions_not_resumed. exact Hr.
Qed.

(** The destructor's loop resumes the operations of every prefix of the
    registry in reverse order. *)
Lemma destroy_loop_order (pump pump_all : world -> option world) (n : nat) : forall w w',
  wf w -> pull_free_world w -> destroy_loop env pump pump_all n w = Some w' ->
  forall p q, operations w = p ++ q ->
    filter (.∈ p) (resumed_ids (new_events w w')) = reverse p.
Proof.
  induction n as [|n IH]; intros w w' Hwf Hpf Hd p q Hpq.
  - simpl in Hd. destruct (last (operations w)) eqn:Hl; [discriminate|]. injection Hd as <-.
    apply last_None in Hl. rewrite Hl in Hpq. symmetry in Hpq. apply app_eq_nil in Hpq as [-> _].
    unfold new_events. rewrite drop_all. reflexivity.
  - destruct (operations w) as [|id l0] eqn:Hops using rev_ind.
    + rewrite destroy_loop_done in Hd by exact Hops. injection Hd as <-.
      symmetry in Hpq. apply app_eq_nil in Hpq as [-> _].
      unfold new_events. rewrite drop_all. reflexivity.
    + clear IHl0. rename l0 into l.
      pose proof (wf_nodup _ Hwf) as Hnd. rewrite Hops in Hnd.
      apply NoDup_app in Hnd as (Hndl & Hdis & _).
      assert (Hidl : id ∉ l) by (intros Hin; apply (Hdis id Hin); left).
      destruct (wf_lookup w id Hwf) as (o & Ho & Hr).
      { rewrite Hops. apply elem_of_app. right. left. }
      destruct (registrable_handle o Hr) as [h Hh].
      destruct (resume_turn env pump pump_all w l id o h Hwf Hpf Hops Ho Hh)
        as (w3 & added & Hr3 & _ & Hwf3 & Hpf3 & Hop3 & Hst3 & Htr3 & Hid3 & Hfr3).
      rewrite (destroy_loop_turn env pump pump_all n w l id Hops), Hr3 in Hd. simpl in Hd.
      destruct (destroy_loop_resumes env pump pump_all n w3 w' Hwf3 Hpf3 Hd)
        as (evs & Htr & Hout & _).
      assert (Hida : id ∉ added) by (intros Hx; apply Hfr3 in Hx; congruence).
      assert (E3 : new_events w3 w' = evs) by (apply new_events_app; exact Htr).
      assert (E : new_events w w'
                  = [ev_resume id (Some destroyed) (revents o) l] ++ map ev_add added ++ evs).
      { apply new_events_app. rewrite Htr, Htr3. simpl. rewrite <- app_assoc. reflexivity. }
      assert (Hnr : id ∉ resumed_ids evs).
      { apply resumptions_nil_not_resumed. apply Hout; [exact Hid3|].
        rewrite Hop3. intros Hx. apply elem_of_app in Hx as [Hx|Hx]; [exact (Hidl Hx)|exact (Hida Hx)]. }
      rewrite E, !resumed_ids_app, resumed_ids_adds. simpl.
      destruct q as [|x q0 _] using rev_ind.
      * rewrite app_nil_r in Hpq. subst p.
        rewrite filter_cons_True by (apply elem_of_app; right; left).
        rewrite reverse_snoc. f_equal.
        rewrite <- (IH w3 w' Hwf3 Hpf3 Hd l added Hop3), E3.
        apply filter_ext_in. intros y Hy. rewrite elem_of_app, list_elem_of_singleton.
        split; [intros [Hy1 | Hy1]; [exact Hy1|subst y; contradiction]|tauto].
      * rewrite app_assoc in Hpq. apply app_inj_tail in Hpq as [Hl ->].
        rewrite filter_cons_False.
        -- rewrite <- E3. apply (IH w3 w' Hwf3 Hpf3 Hd p (q0 ++ added)).
           rewrite Hop3, Hl, app_assoc. reflexivity.
        -- intros Hx. apply Hidl. rewrite Hl. apply elem_of_app. left. exact Hx.
Qed.

(** X9: awaiting an awaitable of the engine that is not due ([poll_once]
    never is; the others when their deadline is after the reading of the
    clock in [await_ready]) suspends the coroutine and registers exactly one
    new operation, at the back of the registry: a new object with the
    descriptor, the interest mask and the deadline asked for, no events, no
    exception, and the handle of the coroutine, which continues with the
    value of [await_resume] once resumed.  No other operation object is
    touched. *)
Theorem await_future_deadline_registers (pump pump_all : world -> option world) {R : Type}
    (a : awaitable R) (k : result R -> code) (w : world) :
  (forall t, deadline env a w = Some t -> awaiting_time env a w < t) ->
  let id := fresh (dom (store w)) in
  let aw := fst (make_awaiter env a w) in
  exists w' o,
    exec env pump pump_all (co_await_engine a k) w = Some w'
    /\ store w !! id = None
    /\ operations w' = operations w ++ [id]
    /\ store w' = <[id := o]> (store w)
    /\ trace w' = trace w ++ [ev_add id]
    /\ (fd o, events o) = registers a
    /\ timeout o = default 0 (deadline env a w)
    /\ revents o = 0 /\ exception o = None
    /\ handle o = Some (fun ex rev => k (awaiter_resume (kind aw) ex rev)).
Proof.
  intros Hd id aw. subst id aw. unfold awaiting_time in Hd.
  assert (Hfresh : store w !! fresh (dom (store w)) = None) by apply fresh_not_allocated.
  destruct a; simpl in *; unfold co_await; simpl; unfold awaiter_ready; simpl;
    try (specialize (Hd _ eq_refl); apply Z.leb_gt in Hd; rewrite Hd);
    eexists; eexists; (split; [reflexivity|]); simpl;
    (split; [exact Hfresh|]); repeat split.
Qed.

Section one_pass.
Variable n : nat.
Variable poll_fn : poll_function.
Variable w : world.
Variable fds : list pollfd.
Variable out : poll_outcome.
Hypothesis Hwf : wf w.
Hypothesis Hfds : build_fds w = Some fds.
Hypothesis Hout : poll_fn fds w = Some out.

(** X10: an operation as [poll_once] registers it (no interest, the epoch as
    deadline) is taken out of the registry and resumed, exactly once, by the
    first pass whose clock reading is not before the epoch, ready or not.
    With [poll] keeping its promise about [revents], its [await_resume]
    either returns an empty event mask or throws: the error of a failed
    [::poll], or the [poll_error] of the flag reported for its descriptor.  It
    never returns a mask that is not empty. *)
Theorem poll_once_resolved_by_next_pass (w' : world) (i id : nat) (o : operation) :
  poll_contract w out -> 0 <= pass_now env out ->
  do_pull env (pull env n) (pull_all env n) poll_fn w = Some w' ->
  operations w !! i = Some id -> store w !! id = Some o ->
  events o = 0 -> timeout o = 0 ->
  (id ∉ operations w')
  /\ exists ex rev,
       resumptions [id] (new_events w w') = [(id, ex, rev)]
       /\ match ex with
          | None => rev = 0 /\ awaiter_resume poll_once_awaiter ex rev = returns 0
          | Some e =>
              (awaiter_resume poll_once_awaiter ex rev = throws e)
              /\ fd o <> -1
              /\ ((e = system_error (po_errno out) "poll") \/ poll_error_fd e = Some (fd o))
          end.
Proof.
  intros Hpc Hnow Hpass Hi Ho Hev Hto.
  pose proof (pass_operation env n poll_fn w fds out Hwf Hfds Hout w' i id o Hpass Hi Ho) as Hp.
  pose proof (registered_exception w Hwf id o i Hi Ho) as Hex.
  destruct (Hpc i id o Hi Ho) as [Hneg Hsub]. rewrite Hev in Hsub.
  assert (Hpred : pass_pred env out (seen out i o) = true).
  { unfold pass_pred. assert (Hle : (timeout o <=? pass_now env out) = true) by (apply Z.leb_le; lia).
    destruct (po_ret out =? -1); unfold to_remove_failed, to_remove_ready, seen; simpl;
      rewrite Hle; apply orb_true_r. }
  rewrite Hpred in Hp. destruct Hp as (_ & _ & Hrem & Hp).
  split; [exact Hrem|]. eexists; eexists. split; [exact Hp|].
  unfold pass_fix.
  destruct (Z.eqb_spec (fd o) (-1)) as [Hfd|Hfd].
  - assert (Hrev : po_revents out i = 0) by (apply Hneg; lia).
    assert (Hfd' : fd (seen out i o) = -1) by exact Hfd.
    destruct (po_ret out =? -1); [rewrite fail_with_timer|rewrite classify_timer];
      try exact Hfd'; simpl; rewrite Hex, Hrev; split; reflexivity.
  - apply Z.eqb_neq in Hfd as Hfdb. destruct (po_ret out =? -1).
    + unfold fail_with, seen. simpl. rewrite Hfdb. simpl.
      split; [reflexivity|]. split; [exact Hfd|left; reflexivity].
    + unfold classify, seen. simpl. rewrite Hfdb. simpl.
      destruct (has_flag (po_revents out i) POLLERR) eqn:He; simpl;
        [split; [reflexivity|split; [exact Hfd|right; reflexivity]]|].
      destruct (has_flag (po_revents out i) POLLHUP) eqn:Hh; simpl;
        [split; [reflexivity|split; [exact Hfd|right; reflexivity]]|].
      destruct (has_flag (po_revents out i) POLLNVAL) eqn:Hn; simpl;
        [split; [reflexivity|split; [exact Hfd|right; reflexivity]]|].
      rewrite Hex. rewrite (no_error_flag_no_event _ Hsub He Hh Hn). split; reflexivity.
Qed.

End one_pass.

(** X11: [pull()] calls [::poll] again while it fails with [EINTR]; the
    answer its pass works on is never a failure with [EINTR], so no operation
    the pass resumes finds a [std::system_error] with that code. *)
Theorem pull_never_reports_eintr (n : nat) (w w' : world) (fds : list pollfd) :
  wf w -> build_fds w = Some fds -> pull env (S n) w = Some w' ->
  exists out,
    pull_poll_fn env (S n) fds w = Some out
    /\ forall i id o, operations w !! i = Some id -> store w !! id = Some o ->
         id ∈ fst (after_poll env out w) ->
         exists ex, resumptions [id] (new_events w w') = [(id, ex, po_revents out i)]
                    /\ forall what, ex <> Some (system_error EINTR what).
Proof.
  intros Hwf Hfds Hp. rewrite pull_unfold in Hp.
  destruct (pull_poll_fn env (S n) fds w) as [out|] eqn:Hout.
  2:{ unfold do_pull in Hp. rewrite Hfds in Hp. simpl in Hp. rewrite Hout in Hp. discriminate. }
  exists out. split; [reflexivity|]. intros i id o Hi Ho Hin.
  pose proof (pass_operation env n _ w fds out Hwf Hfds Hout w' i id o Hp Hi Ho) as Hpo.
  pose proof (registered_exception w Hwf id o i Hi Ho) as Hex.
  destruct (pass_pred env out (seen out i o)); [|tauto].
  destruct Hpo as (_ & _ & _ & Hr). eexists. split; [exact Hr|].
  unfold pull_poll_fn in Hout.
  destruct (nonblocking_poll_outcome env _ _ _ _ _ Hout) as (k & fds' & _ & _ & _ & _ & _ & _ & He).
  intros what. unfold pass_fix.
  destruct (Z.eqb_spec (po_ret out) (-1)) as [Hret|Hret].
  - destruct (He Hret) as [_ Hne]. unfold fail_with, seen. simpl.
    destruct (negb (fd o =? -1)); simpl; [|rewrite Hex; discriminate].
    intros [= Hc _]. exact (Hne Hc).
  - unfold classify, seen. simpl.
    repeat match goal with |- context [if ?b then _ else _] => destruct b end;
      simpl; rewrite ?Hex; discriminate.
Qed.

(** X12: [pull()], passes started by resumed coroutines included, takes an
    operation out of the registry only to resume it: an operation that was
    registered before the call either is still registered afterwards and was
    not resumed, or is out of the registry and was resumed exactly once. *)
Theorem pull_resumes_what_it_removes (n : nat) (w w' : world) :
  wf w -> pull env n w = Some w' ->
  forall id, id ∈ operations w ->
    (id ∈ operations w' /\ resumptions [id] (new_events w w') = [])
    \/ ((id ∉ operations w')
        /\ exists ex rev, resumptions [id] (new_events w w') = [(id, ex, rev)]).
Proof.
  intros Hwf Hp id Hid. destruct (pull_ok env n w w' Hwf Hp) as (_ & evs & A).
  eapply accounted_advance; [exact A| |exact Hid]. eapply pull_accounted; eassumption.
Qed.

(** X13: whatever user code does on a new engine (awaiting, starting
    tasks, calling [pull()] or [pull_all()]), the registry never holds an
    address twice and every registered operation has its handle set and no
    exception stored; [pull()], [pull_all()] and further user code keep it
    so. *)
Theorem engine_keeps_registry_invariant (n : nat) (c : code) (w : world) :
  exec env (pull env n) (pull_all env n) c new_engine = Some w ->
  wf w
  /\ (forall m w', pull env m w = Some w' -> wf w')
  /\ (forall m w', pull_all env m w = Some w' -> wf w')
  /\ (forall m c' w', exec env (pull env m) (pull_all env m) c' w = Some w' -> wf w').
Proof.
  intros He.
  destruct (exec_ok env (pull env n) (pull_all env n) (pull_ok env n) (pull_all_advances env n)
              c _ w new_engine_wf He) as [Hwf _].
  split; [exact Hwf|]. split; [|split].
  - intros m w' Hp. eapply pull_ok; eassumption.
  - intros m w' Hp. eapply pull_all_ok; eassumption.
  - intros m c' w' Hp. eapply exec_ok; [apply pull_ok|apply pull_all_advances|exact Hwf|exact Hp].
Qed.

(** X14: the [min_timeout] that [pull_all()] computes is the nearest
    deadline: it is not after the deadline of any registered operation, it is
    the deadline of one of them or [time_point::max()], and it is
    [time_point::max()] when nothing is registered. *)
Theorem min_timeout_is_nearest_deadline (w : world) :
  (forall id o, id ∈ operations w -> store w !! id = Some o -> min_timeout w <= timeout o)
  /\ min_timeout w <= time_point_max
  /\ (min_timeout w = time_point_max
      \/ exists id o, id ∈ operations w /\ store w !! id = Some o /\ timeout o = min_timeout w)
  /\ (operations w = [] -> min_timeout w = time_point_max).
Proof.
  unfold min_timeout.
  destruct (min_timeout_fold (store w) (operations w) time_point_max) as (H1 & H2 & H3).
  split; [exact H2|]. split; [exact H1|]. split; [exact H3|].
  intros ->. reflexivity.
Qed.

(** X15: the [poll_fn] of [pull_all()] returns to [do_pull] in one of
    three ways: with 0, right after a reading of the clock that is at least
    a millisecond past the nearest deadline; with -1, when [::poll] failed
    with an error other than [EINTR]; or with a positive count that [::poll]
    returned.  In the last two cases the clock reading before that call of
    [::poll] was less than a millisecond past the nearest deadline. *)
Theorem pull_all_wait_outcome (n : nat) (fds : list pollfd) (w : world) (out : poll_outcome) :
  pull_all_poll_fn env n fds w = Some out ->
  exists t', (tick w <= t')%nat
    /\ ((po_ret out = 0 /\ po_tick out = S t'
         /\ min_timeout w - steady_clock env t' <= -1000000)
        \/ (po_ret out = -1 /\ po_tick out = S (S t') /\ po_errno out <> EINTR
            /\ 0 <= Z.quot (min_timeout w - steady_clock env t') 1000000)
        \/ (0 < po_ret out /\ po_tick out = S (S t')
            /\ 0 <= Z.quot (min_timeout w - steady_clock env t') 1000000)).
Proof. apply blocking_poll_outcome. Qed.

(** X16: with a clock that does not go back, a pass of [pull_all()] whose
    wait ended on the deadline (return value 0) resolves the operation with
    the nearest deadline: [do_pull] finds that deadline passed and takes the
    operation out of the registry to resume it. *)
Theorem pull_all_timeout_resolves_nearest_deadline (n : nat) (fds : list pollfd) (w : world)
    (out : poll_outcome) :
  wf w ->
  (forall a b, (a <= b)%nat -> steady_clock env a <= steady_clock env b) ->
  (forall a, steady_clock env a <= time_point_max) ->
  pull_all_poll_fn env n fds w = Some out -> po_ret out = 0 ->
  exists id o,
    id ∈ operations w /\ store w !! id = Some o
    /\ timeout o = min_timeout w
    /\ timeout o + 1000000 <= pass_now env out
    /\ id ∈ fst (after_poll env out w)
    /\ (id ∉ operations (snd (after_poll env out w))).
Proof.
  intros Hwf Hmono Hmax Hout Hret.
  destruct (blocking_poll_outcome env _ _ _ _ _ _ Hout) as (t' & Ht & [H|[H|H]]); [|lia|lia].
  destruct H as (_ & Htick & Hlate).
  destruct (min_timeout_fold (store w) (operations w) time_point_max) as (_ & _ & H3).
  fold (min_timeout w) in H3.
  destruct H3 as [H3|(id & o & Hid & Ho & Hto)].
  { specialize (Hmax t'). lia. }
  assert (Hnow : timeout o + 1000000 <= pass_now env out).
  { unfold pass_now. rewrite Htick. specialize (Hmono t' (S t')). lia. }
  exists id, o. split; [exact Hid|]. split; [exact Ho|]. split; [exact Hto|].
  split; [exact Hnow|].
  apply list_elem_of_lookup_1 in Hid as [i Hi].
  pose proof (after_poll_spec env out w i id o (wf_nodup _ Hwf) Hi Ho) as Hsp. simpl in Hsp.
  assert (Hp : pass_pred env out (seen out i o) = true).
  { unfold pass_pred. rewrite Hret. simpl. unfold to_remove_ready, seen. simpl.
    apply orb_true_iff. right. apply Z.leb_le. lia. }
  rewrite Hp in Hsp. tauto.
Qed.

(** X17: when [pull_all()] returns the registry is empty, and every
    operation that was registered when it was called has been resumed exactly
    once. *)
Theorem pull_all_resumes_every_operation (n : nat) (w w' : world) :
  wf w -> pull_all env n w = Some w' ->
  operations w' = []
  /\ forall id, id ∈ operations w ->
       exists ex rev, resumptions [id] (new_events w w') = [(id, ex, rev)].
Proof.
  intros Hwf Hp. destruct (pull_all_ok n w w' Hwf Hp) as (_ & He & (evs & A) & Ha).
  split; [exact He|]. intros id Hid.
  destruct (accounted_advance evs w w' id A Ha Hid) as [[Hin _]|[_ H]]; [|exact H].
  rewrite He in Hin. inversion Hin.
Qed.

(** X18: whenever the destructor returns, on an engine whose suspended
    coroutines do not call [pull()] or [pull_all()] once resumed, it has
    resumed the operations that were registered in the reverse order of their
    registration. *)
Theorem destroy_resumes_in_reverse_order (n : nat) (w w' : world) :
  wf w -> pull_free_world w -> destroy env n w = Some w' ->
  filter (.∈ operations w) (resumed_ids (new_events w w')) = reverse (operations w).
Proof.
  intros Hwf Hpf Hd.
  apply (destroy_loop_order (pull env n) (pull_all env n) n w w' Hwf Hpf Hd (operations w) []).
  rewrite app_nil_r. reflexivity.
Qed.

End reactor_more.

Lemma pull_resumes_what_it_removes_witness :
  let env := scenario_env poll_writable in
  let w := scenario poll_writable in
  wf w /\ operations w = [0; 1; 2; 3]%nat
  /\ exists w',
       pull env 2 w = Some w'
       /\ resumed_ids (new_events w w') = [1; 2]%nat
       /\ forall id, id ∈ operations w ->
            (id ∈ operations w' /\ resumptions [id] (new_events w w') = [])
            \/ ((id ∉ operations w')
                /\ exists ex rev, resumptions [id] (new_events w w') = [(id, ex, rev)]).
Proof.
  intros env w.
  assert (Hwf : wf w) by (apply wf_check_sound; vm_compute; reflexivity).
  split; [exact Hwf|]. split; [vm_compute; reflexivity|].
  destruct (pull env 2 w) as [w'|] eqn:Hp; [|vm_compute in Hp; discriminate Hp].
  exists w'. split; [reflexivity|].
  split; [|exact (pull_resumes_what_it_removes env 2 w w' Hwf Hp)].
  fetch Hp. vm_compute. reflexivity.
Defined.

Lemma pull_all_resumes_every_operation_witness :
  wf draining_world /\ operations draining_world = [0; 1]%nat
  /\ exists w',
       pull_all draining_env 3 draining_world = Some w'
       /\ resumed_ids (new_events draining_world w') = [0; 1]%nat
       /\ operations w' = []
       /\ forall id, id ∈ operations draining_world ->
            exists ex rev, resumptions [id] (new_events draining_world w') = [(id, ex, rev)].
Proof.
  assert (Hwf : wf draining_world) by (apply wf_check_sound; vm_compute; reflexivity).
  split; [exact Hwf|]. split; [vm_compute; reflexivity|].
  destruct (pull_all draining_env 3 draining_world) as [w'|] eqn:Hp;
    [|vm_compute in Hp; discriminate Hp].
  exists w'. split; [reflexivity|].
  split; [|exact (pull_all_resumes_every_operation draining_env 3 draining_world w' Hwf Hp)].
  fetch Hp. vm_compute. reflexivity.
Defined.

Lemma engine_keeps_registry_invariant_witness :
  let env := scenario_env poll_writable in
  exists w,
    exec env (pull env 1) (pull_all env 1) scenario_code new_engine = Some w
    /\ operations w = [0; 1; 2; 3]%nat
    /\ wf w
    /\ (forall m w', pull env m w = Some w' -> wf w')
    /\ (forall m w', pull_all env m w = Some w' -> wf w')
    /\ (forall m c' w', exec env (pull env m) (pull_all env m) c' w = Some w' -> wf w').
Proof.
  intros env.
  destruct (exec env (pull env 1) (pull_all env 1) scenario_code new_engine) as [w|] eqn:He;
    [|vm_compute in He; discriminate He].
  exists w. split; [reflexivity|].
  split; [|exact (engine_keeps_registry_invariant env 1 scenario_code w He)].
  fetch He. vm_compute. reflexivity.
Defined.

Lemma draining_clock_monotone (a b : nat) :
  (a <= b)%nat -> steady_clock draining_env a <= steady_clock draining_env b.
Proof.
  intros Hab. simpl. destruct (Nat.ltb_spec a 2), (Nat.ltb_spec b 2); lia.
Qed.

Lemma draining_clock_bounded (a : nat) : steady_clock draining_env a <= time_point_max.
Proof. simpl. destruct (a <? 2)%nat; unfold time_point_max; lia. Qed.

Lemma pull_all_wait_outcome_witness :
  pull_all_poll_fn draining_env 3 draining_fds draining_world = Some draining_out
  /\ min_timeout draining_world = 2000000
  /\ exists t', (tick draining_world <= t')%nat
       /\ ((po_ret draining_out = 0 /\ po_tick draining_out = S t'
            /\ min_timeout draining_world - steady_clock draining_env t' <= -1000000)
           \/ (po_ret draining_out = -1 /\ po_tick draining_out = S (S t')
               /\ po_errno draining_out <> EINTR
               /\ 0 <= Z.quot (min_timeout draining_world - steady_clock draining_env t') 1000000)
           \/ (0 < po_ret draining_out /\ po_tick draining_out = S (S t')
               /\ 0 <= Z.quot (min_timeout draining_world - steady_clock draining_env t') 1000000)).
Proof.
  assert (Hout : pull_all_poll_fn draining_env 3 draining_fds draining_world = Some draining_out)
    by (vm_compute; reflexivity).
  split; [exact Hout|]. split; [vm_compute; reflexivity|].
  exact (pull_all_wait_outcome draining_env 3 draining_fds draining_world draining_out Hout).
Defined.

Lemma pull_all_timeout_resolves_nearest_deadline_witness :
  wf draining_world
  /\ pull_all_poll_fn draining_env 3 draining_fds draining_world = Some draining_out
  /\ exists id o,
       id ∈ operations draining_world /\ store draining_world !! id = Some o
       /\ timeout o = min_timeout draining_world
       /\ timeout o + 1000000 <= pass_now draining_env draining_out
       /\ id ∈ fst (after_poll draining_env draining_out draining_world)
       /\ (id ∉ operations (snd (after_poll draining_env draining_out draining_world))).
Proof.
  assert (Hwf : wf draining_world) by (apply wf_check_sound; vm_compute; reflexivity).
  assert (Hout : pull_all_poll_fn draining_env 3 draining_fds draining_world = Some draining_out)
    by (vm_compute; reflexivity).
  split; [exact Hwf|]. split; [exact Hout|].
  exact (pull_all_timeout_resolves_nearest_deadline draining_env 3 draining_fds draining_world
           draining_out Hwf draining_clock_monotone draining_clock_bounded Hout eq_refl).
Defined.

Lemma await_future_deadline_registers_witness :
  let env := scenario_env poll_nothing in
  let a := poll_for 3 POLLIN 40 in
  let k := fun _ : result Z => finish in
  exists w' o,
    exec env (pull env 1) (pull_all env 1) (co_await_engine a k) new_engine = Some w'
    /\ operations w' = [0%nat]
    /\ store w' !! 0%nat = Some o
    /\ (fd o, events o) = (3, POLLIN)
    /\ timeout o = 50.
Proof.
  intros env a k.
  destruct (await_future_deadline_registers env (pull env 1) (pull_all env 1) a k new_engine)
    as (w' & o & He & _ & Hops & Hst & _ & Hfd & Hto & _).
  { intros t Ht. injection Ht as <-. vm_compute. reflexivity. }
  exists w', o. split; [exact He|]. split; [exact Hops|].
  split; [rewrite Hst; apply lookup_insert_eq|]. split; [exact Hfd|exact Hto].
Defined.

Lemma once_poll_contract : poll_contract once_world once_out.
Proof.
  intros i id o Hi Ho. destruct i as [|i]; [|vm_compute in Hi; discriminate Hi].
  vm_compute in Hi. injection Hi as <-. vm_compute in Ho. injection Ho as <-.
  split; [intros H; vm_compute in H; discriminate H|reflexivity].
Qed.

Lemma poll_once_resolved_by_next_pass_witness :
  let env := scenario_env poll_hangup in
  wf once_world /\ operations once_world = [0%nat]
  /\ poll_contract once_world once_out
  /\ exists w',
       pull env 1 once_world = Some w'
       /\ (0%nat ∉ operations w')
       /\ resumptions [0%nat] (new_events once_world w')
          = [(0%nat, Some (pollhup_error 5), POLLHUP)]
       /\ awaiter_resume poll_once_awaiter (Some (pollhup_error 5)) POLLHUP
          = throws (pollhup_error 5).
Proof.
  intros env.
  assert (Hwf : wf once_world) by (apply wf_check_sound; vm_compute; reflexivity).
  assert (Hfds : build_fds once_world = Some once_fds) by (vm_compute; reflexivity).
  assert (Hout : pull_poll_fn env 1 once_fds once_world = Some once_out) by reflexivity.
  split; [exact Hwf|]. split; [vm_compute; reflexivity|]. split; [exact once_poll_contract|].
  destruct (pull env 1 once_world) as [w'|] eqn:Hp; [|vm_compute in Hp; discriminate Hp].
  destruct (store once_world !! 0%nat) as [o|] eqn:Ho; [|vm_compute in Ho; discriminate Ho].
  destruct (poll_once_resolved_by_next_pass env 0 (pull_poll_fn env 1) once_world once_fds
              once_out Hwf Hfds Hout w' 0%nat 0%nat o once_poll_contract)
    as (Hrem & ex & rev & Hres & Hex).
  { vm_compute. discriminate. }
  { exact Hp. }
  { reflexivity. }
  { exact Ho. }
  { fetch Ho. reflexivity. }
  { fetch Ho. reflexivity. }
  exists w'. split; [reflexivity|]. split; [exact Hrem|].
  assert (Hv : resumptions [0%nat] (new_events once_world w')
               = [(0%nat, Some (pollhup_error 5), POLLHUP)]).
  { fetch Hp. vm_compute. reflexivity. }
  split; [exact Hv|]. rewrite Hv in Hres. injection Hres as <- <-. apply Hex.
Defined.

Lemma pull_never_reports_eintr_witness :
  let w := scenario poll_failed in
  exists w' out,
    pull interrupted_env 2 w = Some w'
    /\ pull_poll_fn interrupted_env 2 scenario_fds w = Some out
    /\ po_tick out = 6%nat /\ po_errno out = 12
    /\ forall i id o, operations w !! i = Some id -> store w !! id = Some o ->
         id ∈ fst (after_poll interrupted_env out w) ->
         exists ex, resumptions [id] (new_events w w') = [(id, ex, po_revents out i)]
                    /\ forall what, ex <> Some (system_error EINTR what).
Proof.
  intros w.
  assert (Hwf : wf w) by (apply wf_check_sound; vm_compute; reflexivity).
  assert (Hfds : build_fds w = Some scenario_fds) by (vm_compute; reflexivity).
  destruct (pull interrupted_env 2 w) as [w'|] eqn:Hp; [|vm_compute in Hp; discriminate Hp].
  destruct (pull_never_reports_eintr interrupted_env 1 w w' scenario_fds Hwf Hfds Hp)
    as (out & Hout & H).
  exists w', out. split; [reflexivity|]. split; [exact Hout|].
  assert (Ht : po_tick out = 6%nat /\ po_errno out = 12).
  { vm_compute in Hout. injection Hout as <-. split; reflexivity. }
  split; [apply Ht|]. split; [apply Ht|exact H].
Defined.

Lemma destroy_resumes_in_reverse_order_witness :
  let env := scenario_env poll_nothing in
  wf teardown_world /\ pull_free_world teardown_world
  /\ operations teardown_world = [0; 1; 2]%nat
  /\ exists w',
       destroy env 4 teardown_world = Some w'
       /\ resumed_ids (new_events teardown_world w') = [2; 1; 3; 0]%nat
       /\ filter (.∈ operations teardown_world) (resumed_ids (new_events teardown_world w'))
          = reverse (operations teardown_world).
Proof.
  intros env.
  assert (Hwf : wf teardown_world) by (apply wf_check_sound; vm_compute; reflexivity).
  split; [exact Hwf|]. split; [exact teardown_world_pull_free|]. split; [vm_compute; reflexivity|].
  destruct (destroy env 4 teardown_world) as [w'|] eqn:Hd; [|vm_compute in Hd; discriminate Hd].
  exists w'. split; [reflexivity|].
  split; [|exact (destroy_resumes_in_reverse_order env 4 teardown_world w' Hwf
                    teardown_world_pull_free Hd)].
  fetch Hd. vm_compute. reflexivity.
Defined.

Lemma resumptions_adds_any (l : list nat) (added : list nat) : resumptions l (map ev_add added) = [].
Proof.
  induction added as [|a added IH]; [reflexivity|].
  cbn [map]. rewrite resumptions_cons. exact IH.
Qed.

(** ** The destructor, whatever the resumed coroutines do *)

Section reactor_provenance.
Variable env : environment.

Lemma by_pass_app_l (e1 e2 : list event) (id : nat) (ex : exception_ptr) :
  by_pass e1 id ex -> by_pass (e1 ++ e2) id ex.
Proof.
  intros (Ho & reg & Hin & Hid). split; [exact Ho|]. exists reg. split; [|exact Hid].
  apply elem_of_app. left. exact Hin.
Qed.

Lemma by_pass_app_r (e1 e2 : list event) (id : nat) (ex : exception_ptr) :
  by_pass e2 id ex -> by_pass (e1 ++ e2) id ex.
Proof.
  intros (Ho & reg & Hin & Hid). split; [exact Ho|]. exists reg. split; [|exact Hid].
  apply elem_of_app. right. exact Hin.
Qed.

Lemma passes_refl (w : world) : passes w w.
Proof. intros id ex rev reg H. unfold new_events in H. rewrite drop_all in H. inversion H. Qed.

Lemma passes_trans (w w1 w2 : world) (e1 e2 : list event) :
  trace w1 = trace w ++ e1 -> trace w2 = trace w1 ++ e2 ->
  passes w w1 -> passes w1 w2 -> passes w w2.
Proof.
  intros T1 T2 P1 P2 id ex rev reg Hin.
  assert (E1 : new_events w w1 = e1) by (apply new_events_app; exact T1).
  assert (E2 : new_events w1 w2 = e2) by (apply new_events_app; exact T2).
  assert (E : new_events w w2 = e1 ++ e2).
  { apply new_events_app. rewrite T2, T1, app_assoc. reflexivity. }
  unfold passes in P1, P2. rewrite E1 in P1. rewrite E2 in P2. rewrite E in *.
  apply elem_of_app in Hin as [Hin|Hin].
  - apply by_pass_app_l. eapply P1. exact Hin.
  - apply by_pass_app_r. eapply P2. exact Hin.
Qed.

Lemma passes_same_l (w0 w w' : world) : trace w = trace w0 -> passes w w' -> passes w0 w'.
Proof. intros Ht P. unfold passes, new_events in *. rewrite <- Ht. exact P. Qed.

Lemma pass_fix_outcome (out : poll_outcome) (o : operation) :
  exception o = None -> pass_outcome (exception (pass_fix out o)) = true.
Proof.
  intros Hex. unfold pass_fix, fail_with, classify.
  repeat match goal with |- context [if ?b then _ else _] => destruct b end;
    simpl; rewrite ?Hex; reflexivity.
Qed.

Section with_pump.
Variable pump : world -> option world.
Variable pump_all : world -> option world.
Hypothesis pump_ok : forall w w', wf w -> pump w = Some w' -> wf w' /\ exists evs, advance evs w w'.
Hypothesis pump_all_ok : forall w w', wf w -> pump_all w = Some w' ->
  wf w' /\ exists evs, advance evs w w'.
Hypothesis pump_passes : forall w w', wf w -> pump w = Some w' -> passes w w'.
Hypothesis pump_all_passes : forall w w', wf w -> pump_all w = Some w' -> passes w w'.

Lemma exec_passes (c : code) : forall w w', wf w -> exec env pump pump_all c w = Some w' ->
  passes w w'.
Proof.
  induction c as [|R a k IH|t IHt k IHk|k IHk|k IHk]; intros w w' Hwf He; simpl in He.
  - injection He as <-. apply passes_refl.
  - destruct (make_awaiter_same env a w) as (Hs1 & Ht1 & Hex & _).
    destruct (make_awaiter env a w) as [aw w1]. simpl in *.
    unfold co_await in He. simpl in He.
    destruct (awaiter_ready_same env aw w1) as (Hs2 & Ht2).
    destruct (awaiter_ready env aw w1) as [b w2]. simpl in *.
    assert (Hwf2 : wf w2) by (eapply same_engine_wf; [exact Hs2|]; eapply same_engine_wf; eassumption).
    assert (Ht : trace w2 = trace w) by congruence.
    destruct b.
    + eapply passes_same_l; [exact Ht|]. eapply IH; eassumption.
    + injection He as <-. intros id ex rev reg Hin.
      rewrite (new_events_app w _ [ev_add (fresh (dom (store w2)))]) in Hin.
      * apply list_elem_of_singleton in Hin. discriminate Hin.
      * unfold awaiter_suspend, add_operation. simpl. rewrite Ht. reflexivity.
  - destruct (exec env pump pump_all t w) as [w1|] eqn:E1; simpl in He; [|discriminate].
    destruct (exec_ok env pump pump_all pump_ok pump_all_ok t w w1 Hwf E1) as (Hwf1 & e1 & A1).
    destruct (exec_ok env pump pump_all pump_ok pump_all_ok k w1 w' Hwf1 He) as (_ & e2 & A2).
    eapply passes_trans; [exact (adv_trace _ _ _ A1)|exact (adv_trace _ _ _ A2)| |].
    + eapply IHt; eassumption.
    + eapply IHk; eassumption.
  - destruct (pump w) as [w1|] eqn:E1; simpl in He; [|discriminate].
    destruct (pump_ok w w1 Hwf E1) as (Hwf1 & e1 & A1).
    destruct (exec_ok env pump pump_all pump_ok pump_all_ok k w1 w' Hwf1 He) as (_ & e2 & A2).
    eapply passes_trans; [exact (adv_trace _ _ _ A1)|exact (adv_trace _ _ _ A2)| |].
    + eapply pump_passes; eassumption.
    + eapply IHk; eassumption.
  - destruct (pump_all w) as [w1|] eqn:E1; simpl in He; [|discriminate].
    destruct (pump_all_ok w w1 Hwf E1) as (Hwf1 & e1 & A1).
    destruct (exec_ok env pump pump_all pump_ok pump_all_ok k w1 w' Hwf1 He) as (_ & e2 & A2).
    eapply passes_trans; [exact (adv_trace _ _ _ A1)|exact (adv_trace _ _ _ A2)| |].
    + eapply pump_all_passes; eassumption.
    + eapply IHk; eassumption.
Qed.

(** [resume]: the event it logs, then resumptions that are the work of
    passes. *)
Lemma resume_passes (id : nat) (w w' : world) :
  wf w -> resume env pump pump_all id w = Some w' ->
  exists o evs,
    store w !! id = Some o
    /\ new_events w w' = ev_resume id (exception o) (revents o) (operations w) :: evs
    /\ forall x ex rev reg, ev_resume x ex rev reg ∈ evs -> by_pass evs x ex.
Proof.
  intros Hwf Hr.
  destruct (resume_ok env pump pump_all pump_ok pump_all_ok id w w' Hwf Hr)
    as (o & evs & Ho & Hwf' & A).
  unfold resume in Hr. rewrite Ho in Hr. simpl in Hr.
  destruct (handle o) as [h|]; simpl in Hr; [|discriminate].
  set (e := ev_resume id (exception o) (revents o) (operations w)) in *.
  assert (Hwfl : wf (log e w)) by (eapply same_engine_wf; [apply same_engine_log|exact Hwf]).
  pose proof (exec_passes _ _ _ Hwfl Hr) as P.
  exists o, evs. split; [exact Ho|]. split.
  - apply new_events_app. rewrite (adv_trace _ _ _ A). simpl. rewrite <- app_assoc. reflexivity.
  - unfold passes in P. rewrite (new_events_app _ _ _ (adv_trace _ _ _ A)) in P. exact P.
Qed.

Lemma resume_all_passes (l : list nat) : forall w w',
  wf w -> NoDup l -> (forall x, x ∈ l -> retired w x) ->
  (forall x o, x ∈ l -> store w !! x = Some o -> pass_outcome (exception o) = true) ->
  resume_all env pump pump_all l w = Some w' ->
  forall id ex rev reg, ev_resume id ex rev reg ∈ new_events w w' ->
    pass_outcome ex = true
    /\ (id ∈ l \/ exists reg', ev_pull reg' ∈ new_events w w' /\ id ∈ reg').
Proof.
  induction l as [|x l IH]; intros w w' Hwf Hnd Hret Hout Hr; simpl in Hr.
  - injection Hr as <-. intros id ex rev reg Hin. unfold new_events in Hin.
    rewrite drop_all in Hin. inversion Hin.
  - destruct (resume env pump pump_all x w) as [w1|] eqn:E1; simpl in Hr; [|discriminate].
    apply NoDup_cons in Hnd as [Hx Hnd].
    destruct (resume_ok env pump pump_all pump_ok pump_all_ok x w w1 Hwf E1)
      as (o & evs1 & Ho & Hwf1 & A1).
    destruct (resume_passes x w w1 Hwf E1) as (o' & evs1' & Ho' & E & P1).
    assert (o' = o) by congruence. subst o'.
    set (e := ev_resume x (exception o) (revents o) (operations w)) in *.
    assert (T1 : trace w1 = trace w ++ e :: evs1).
    { rewrite (adv_trace _ _ _ A1). simpl. rewrite <- app_assoc. reflexivity. }
    assert (evs1' = evs1).
    { rewrite (new_events_app w w1 _ T1) in E. injection E as E. symmetry. exact E. }
    subst evs1'. clear E.
    assert (Hse : same_engine w (log e w)) by apply same_engine_log.
    assert (Hret1 : forall y, retired w y -> retired w1 y /\ store w1 !! y = store w !! y).
    { intros y Hy. apply (same_engine_retired _ _ _ Hse) in Hy.
      apply (adv_retired _ _ _ A1) in Hy. exact Hy. }
    assert (Hretl : forall y, y ∈ l -> retired w1 y).
    { intros y Hy. apply Hret1. apply Hret. right. exact Hy. }
    destruct (resume_all_ok env pump pump_all pump_ok pump_all_ok l w1 w' Hwf1 Hnd Hretl Hr)
      as (_ & evs2 & T2 & _).
    assert (E : new_events w w' = (e :: evs1) ++ evs2).
    { apply new_events_app. rewrite T2, T1, app_assoc. reflexivity. }
    assert (IH' := IH w1 w' Hwf1 Hnd Hretl).
    rewrite (new_events_app w1 w' _ T2) in IH'.
    rewrite E. intros id ex rev reg Hin.
    apply elem_of_app in Hin as [Hin|Hin]; [apply elem_of_cons in Hin as [Hin|Hin]|].
    + injection Hin as -> -> _ _. split; [apply (Hout x o); [left|exact Ho]|left; left].
    + destruct (P1 id ex rev reg Hin) as (Hpo & reg' & Hreg' & Hid).
      split; [exact Hpo|]. right. exists reg'. split; [|exact Hid].
      apply elem_of_app. left. right. exact Hreg'.
    + assert (Hout1 : forall y oy, y ∈ l -> store w1 !! y = Some oy ->
                pass_outcome (exception oy) = true).
      { intros y oy Hy Hoy. apply (Hout y oy); [right; exact Hy|].
        rewrite <- Hoy. symmetry. apply Hret1. apply Hret. right. exact Hy. }
      destruct (IH' Hout1 Hr id ex rev reg Hin) as (Hpo & [Hid|(reg' & Hreg' & Hid)]).
      * split; [exact Hpo|left; right; exact Hid].
      * split; [exact Hpo|]. right. exists reg'. split; [|exact Hid].
        apply elem_of_app. right. exact Hreg'.
Qed.

Lemma do_pull_passes (poll_fn : poll_function) (w w' : world) :
  wf w -> do_pull env pump pump_all poll_fn w = Some w' -> passes w w'.
Proof.
  intros Hwf Hd. unfold do_pull in Hd.
  destruct (build_fds w) as [fds|]; simpl in Hd; [|discriminate].
  destruct (poll_fn fds w) as [out|]; simpl in Hd; [|discriminate].
  rewrite after_poll_log in Hd.
  destruct (after_poll_ok env out w Hwf) as (Hwf1 & Hnd & Hl & Hret & Htr).
  set (l := fst (after_poll env out w)) in *.
  set (w1 := snd (after_poll env out w)) in *.
  set (e := ev_pull (operations w)) in *.
  assert (Hwfl : wf (log e w1)) by (eapply same_engine_wf; [apply same_engine_log|exact Hwf1]).
  assert (Hretl : forall x, x ∈ l -> retired (log e w1) x).
  { intros x Hx. apply (same_engine_retired w1 (log e w1)); [apply same_engine_log|].
    apply Hl. exact Hx. }
  assert (Hout : forall x o, x ∈ l -> store (log e w1) !! x = Some o ->
            pass_outcome (exception o) = true).
  { intros x o1 Hx Ho1. simpl in Ho1. destruct (Hl x Hx) as [Hxw _].
    apply list_elem_of_lookup_1 in Hxw as Hi. destruct Hi as [i Hi].
    destruct (wf_lookup w x Hwf Hxw) as (o & Ho & Hreg).
    pose proof (after_poll_spec env out w i x o (wf_nodup _ Hwf) Hi Ho) as Hsp. simpl in Hsp.
    fold l w1 in Hsp. destruct (pass_pred env out (seen out i o)).
    - destruct Hsp as (_ & _ & Hs). assert (o1 = pass_fix out (seen out i o)) by congruence.
      subst o1. apply pass_fix_outcome. simpl. apply registrable_exception. exact Hreg.
    - destruct Hsp as (Hn & _). contradiction. }
  pose proof (resume_all_passes l (log e w1) w' Hwfl Hnd Hretl Hout Hd) as P.
  destruct (resume_all_ok env pump pump_all pump_ok pump_all_ok l (log e w1) w' Hwfl Hnd Hretl Hd)
    as (_ & evs & T & _).
  rewrite (new_events_app _ _ _ T) in P.
  assert (E : new_events w w' = e :: evs).
  { apply new_events_app. rewrite T. simpl. rewrite Htr, <- app_assoc. reflexivity. }
  intros id ex rev reg Hin. rewrite E in *.
  apply elem_of_cons in Hin as [Hin|Hin]; [discriminate Hin|].
  destruct (P id ex rev reg Hin) as (Hpo & [Hid|(reg' & Hreg' & Hid)]).
  - split; [exact Hpo|]. exists (operations w). split; [left|]. apply Hl. exact Hid.
  - split; [exact Hpo|]. exists reg'. split; [right; exact Hreg'|exact Hid].
Qed.

End with_pump.


Section with_pump_destroy.
Variable pump : world -> option world.
Variable pump_all : world -> option world.
Hypothesis pump_ok : forall w w', wf w -> pump w = Some w' -> wf w' /\ exists evs, advance evs w w'.
Hypothesis pump_all_ok : forall w w', wf w -> pump_all w = Some w' ->
  wf w' /\ exists evs, advance evs w w'.
Hypothesis pump_accounted : forall w w', wf w -> pump w = Some w' -> accounted w w'.
Hypothesis pump_all_accounted : forall w w', wf w -> pump_all w = Some w' -> accounted w w'.
Hypothesis pump_passes : forall w w', wf w -> pump w = Some w' -> passes w w'.
Hypothesis pump_all_passes : forall w w', wf w -> pump_all w = Some w' -> passes w w'.

(** One turn of the destructor's loop, whatever the resumed coroutine
    does. *)
Lemma destroy_turn_ok (w w3 : world) (l : list nat) (id : nat) :
  wf w -> operations w = l ++ [id] ->
  resume env pump pump_all id (turn_world l id w) = Some w3 ->
  wf w3
  /\ exists o evs,
       store w !! id = Some o
       /\ advance (ev_resume id (Some destroyed) (revents o) l :: evs) w w3
       /\ accounted w w3
       /\ (forall x ex rev reg, ev_resume x ex rev reg ∈ evs -> by_pass evs x ex).
Proof.
  intros Hwf Hl Hr.
  pose proof (wf_nodup _ Hwf) as Hnd. rewrite Hl in Hnd.
  apply NoDup_app in Hnd as (Hndl & Hdis & _).
  assert (Hidl : id ∉ l) by (intros Hin; apply (Hdis id Hin); left).
  assert (Hidw : id ∈ operations w) by (rewrite Hl; apply elem_of_app; right; left).
  destruct (wf_lookup w id Hwf Hidw) as (o & Ho & Hreg).
  set (tw := turn_world l id w) in *.
  assert (Hwft : wf tw) by (apply turn_world_wf; assumption).
  assert (Hot : store tw !! id = Some (set_exception (Some destroyed) o)).
  { unfold tw, turn_world. simpl. rewrite lookup_alter_eq, Ho. reflexivity. }
  destruct (resume_ok env pump pump_all pump_ok pump_all_ok id tw w3 Hwft Hr)
    as (o' & evs & Ho' & Hwf3 & A).
  assert (o' = set_exception (Some destroyed) o) by congruence. subst o'.
  simpl in A. change (operations tw) with l in A.
  set (e := ev_resume id (Some destroyed) (revents o) l) in *.
  destruct (resume_passes pump pump_all pump_ok pump_all_ok pump_passes pump_all_passes
              id tw w3 Hwft Hr) as (o2 & evs' & Ho2 & E & P).
  assert (o2 = set_exception (Some destroyed) o) by congruence. subst o2.
  simpl in E. change (operations tw) with l in E. fold e in E.
  assert (T : trace w3 = trace w ++ e :: evs).
  { rewrite (adv_trace _ _ _ A). simpl. rewrite <- app_assoc. reflexivity. }
  assert (evs' = evs).
  { rewrite (new_events_app tw w3 (e :: evs)) in E by exact T. injection E as E.
    symmetry. exact E. }
  subst evs'. clear E.
  destruct (resume_accounted env pump pump_all pump_ok pump_all_ok pump_accounted
              pump_all_accounted id tw w3 Hwft Hr) as [Ha _].
  assert (Hrt : forall x, retired w x -> retired (log e tw) x /\ store tw !! x = store w !! x).
  { intros x [Hx Hn].
    assert (Hne : x <> id) by (intros ->; exact (Hn Hidw)).
    assert (Hs : store tw !! x = store w !! x).
    { unfold tw, turn_world. simpl. apply lookup_alter_ne. congruence. }
    split; [|exact Hs]. split.
    - change (is_Some (store tw !! x)). rewrite Hs. exact Hx.
    - change (x ∉ l). intros Hx'. apply Hn. rewrite Hl. apply elem_of_app. left. exact Hx'. }
  assert (Hidr : retired (log e tw) id).
  { split; [change (is_Some (store tw !! id)); rewrite Hot; eauto|exact Hidl]. }
  split; [exact Hwf3|]. exists o, evs. split; [exact Ho|]. split; [split|split].
  - exact T.
  - intros x Hx. destruct (Hrt x Hx) as [H1 E1].
    destruct (adv_retired _ _ _ A x H1) as [H2 E2]. split; [exact H2|].
    rewrite E2. exact E1.
  - intros ev x Hev Hx Hret. apply elem_of_cons in Hev as [->|Hev].
    + destruct Hret as [_ Hn]. apply Hn. rewrite Hl. simpl in Hx.
      apply elem_of_cons in Hx as [->|Hx]; apply elem_of_app; [right; left|left; exact Hx].
    + apply (adv_ids _ _ _ A ev x Hev Hx). apply Hrt. exact Hret.
  - change (NoDup (id :: resumed_ids evs)).
    apply NoDup_cons. split; [|exact (adv_nodup _ _ _ A)].
    intros Hin. apply elem_of_resumed_ids in Hin as (ev & Hev & Hrid).
    exact (adv_ids _ _ _ A ev id Hev (resumed_id_ids_of _ _ Hrid) Hidr).
  - intros x Hx. change (x ∈ id :: resumed_ids evs) in Hx.
    apply elem_of_cons in Hx as [->|Hx].
    + apply (adv_retired _ _ _ A). exact Hidr.
    + apply (adv_resumed _ _ _ A). exact Hx.
  - intros x Hx. rewrite (new_events_app w w3 _ T).
    change (x ∈ operations w3 \/ x ∈ id :: resumed_ids evs).
    rewrite Hl in Hx. apply elem_of_app in Hx as [Hx|Hx].
    + destruct (Ha x Hx) as [H|H]; [left; exact H|].
      right. rewrite (new_events_app tw w3 (e :: evs)) in H by exact T. exact H.
    + apply list_elem_of_singleton in Hx. subst x. right. left.
  - exact P.
Qed.

(** The destructor's loop, whatever the resumed coroutines do: it keeps
    the invariant of the registry, takes no operation out of the registry
    without resuming it, and each resumption it logs finds the exception of
    the destructor or is the work of a pass. *)
Lemma destroy_loop_ok (n : nat) : forall w w',
  wf w -> destroy_loop env pump pump_all n w = Some w' ->
  wf w' /\ (exists evs, advance evs w w') /\ accounted w w'
  /\ forall id ex rev reg, ev_resume id ex rev reg ∈ new_events w w' ->
       ex = Some destroyed \/ by_pass (new_events w w') id ex.
Proof.
  induction n as [|n IH]; intros w w' Hwf Hd.
  - simpl in Hd. destruct (last (operations w)) eqn:Hl; [discriminate|]. injection Hd as <-.
    split; [exact Hwf|]. split; [exists []; apply advance_refl|]. split; [apply accounted_refl|].
    intros id ex rev reg Hin. unfold new_events in Hin. rewrite drop_all in Hin. inversion Hin.
  - destruct (operations w) as [|id l0] eqn:Hops using rev_ind.
    + rewrite destroy_loop_done in Hd by exact Hops. injection Hd as <-.
      split; [exact Hwf|]. split; [exists []; apply advance_refl|]. split; [apply accounted_refl|].
      intros id ex rev reg Hin. unfold new_events in Hin. rewrite drop_all in Hin. inversion Hin.
    + clear IHl0. rename l0 into l.
      rewrite (destroy_loop_turn env pump pump_all n w l id Hops) in Hd.
      destruct (resume env pump pump_all id (turn_world l id w)) as [w3|] eqn:Hr;
        simpl in Hd; [|discriminate].
      destruct (destroy_turn_ok w w3 l id Hwf Hops Hr) as (Hwf3 & o & evs & Ho & A & Ha & P).
      destruct (IH w3 w' Hwf3 Hd) as (Hwf' & (evs' & A') & Ha' & P').
      set (e := ev_resume id (Some destroyed) (revents o) l) in *.
      split; [exact Hwf'|]. split; [|split].
      * exists ((e :: evs) ++ evs'). eapply advance_trans; eassumption.
      * eapply accounted_trans; [exact (adv_trace _ _ _ A)|exact (adv_trace _ _ _ A')| |];
          assumption.
      * rewrite (new_events_app w3 w' _ (adv_trace _ _ _ A')) in P'.
        assert (E : new_events w w' = (e :: evs) ++ evs').
        { apply new_events_app. rewrite (adv_trace _ _ _ A'), (adv_trace _ _ _ A), app_assoc.
          reflexivity. }
        rewrite E. intros x ex rev reg Hin.
        apply elem_of_app in Hin as [Hin|Hin]; [apply elem_of_cons in Hin as [Hin|Hin]|].
        -- injection Hin as -> -> _ _. left. reflexivity.
        -- right. apply by_pass_app_l. change (e :: evs) with ([e] ++ evs).
           apply by_pass_app_r. eapply P. exact Hin.
        -- destruct (P' x ex rev reg Hin) as [H|H]; [left; exact H|].
           right. apply by_pass_app_r. exact H.
Qed.

End with_pump_destroy.

(** Every resumption that [pull()] or [pull_all()] makes, the calls of both
    by resumed coroutines included, is the work of a pass. *)
Lemma pumps_passes (n : nat) :
  (forall w w', wf w -> pull env n w = Some w' -> passes w w')
  /\ (forall w w', wf w -> pull_all env n w = Some w' -> passes w w').
Proof.
  induction n as [|n [IH1 IH2]].
  - split; intros w w' Hwf Hp; [discriminate|].
    simpl in Hp. destruct (operations w); [|discriminate]. injection Hp as <-.
    apply passes_refl.
  - assert (Hpull : forall poll_fn w w', wf w ->
              do_pull env (pull env n) (pull_all env n) poll_fn w = Some w' -> passes w w').
    { intros poll_fn w w' Hwf Hd.
      eapply do_pull_passes;
        [apply pull_ok|apply pull_all_advances|exact IH1|exact IH2|exact Hwf|exact Hd]. }
    split; intros w w' Hwf Hp.
    + rewrite pull_unfold in Hp. eapply Hpull; eassumption.
    + rewrite pull_all_unfold in Hp. destruct (operations w) eqn:Hops.
      * injection Hp as <-. apply passes_refl.
      * destruct (do_pull env (pull env n) (pull_all env n) (pull_all_poll_fn env (S n)) w)
          as [w1|] eqn:Hd; simpl in Hp; [|discriminate].
        destruct (do_pull_ok env _ _ (pull_ok env n) (pull_all_advances env n) _ w w1 Hwf Hd)
          as (Hwf1 & e1 & A1).
        destruct (pull_all_advances env n w1 w' Hwf1 Hp) as (_ & e2 & A2).
        eapply passes_trans; [exact (adv_trace _ _ _ A1)|exact (adv_trace _ _ _ A2)| |].
        -- eapply Hpull; eassumption.
        -- eapply IH2; eassumption.
Qed.

Lemma resumptions_elem (l : list nat) (evs : list event) (id : nat) (ex : exception_ptr) (rev : Z) :
  (id, ex, rev) ∈ resumptions l evs -> exists reg, ev_resume id ex rev reg ∈ evs.
Proof.
  intros H. apply list_elem_of_omap in H as (ev & Hev & Hr).
  destruct ev as [x|reg|x ex' rev' reg]; simpl in Hr; try discriminate.
  destruct (bool_decide (x ∈ l)); [|discriminate]. injection Hr as -> -> ->.
  exists reg. exact Hev.
Qed.

(** User code that makes no further use of the engine runs to its end and
    leaves the engine as it found it. *)
Lemma exec_engine_free (pump pump_all : world -> option world) (c : code) :
  engine_free c -> forall w, exec env pump pump_all c w = Some w.
Proof.
  induction c as [|R a k IH|t IHt k IHk|k IHk|k IHk]; intros Hc w; simpl in Hc;
    try contradiction.
  - reflexivity.
  - destruct Hc as [Ht Hk]. simpl. rewrite (IHt Ht). simpl. apply IHk. exact Hk.
Qed.

(** The destructor's loop takes one turn for each registered operation when
    the coroutines it resumes make no further use of the engine. *)
Lemma destroy_loop_engine_free (pump pump_all : world -> option world) (l : list nat) :
  forall w, operations w = l -> wf w -> engine_free_world w ->
  exists w', destroy_loop env pump pump_all (length l) w = Some w'.
Proof.
  induction l as [|id l IH] using rev_ind; intros w Hops Hwf Hef.
  - exists w. apply destroy_loop_done. exact Hops.
  - rewrite length_app. simpl. rewrite Nat.add_1_r.
    rewrite (destroy_loop_turn env pump pump_all (length l) w l id Hops).
    assert (Hidw : id ∈ operations w) by (rewrite Hops; apply elem_of_app; right; left).
    destruct (wf_lookup w id Hwf Hidw) as (o & Ho & Hreg).
    destruct (registrable_handle o Hreg) as [h Hh].
    set (e := ev_resume id (Some destroyed) (revents o) l).
    assert (Hr : resume env pump pump_all id (turn_world l id w)
                 = Some (log e (turn_world l id w))).
    { unfold resume. simpl. rewrite lookup_alter_eq, Ho. simpl. rewrite Hh. simpl.
      apply exec_engine_free. eapply Hef; eassumption. }
    rewrite Hr. simpl. apply IH.
    + reflexivity.
    + eapply same_engine_wf; [apply same_engine_log|]. apply turn_world_wf; assumption.
    + pose proof (wf_nodup _ Hwf) as Hnd. rewrite Hops in Hnd.
      apply NoDup_app in Hnd as (_ & Hdis & _).
      intros x ox hx rev Hx Hox Hhx. simpl in Hx, Hox.
      rewrite lookup_alter_ne in Hox by (intros ->; apply (Hdis x Hx); left).
      eapply Hef; [|exact Hox|exact Hhx]. rewrite Hops. apply elem_of_app. left. exact Hx.
Qed.

(** C5: the destructor of an engine with operations still registered.  It
    returns, after one turn for each of them, when the coroutines it resumes
    handle its exception and make no further use of the engine.  Whenever it
    returns, the registry is empty and each operation that was registered has
    been resumed exactly once; the resumed coroutine found the exception of
    the destructor, or else one of the outcomes of a pass (no exception, the
    error of a failed [::poll] or a [poll_error], none of which is the
    exception of the destructor), and then a coroutine resumed during the
    destruction had called [pull()] or [pull_all()] while the operation was
    registered.  When no suspended coroutine calls [pull()] or [pull_all()]
    once resumed, every operation finds the exception of the destructor. *)
Theorem destroy_fails_every_pending_operation (w : world) :
  wf w ->
  (engine_free_world w -> exists w', destroy env (length (operations w)) w = Some w')
  /\ forall n w', destroy env n w = Some w' ->
       operations w' = []
       /\ (forall id, id ∈ operations w ->
             exists ex rev,
               resumptions [id] (new_events w w') = [(id, ex, rev)]
               /\ (ex = Some destroyed
                   \/ (ex <> Some destroyed /\ pass_outcome ex = true
                       /\ exists reg, ev_pull reg ∈ new_events w w' /\ id ∈ reg)))
       /\ (pull_free_world w ->
           forall id o, id ∈ operations w -> store w !! id = Some o ->
             resumptions [id] (new_events w w') = [(id, Some destroyed, revents o)]).
Proof.
  intros Hwf. split.
  - intros Hef. apply destroy_loop_engine_free; [reflexivity|exact Hwf|exact Hef].
  - intros n w' Hd. unfold destroy in Hd.
    assert (He : operations w' = []) by (eapply destroy_loop_empty; exact Hd).
    split; [exact He|]. split.
    + destruct (destroy_loop_ok (pull env n) (pull_all env n)
                  (pull_ok env n) (pull_all_advances env n)
                  (pull_accounted env n) (pull_all_accounted env n)
                  (proj1 (pumps_passes n)) (proj2 (pumps_passes n)) n w w' Hwf Hd)
        as (_ & (evs & A) & Ha & P).
      intros id Hid.
      destruct (accounted_advance evs w w' id A Ha Hid) as [[Hin _]|[_ (ex & rev & Hr)]].
      { rewrite He in Hin. inversion Hin. }
      exists ex, rev. split; [exact Hr|].
      destruct (resumptions_elem [id] (new_events w w') id ex rev) as [reg Hev].
      { rewrite Hr. left. }
      destruct (P id ex rev reg Hev) as [H|[Ho Hp]]; [left; exact H|right].
      split; [intros ->; discriminate Ho|]. split; [exact Ho|exact Hp].
    + intros Hpf id o Hid Ho.
      destruct (destroy_loop_resumes env (pull env n) (pull_all env n) n w w' Hwf Hpf Hd)
        as (evs & Htr & _ & Hin).
      rewrite (new_events_app w w' evs Htr). apply Hin; assumption.
Qed.

End reactor_provenance.


Lemma draining_world_engine_free : engine_free_world draining_world.
Proof.
  intros id o h rev Hid Ho Hh.
  assert (Hops : operations draining_world = [0; 1]%nat) by (vm_compute; reflexivity).
  rewrite Hops in Hid.
  repeat (apply elem_of_cons in Hid as [->|Hid]);
    [vm_compute in Ho; injection Ho as <-; injection Hh as <-; exact I..|inversion Hid].
Qed.

Lemma destroy_fails_every_pending_operation_witness :
  let env := scenario_env poll_nothing in
  wf teardown_world /\ operations teardown_world = [0; 1; 2]%nat
  /\ (exists w',
        destroy env 4 teardown_world = Some w'
        /\ operations w' = []
        /\ resumptions [0%nat] (new_events teardown_world w') = [(0%nat, Some destroyed, 0)]
        /\ resumptions [1%nat] (new_events teardown_world w') = [(1%nat, Some destroyed, 0)]
        /\ resumptions [2%nat] (new_events teardown_world w') = [(2%nat, Some destroyed, 0)])
  /\ wf draining_world /\ engine_free_world draining_world
  /\ length (operations draining_world) = 2%nat
  /\ exists w', destroy draining_env 2 draining_world = Some w' /\ operations w' = [].
Proof.
  intros env.
  assert (Hwf : wf teardown_world) by (apply wf_check_sound; vm_compute; reflexivity).
  assert (Hwfd : wf draining_world) by (apply wf_check_sound; vm_compute; reflexivity).
  split; [exact Hwf|]. split; [reflexivity|]. split.
  - destruct (destroy_fails_every_pending_operation env teardown_world Hwf) as [_ H].
    destruct (destroy env 4 teardown_world) as [w'|] eqn:Hd; [|vm_compute in Hd; discriminate Hd].
    destruct (H 4%nat w' Hd) as (He & _ & Hall).
    specialize (Hall teardown_world_pull_free).
    exists w'. split; [reflexivity|]. split; [exact He|].
    destruct (store teardown_world !! 0%nat) as [o0|] eqn:H0; [|vm_compute in H0; discriminate H0].
    destruct (store teardown_world !! 1%nat) as [o1|] eqn:H1; [|vm_compute in H1; discriminate H1].
    destruct (store teardown_world !! 2%nat) as [o2|] eqn:H2; [|vm_compute in H2; discriminate H2].
    pose proof (Hall 0%nat o0) as A. pose proof (Hall 1%nat o1) as B.
    pose proof (Hall 2%nat o2) as C.
    fetch H0. fetch H1. fetch H2.
    split; [apply A; [left|reflexivity]|].
    split; [apply B; [right; left|reflexivity]|].
    apply C; [right; right; left|reflexivity].
  - split; [exact Hwfd|]. split; [exact draining_world_engine_free|]. split; [reflexivity|].
    destruct (destroy_fails_every_pending_operation draining_env draining_world Hwfd) as [Ht H].
    destruct (Ht draining_world_engine_free) as [w' Hd].
    exists w'. split; [exact Hd|]. exact (proj1 (H _ w' Hd)).
Defined.

(** The destructor on an engine where the coroutine of operation 1, resumed
    with the exception of the destructor, calls [pull_all()]: the pass finds
    the timer 0 expired and resumes it with no exception. *)
Example destroy_under_reentrant_pull_all :
  (w ← destroy pumping_all_env 2 pumping_all_world;
   Some (operations w, resumptions [0; 1]%nat (new_events pumping_all_world w)))
  = Some ([], [(1%nat, Some destroyed, 0); (0%nat, None, 0)]).
Proof. vm_compute. reflexivity. Qed.

(** A coroutine that waits again each time it is resumed keeps the
    destructor's loop turning: while the clock is before the deadline of
    these waits, a coroutine with [k] waits to go makes the loop take more
    than [k] turns. *)
Section reactor_turns.
Variable env : environment.
Variable pump : world -> option world.
Variable pump_all : world -> option world.
Hypothesis early : forall t, steady_clock env t < 1000.

Lemma destroy_loop_rewaiting (k : nat) : forall n w id o,
  operations w = [id] -> store w !! id = Some o ->
  handle o = Some (fun _ _ => rewaiting k) ->
  (n <= k)%nat -> destroy_loop env pump pump_all n w = None.
Proof.
  induction k as [|k IH]; intros n w id o Hops Ho Hh Hn.
  - assert (n = O) by lia. subst n. simpl. rewrite Hops. reflexivity.
  - destruct n as [|n]; [simpl; rewrite Hops; reflexivity|].
    rewrite (destroy_loop_turn env pump pump_all n w [] id Hops).
    unfold resume. simpl. rewrite lookup_alter_eq, Ho. simpl. rewrite Hh. simpl.
    unfold co_await. simpl. unfold awaiter_ready. simpl.
    assert (Hlt : (1000 <=? steady_clock env (tick w)) = false) by (apply Z.leb_gt; apply early).
    rewrite Hlt. simpl.
    eapply (IH n _ (fresh (dom (alter (set_exception (Some destroyed)) id (store w))))
              (set_handle (fun _ _ => rewaiting k) (make_operation None (-1) 0 1000)));
      [reflexivity| |reflexivity|lia].
    simpl. apply lookup_insert_eq.
Qed.
End reactor_turns.

Lemma rewaiting_pull_free (k : nat) : pull_free (rewaiting k).
Proof. induction k as [|k IH]; simpl; [exact I|intros _; exact IH]. Qed.

(** One registered operation, and a destructor that takes a turn for each
    new wait of the resumed coroutine: it does not return within [k] turns,
    whatever [k]. *)
Lemma destroy_takes_a_turn_for_each_new_wait (k : nat) :
  let env := scenario_env poll_nothing in
  operations (rewaiting_world k) = [0%nat]
  /\ wf (rewaiting_world k) /\ pull_free_world (rewaiting_world k)
  /\ destroy env k (rewaiting_world k) = None.
Proof.
  intros env.
  assert (Hw : rewaiting_world k
               = {| store := {[ 0%nat := set_handle (fun _ _ => rewaiting k)
                                           (make_operation None (-1) 0 1000) ]};
                    operations := [0%nat]; errno := 0; tick := 1; trace := [ev_add 0] |}).
  { reflexivity. }
  assert (Hearly : forall t, steady_clock env t < 1000).
  { intros t. unfold env, scenario_env, scenario_clock. simpl. destruct (t <? 4)%nat; lia. }
  rewrite Hw. split; [reflexivity|]. split; [|split].
  - apply wf_check_sound. reflexivity.
  - intros id o h ex rev Hid Ho Hh. simpl in Hid, Ho.
    apply list_elem_of_singleton in Hid. subst id.
    rewrite lookup_singleton_eq in Ho. injection Ho as <-. injection Hh as <-.
    apply rewaiting_pull_free.
  - unfold destroy.
    apply (destroy_loop_rewaiting env (pull env k) (pull_all env k) Hearly k k _ 0%nat
             (set_handle (fun _ _ => rewaiting k) (make_operation None (-1) 0 1000))).
    + reflexivity.
    + simpl. apply lookup_singleton_eq.
    + reflexivity.
    + lia.
Qed.


Section reactor_teardown.
Variable env : environment.
Lemma destroy_loop_added (pump pump_all : world -> option world) (n : nat) : forall w w',
  wf w -> pull_free_world w -> destroy_loop env pump pump_all n w = Some w' ->
  exists evs,
    trace w' = trace w ++ evs
    /\ forall id, ev_add id ∈ evs ->
         store w !! id = None
         /\ exists rev, resumptions [id] evs = [(id, Some destroyed, rev)].
Proof.
  induction n as [|n IH]; intros w w' Hwf Hpf Hd.
  - simpl in Hd. destruct (last (operations w)) eqn:Hl; [discriminate|]. injection Hd as <-.
    exists []. rewrite app_nil_r. split; [reflexivity|]. intros id H. inversion H.
  - destruct (operations w) as [|id0 l0] eqn:Hops using rev_ind.
    + rewrite destroy_loop_done in Hd by exact Hops. injection Hd as <-.
      exists []. rewrite app_nil_r. split; [reflexivity|]. intros id H. inversion H.
    + clear IHl0. rename l0 into l.
      destruct (wf_lookup w id0 Hwf) as (o & Ho & Hr).
      { rewrite Hops. apply elem_of_app. right. left. }
      destruct (registrable_handle o Hr) as [h Hh].
      destruct (resume_turn env pump pump_all w l id0 o h Hwf Hpf Hops Ho Hh)
        as (w3 & added & Hr3 & _ & Hwf3 & Hpf3 & Hop3 & Hst3 & Htr3 & Hid3 & Hfr3).
      rewrite (destroy_loop_turn env pump pump_all n w l id0 Hops), Hr3 in Hd. simpl in Hd.
      destruct (IH w3 w' Hwf3 Hpf3 Hd) as (evs & Htr & Hadd).
      destruct (destroy_loop_resumes env pump pump_all n w3 w' Hwf3 Hpf3 Hd)
        as (evs' & Htr' & _ & Hin).
      assert (evs' = evs) by (rewrite Htr in Htr'; apply app_inv_head in Htr'; congruence).
      subst evs'.
      assert (Hgrow : forall x, store w3 !! x = None -> store w !! x = None).
      { intros x Hx. destruct (store w !! x) as [ox|] eqn:Hox; [|reflexivity].
        destruct (decide (x = id0)) as [->|Hne].
        - destruct Hid3 as [o3 Ho3]. congruence.
        - rewrite (Hst3 x ox Hne Hox) in Hx. discriminate. }
      exists (ev_resume id0 (Some destroyed) (revents o) l :: map ev_add added ++ evs).
      split; [rewrite Htr, Htr3, <- app_assoc; reflexivity|].
      intros id Hid. apply elem_of_cons in Hid as [Hid|Hid]; [discriminate|].
      assert (Hfresh : store w !! id = None).
      { apply elem_of_app in Hid as [Hid|Hid].
        - apply list_elem_of_In, in_map_iff in Hid as (x & Hx & Hxin). injection Hx as ->.
          apply Hfr3. apply list_elem_of_In. exact Hxin.
        - apply Hgrow. apply (Hadd id Hid). }
      split; [exact Hfresh|].
      assert (Hne : id <> id0) by (intros ->; congruence).
      rewrite resumptions_cons. simpl. rewrite bool_decide_eq_false_2.
      2:{ intros Hx. apply list_elem_of_singleton in Hx. congruence. }
      rewrite resumptions_app, resumptions_adds_any. simpl.
      apply elem_of_app in Hid as [Hid|Hid].
      * apply list_elem_of_In, in_map_iff in Hid as (x & Hx & Hxin). injection Hx as ->.
        apply list_elem_of_In in Hxin.
        assert (Hin3 : id ∈ operations w3) by (rewrite Hop3; apply elem_of_app; right; exact Hxin).
        destruct (wf_lookup w3 id Hwf3 Hin3) as (o3 & Ho3 & _).
        exists (revents o3). apply (Hin id o3 Hin3 Ho3).
      * apply (Hadd id Hid).
Qed.

(** X19: whenever the destructor returns, on an engine whose suspended
    coroutines do not call [pull()] or [pull_all()] once resumed, it has also
    failed the operations that resumed coroutines registered while it ran:
    each operation added during the teardown is a new object and was resumed
    exactly once, finding the exception of the destructor. *)
Theorem destroy_fails_operations_registered_during_teardown (n : nat) (w w' : world) (id : nat) :
  wf w -> pull_free_world w -> destroy env n w = Some w' -> ev_add id ∈ new_events w w' ->
  store w !! id = None
  /\ exists rev, resumptions [id] (new_events w w') = [(id, Some destroyed, rev)].
Proof.
  intros Hwf Hpf Hd Hid.
  destruct (destroy_loop_added (pull env n) (pull_all env n) n w w' Hwf Hpf Hd)
    as (evs & Htr & Hadd).
  rewrite (new_events_app w w' evs Htr) in *. apply Hadd. exact Hid.
Qed.

End reactor_teardown.

Lemma destroy_fails_operations_registered_during_teardown_witness :
  let env := scenario_env poll_nothing in
  wf teardown_world /\ pull_free_world teardown_world
  /\ operations teardown_world = [0; 1; 2]%nat
  /\ exists w',
       destroy env 4 teardown_world = Some w'
       /\ ev_add 3 ∈ new_events teardown_world w'
       /\ store teardown_world !! 3%nat = None
       /\ exists rev, resumptions [3%nat] (new_events teardown_world w')
                      = [(3%nat, Some destroyed, rev)].
Proof.
  intros env.
  assert (Hwf : wf teardown_world) by (apply wf_check_sound; vm_compute; reflexivity).
  split; [exact Hwf|]. split; [exact teardown_world_pull_free|]. split; [vm_compute; reflexivity|].
  destruct (destroy env 4 teardown_world) as [w'|] eqn:Hd; [|vm_compute in Hd; discriminate Hd].
  exists w'. split; [reflexivity|].
  assert (Hadd : ev_add 3 ∈ new_events teardown_world w').
  { fetch Hd. vm_compute. right. right. left. }
  split; [exact Hadd|].
  exact (destroy_fails_operations_registered_during_teardown env 4 teardown_world w' 3 Hwf
           teardown_world_pull_free Hd Hadd).
Defined.

Section reactor_waits.
Variable env : environment.

(** The loop of the [poll_fn] of [pull_all()] ends at the first reading of
    the clock that is a millisecond past the nearest deadline, if not
    before. *)
Lemma blocking_poll_returns (j : nat) : forall n nearest fds t e,
  (j < n)%nat -> nearest - steady_clock env (t + 2 * j)%nat <= -1000000 ->
  exists out,
    blocking_poll env n nearest fds t e = Some out /\ (po_tick out <= S (t + 2 * j))%nat.
Proof.
  induction j as [|j IH]; intros n nearest fds t e Hj Hlate.
  - destruct n as [|n]; [lia|]. cbn [blocking_poll].
    replace (t + 2 * 0)%nat with t in Hlate by lia.
    apply (quot_negative _ 1000000) in Hlate; [|lia]. apply Z.ltb_lt in Hlate. rewrite Hlate.
    eexists. split; [reflexivity|]. simpl. lia.
  - destruct n as [|n]; [lia|]. cbn [blocking_poll].
    replace (t + 2 * S j)%nat with (S (S t) + 2 * j)%nat in * by lia.
    destruct (Z.quot (nearest - steady_clock env t) 1000000 <? 0).
    { eexists. split; [reflexivity|]. simpl. lia. }
    set (r := sys_poll env (S t) fds _).
    destruct (sys_ret r =? -1).
    + destruct (sys_errno r =? EINTR).
      * destruct (IH n nearest (with_revents (sys_revents r) fds) (S (S t)) (sys_errno r))
          as (out & Ho & Ht); [lia|exact Hlate|].
        exists out. split; [exact Ho|lia].
      * eexists. split; [reflexivity|]. simpl. lia.
    + destruct (0 <? sys_ret r).
      * eexists. split; [reflexivity|]. simpl. lia.
      * destruct (IH n nearest (with_revents (sys_revents r) fds) (S (S t)) e)
          as (out & Ho & Ht); [lia|exact Hlate|].
        exists out. split; [exact Ho|lia].
Qed.

(** The count of milliseconds is narrowed to the [int] parameter of
    [::poll]: up to [2^31 - 1] ms it is passed as it is; at [2^31] ms, some 25
    days, [::poll] gets a negative timeout, with which it blocks until an
    event or a signal. *)
Example poll_timeout_is_narrowed :
  to_int 2147483647 = 2147483647 /\ to_int 2147483648 = -2147483648.
Proof. split; reflexivity. Qed.

Lemma same_request_with_revents (rev : nat -> Z) (fds fds' : list pollfd) :
  same_request fds fds' -> same_request fds (with_revents rev fds').
Proof.
  intros [H1 H2]. destruct (with_revents_fd rev fds') as [F1 F2]. split; congruence.
Qed.

(** The loop of the [poll_fn] of [pull()] ends at the first call of
    [::poll] that is not interrupted. *)
Lemma nonblocking_poll_returns (j : nat) : forall n fds fds' t e,
  (j < n)%nat -> same_request fds fds' ->
  (forall fds'', same_request fds fds'' ->
     ~ (sys_ret (sys_poll env (t + j)%nat fds'' 0) = -1
        /\ sys_errno (sys_poll env (t + j)%nat fds'' 0) = EINTR)) ->
  exists out, nonblocking_poll env n fds' t e = Some out /\ (po_tick out <= S (t + j))%nat.
Proof.
  induction j as [|j IH]; intros n fds fds' t e Hj Hsame Hok.
  - destruct n as [|n]; [lia|]. cbn [nonblocking_poll].
    replace (t + 0)%nat with t in Hok by lia. specialize (Hok fds' Hsame).
    destruct (Z.eqb_spec (sys_ret (sys_poll env t fds' 0)) (-1)) as [Hr|Hr];
      [destruct (Z.eqb_spec (sys_errno (sys_poll env t fds' 0)) EINTR) as [He|He]|]; simpl.
    + tauto.
    + eexists. split; [reflexivity|]. simpl. lia.
    + eexists. split; [reflexivity|]. simpl. lia.
  - destruct n as [|n]; [lia|]. cbn [nonblocking_poll].
    replace (t + S j)%nat with (S t + j)%nat in * by lia.
    destruct ((sys_ret (sys_poll env t fds' 0) =? -1) && (sys_errno (sys_poll env t fds' 0) =? EINTR)).
    + destruct (IH n fds (with_revents (sys_revents (sys_poll env t fds' 0)) fds') (S t)
                  (sys_errno (sys_poll env t fds' 0))) as (out & Ho & Ht).
      * lia.
      * apply same_request_with_revents. exact Hsame.
      * exact Hok.
      * exists out. split; [exact Ho|lia].
    + eexists. split; [reflexivity|]. simpl. lia.
Qed.

(** X21: [pull()] returns, when no suspended coroutine pumps the engine once
    resumed, as soon as one of its calls of [::poll] is not interrupted by a
    signal: it makes at most one call more than there were interruptions. *)
Theorem pull_returns_when_poll_is_not_interrupted (n j : nat) (w : world) (fds : list pollfd) :
  wf w -> pull_free_world w -> build_fds w = Some fds -> (j <= n)%nat ->
  (forall fds', same_request fds fds' ->
     ~ (sys_ret (sys_poll env (tick w + j)%nat fds' 0) = -1
        /\ sys_errno (sys_poll env (tick w + j)%nat fds' 0) = EINTR)) ->
  exists out w' added,
    pull_poll_fn env (S n) fds w = Some out
    /\ (po_tick out <= S (tick w + j))%nat
    /\ pull env (S n) w = Some w'
    /\ operations w' = operations (snd (after_poll env out w)) ++ added.
Proof.
  intros Hwf Hpf Hfds Hj Hok.
  destruct (nonblocking_poll_returns j (S n) fds fds (tick w) (errno w)) as (out & Hout & Ht).
  { lia. }
  { split; reflexivity. }
  { exact Hok. }
  destruct (do_pull_returns env (pull env n) (pull_all env n) (pull_poll_fn env (S n)) w fds out
              Hwf Hpf Hfds Hout)
    as (w' & added & Hd & Hops).
  exists out, w', added. split; [exact Hout|]. split; [exact Ht|]. split; [exact Hd|exact Hops].
Qed.

(** X22: the loop in which a pass of [pull_all()] waits reads the clock
    before each call of [::poll]; it ends, whatever [::poll] answered until
    then, at the latest at the first of these readings that is a millisecond
    or more past the nearest deadline: when the reading number [j + 1] is that
    late, the [poll_fn] returns after at most [j] calls of [::poll] (the clock
    and [::poll] have then been called [2 * j + 1] times at most), and the
    pass returns when no suspended coroutine calls [pull()] or [pull_all()]
    once resumed.  This bounds the turns of the loop by the readings of the
    clock; it says nothing of the time a call of [::poll] blocks, whose
    timeout is the count of milliseconds narrowed to [int]. *)
Theorem pull_all_wait_ends_at_late_reading (n m j : nat) (w : world) (fds : list pollfd) :
  wf w -> pull_free_world w -> build_fds w = Some fds -> (j < n)%nat ->
  min_timeout w - steady_clock env (tick w + 2 * j)%nat <= -1000000 ->
  exists out w' added,
    pull_all_poll_fn env n fds w = Some out
    /\ (po_tick out <= S (tick w + 2 * j))%nat
    /\ do_pull env (pull env m) (pull_all env m) (pull_all_poll_fn env n) w = Some w'
    /\ operations w' = operations (snd (after_poll env out w)) ++ added.
Proof.
  intros Hwf Hpf Hfds Hj Hlate.
  destruct (blocking_poll_returns j n (min_timeout w) fds (tick w) (errno w) Hj Hlate)
    as (out & Hout & Ht).
  destruct (do_pull_returns env (pull env m) (pull_all env m) (pull_all_poll_fn env n) w fds out
              Hwf Hpf Hfds Hout)
    as (w' & added & Hd & Hops).
  exists out, w', added. split; [exact Hout|]. split; [exact Ht|]. split; [exact Hd|exact Hops].
Qed.

End reactor_waits.


Lemma draining_world_pull_free : pull_free_world draining_world.
Proof.
  apply pull_free_world_intro.
  assert (Hops : operations draining_world = [0; 1]%nat) by (vm_compute; reflexivity).
  rewrite Hops.
  repeat constructor; intros o h ex rev Ho Hh; vm_compute in Ho; injection Ho as <-;
    injection Hh as <-; simpl; auto.
Qed.

Lemma pull_returns_when_poll_is_not_interrupted_witness :
  wf teardown_world /\ pull_free_world teardown_world /\ tick teardown_world = 3%nat
  /\ exists out w' added,
       pull_poll_fn interrupted_env 3 teardown_fds teardown_world = Some out
       /\ (po_tick out <= 6)%nat
       /\ pull interrupted_env 3 teardown_world = Some w'
       /\ operations w' = operations (snd (after_poll interrupted_env out teardown_world)) ++ added.
Proof.
  assert (Hwf : wf teardown_world) by (apply wf_check_sound; vm_compute; reflexivity).
  assert (Hfds : build_fds teardown_world = Some teardown_fds) by (vm_compute; reflexivity).
  split; [exact Hwf|]. split; [exact teardown_world_pull_free|]. split; [reflexivity|].
  apply (pull_returns_when_poll_is_not_interrupted interrupted_env 2 2 teardown_world teardown_fds
           Hwf teardown_world_pull_free Hfds).
  - lia.
  - intros fds' _ [_ He]. vm_compute in He. discriminate He.
Defined.

Lemma pull_all_wait_ends_at_late_reading_witness :
  wf draining_world /\ pull_free_world draining_world /\ tick draining_world = 2%nat
  /\ steady_clock waiting_env 2 = 0 /\ steady_clock waiting_env 4 = 5000000
  /\ min_timeout draining_world = 2000000
  /\ exists out w' added,
       pull_all_poll_fn waiting_env 2 draining_fds draining_world = Some out
       /\ (po_tick out <= 5)%nat
       /\ do_pull waiting_env (pull waiting_env 0) (pull_all waiting_env 0)
            (pull_all_poll_fn waiting_env 2) draining_world = Some w'
       /\ operations w'
          = operations (snd (after_poll waiting_env out draining_world)) ++ added.
Proof.
  assert (Hwf : wf draining_world) by (apply wf_check_sound; vm_compute; reflexivity).
  assert (Hfds : build_fds draining_world = Some draining_fds) by (vm_compute; reflexivity).
  split; [exact Hwf|]. split; [exact draining_world_pull_free|]. split; [reflexivity|].
  split; [reflexivity|]. split; [reflexivity|]. split; [vm_compute; reflexivity|].
  apply (pull_all_wait_ends_at_late_reading waiting_env 2 0 1 draining_world draining_fds
           Hwf draining_world_pull_free Hfds).
  - lia.
  - vm_compute. discriminate.
Defined.
